(** * AutoScrum: clarification, story generation, assignment and triage

    A shallow embedding of the four workflow engines of the AutoScrum
    backend, with the properties stated for them.

    - [Py]            Python values and idioms shared by the engines
    - [Clarification] agents/dynamic_context_agent.py and the feature
                      context of memory/redis_client.py
    - [StoryGen]      agents/story_creator_agent.py
    - [Assignment]    agents/prioritization_agent.py
    - [Triage]        autoscrum/transcript_agent.py

    Numbers that the code holds in Python floats are rationals here
    ([Q]); integers are [Z].  Dictionaries with a fixed set of fields
    are records, dictionaries that are merged or looked up by arbitrary
    key are [gmap string json]. *)

From Stdlib Require Import QArith Qminmax ZArith Lia Lqa Permutation Sorted Floats.
From stdpp Require Import gmap strings list fin_maps pretty.

#[local] Set Warnings "-register-all".

(* ===================================================================== *)
(** * Python values *)
(* ===================================================================== *)

Module Py.

(** JSON-shaped documents, as [json.loads] produces them.  The numbers
    that the engines read from documents are counters and story points;
    they are integers here, floats are left out. *)
Inductive json :=
  | JNull
  | JBool (b : bool)
  | JNum (n : Z)
  | JStr (s : string)
  | JArr (l : list json)
  | JObj (m : gmap string json).

Abbreviation dict := (gmap string json).

(** Python truth value of a document ([if x:], [not x], [x or y]). *)
Definition truthy (j : json) : bool :=
  match j with
  | JNull => false
  | JBool b => b
  | JNum n => negb (n =? 0)%Z
  | JStr s => negb (String.eqb s "")
  | JArr l => match l with [] => false | _ => true end
  | JObj m => negb (size m =? 0)%nat
  end.

(** [d.get(k, default)]. *)
Definition get (d : dict) (k : string) (default : json) : json :=
  match d !! k with Some v => v | None => default end.

(** [k in d]. *)
Definition has_key (d : dict) (k : string) : bool :=
  match d !! k with Some _ => true | None => false end.

(** Exceptions that the modelled code can raise. *)
Inductive exn :=
  | ReasoningError          (* the reasoning service failed or sent no JSON *)
  | TypeError
  | AttributeError
  | ValueError (msg : string).

Inductive result (A : Type) :=
  | Ok (a : A)
  | Raise (e : exn).
Arguments Ok {A} a.
Arguments Raise {A} e.

Definition bind {A B} (r : result A) (k : A -> result B) : result B :=
  match r with Ok a => k a | Raise e => Raise e end.

Notation "x <- r ;; k" := (bind r (fun x => k))
  (at level 100, r at next level, right associativity).

(** A document used as a number ([x >= 5], [x + 1]): integers, and
    booleans as 0 and 1; anything else is a [TypeError]. *)
Definition as_num (j : json) : result Z :=
  match j with
  | JNum n => Ok n
  | JBool b => Ok (if b then 1 else 0)%Z
  | _ => Raise TypeError
  end.

(** [d.update(j)]: the keys of [j] win.  A number, a boolean or a string
    makes [dict.update] raise; an array would be read as key/value pairs,
    which is not modelled and is a raise here too. *)
Definition update (d : dict) (j : json) : result dict :=
  match j with
  | JObj m => Ok (m ∪ d)
  | _ => Raise TypeError
  end.

(** [s.lower()] on ASCII text. *)
Definition lower_char (c : Ascii.ascii) : Ascii.ascii :=
  let n := Ascii.nat_of_ascii c in
  if (65 <=? n)%nat && (n <=? 90)%nat then Ascii.ascii_of_nat (n + 32) else c.

Fixpoint lower (s : string) : string :=
  match s with
  | EmptyString => EmptyString
  | String c t => String (lower_char c) (lower t)
  end.

(** [needle in haystack] on strings. *)
Fixpoint contains (needle haystack : string) : bool :=
  String.prefix needle haystack ||
  match haystack with
  | EmptyString => false
  | String _ t => contains needle t
  end.

(** [any(keyword in text for keyword in keywords)] *)
Definition any_in (keywords : list string) (text : string) : bool :=
  existsb (fun keyword => contains keyword text) keywords.

(** Comparisons, [min] and [max] of two numbers: [min(a, b)] is [a]
    unless [b < a], [max(a, b)] is [a] unless [b > a]. *)
Definition Qlt_bool (a b : Q) : bool := negb (Qle_bool b a).
Definition qmin (a b : Q) : Q := if Qlt_bool b a then b else a.
Definition qmax (a b : Q) : Q := if Qlt_bool a b then b else a.

(** [sorted(l, key=key)]: ascending, and stable ([insert] walks past the
    strictly smaller keys only); with [reverse=True] descending, elements
    of equal key still in their original order. *)
Fixpoint insert_by {A} (before : A -> A -> bool) (x : A) (l : list A) : list A :=
  match l with
  | [] => [x]
  | y :: l' => if before y x then y :: insert_by before x l' else x :: l
  end.

Definition sorted {A} (key : A -> Q) (reverse : bool) (l : list A) : list A :=
  foldr (insert_by (fun y x =>
                      if reverse then Qlt_bool (key x) (key y)
                      else Qlt_bool (key y) (key x))) [] l.

(** [s.split("-")[0]] *)
Fixpoint before_dash (s : string) : string :=
  match s with
  | EmptyString => EmptyString
  | String c t =>
    if Ascii.eqb c (Ascii.ascii_of_nat 45) then EmptyString
    else String c (before_dash t)
  end.

(** [not s.strip()]: only white space. *)
Fixpoint is_blank (s : string) : bool :=
  match s with
  | EmptyString => true
  | String c t =>
    let n := Ascii.nat_of_ascii c in
    ((n =? 32)%nat || ((9 <=? n)%nat && (n <=? 13)%nat)) && is_blank t
  end.

(** Truth value of an optional string: [None] and [""] are false. *)
Definition truthy_str (o : option string) : bool :=
  match o with Some s => negb (String.eqb s "") | None => false end.

(** [a or b] on optional strings. *)
Definition or_str (a b : option string) : option string :=
  if truthy_str a then a else b.

(** [a or b] on documents. *)
Definition or_json (a b : json) : json := if truthy a then a else b.

(** [str(e)] of an exception. *)
Definition message_of (e : exn) : string :=
  match e with
  | ReasoningError => "ReasoningError"
  | TypeError => "TypeError"
  | AttributeError => "AttributeError"
  | ValueError msg => msg
  end.

(** [str(x)] of an optional string inside an f-string. *)
Definition str_opt (o : option string) : string :=
  match o with Some s => s | None => "None" end.

Definition json_opt (o : option string) : json :=
  match o with Some s => JStr s | None => JNull end.

End Py.

(* ===================================================================== *)
(** * ClarificationEngine (agents/dynamic_context_agent.py) *)
(* ===================================================================== *)

Module Clarification.
Import Py.

(** ** ContextStore (memory/redis_client.py)

    One entry per feature id: the stored document and the time to live
    it was written with.  Expiry itself (the passing of time) is not
    modelled. *)

Record entry := { doc : dict; ttl : Z }.

Abbreviation store := (gmap Z entry).

Definition default_ttl : Z := 3600.

(** [set_feature_context(feature_id, context, ttl=3600)] *)
Definition set_feature_context (st : store) (feature_id : Z) (context : dict)
    (ttl : Z) : store :=
  <[feature_id := {| doc := context; ttl := ttl |}]> st.

(** [get_feature_context(feature_id)]: [None] for a missing key. *)
Definition get_feature_context (st : store) (feature_id : Z) : option dict :=
  doc <$> st !! feature_id.

(** ** The agent *)

Record message := { role : string; content : json }.

Record input := {
  feature_id : Z;
  feature_name : option string;
  feature_description : option string;
  user_response : option string;
  conversation_history : list message
}.

(** The dictionary [execute] returns; [out_forced_completion] is [None]
    where the key is absent. *)
Record output := {
  out_feature_id : Z;
  out_question : json;
  out_is_complete : json;
  out_context_summary : json;
  out_conversation_history : list message;
  out_forced_completion : option bool
}.

(** What [generate_json_response] gives: parsed JSON, or an exception. *)
Abbreviation llm_reply := (result json).

Definition required_keys : list string :=
  ["goals"; "user_personas"; "key_features"; "acceptance_criteria";
   "technical_constraints"; "success_metrics"].

Definition has_required_keys (d : dict) : bool :=
  forallb (has_key d) required_keys.

Definition nl : string := String (Ascii.ascii_of_nat 10) EmptyString.

Definition canned_summary_request : string :=
  "Thanks for the detailed response! To finalize the clarification, could you summarize the goals, key user personas, core features, acceptance criteria, technical constraints, and success metrics?".

Definition canned_follow_up : string :=
  "Could you provide more details about the remaining aspects? Please share information about the goals, user personas, key features, acceptance criteria, technical constraints, and success metrics.".

(** [_generate_context_summary]: no call on an empty history; a failed
    call or a reply that is not an object gives [None]; a nested
    ["context_summary"] object is unwrapped; otherwise the reply itself
    is the summary.  No key of the summary is checked. *)
Definition _generate_context_summary (history : list message)
    (synth : llm_reply) : option dict :=
  match history with
  | [] => None
  | _ =>
    match synth with
    | Raise _ => None
    | Ok (JObj summary_response) =>
      match summary_response !! "context_summary" with
      | Some (JObj nested) => Some nested
      | _ => Some summary_response
      end
    | Ok _ => None
    end
  end.

(** What [_generate_context_summary] returns, as a document: [None] is
    null. *)
Definition summary_json (o : option dict) : json :=
  match o with Some d => JObj d | None => JNull end.

(** The minimal summary of [_force_completion]. *)
Definition minimal_summary (context : dict) : dict :=
  <["goals" := JArr [JStr "Feature implementation and delivery"]]>
  (<["user_personas" := JArr [JStr "End users"]]>
  (<["key_features" := JArr [get context "feature_name" (JStr "Feature")]]>
  (<["acceptance_criteria" := JArr [JStr "Feature meets basic requirements"]]>
  (<["technical_constraints" := JArr [JStr "Standard web application constraints"]]>
  (<["success_metrics" := JArr [JStr "Successful deployment and user adoption"]]>
   ∅))))).

(** [_force_completion] *)
Definition _force_completion (st : store) (fid : Z) (context : dict)
    (history : list message) (synth : llm_reply) : result (output * store) :=
  let context_summary :=
    match _generate_context_summary history synth with
    | Some d => if truthy (JObj d) then d else minimal_summary context
    | None => minimal_summary context
    end in
  context <- update context (JObj context_summary) ;;
  let context := <["context_summary" := JObj context_summary]> context in
  let context := <["is_complete" := JBool true]> context in
  let context := <["forced_completion" := JBool true]> context in
  let st := set_feature_context st fid context default_ttl in
  Ok ({| out_feature_id := fid;
         out_question := JNull;
         out_is_complete := JBool true;
         out_context_summary := JObj context_summary;
         out_conversation_history := history;
         out_forced_completion := Some true |}, st).

(** The first interaction (empty history). *)
Definition first_interaction (st : store) (i : input) (context : dict)
    (reply : llm_reply) : result (output * store) :=
  r <- reply ;;
  match r with
  | JObj response =>
    let history :=
      conversation_history i ++
      [ {| role := "user";
           content := JStr ("Feature: " ++ str_opt (feature_name i) ++ nl ++
                            "Description: " ++ str_opt (feature_description i)) |};
        {| role := "assistant"; content := get response "question" (JStr "") |} ] in
    let context := <["feature_name" := json_opt (feature_name i)]> context in
    let context := <["feature_description" := json_opt (feature_description i)]> context in
    let context := <["questions_asked" := JNum 1]> context in
    let st := set_feature_context st (feature_id i) context default_ttl in
    Ok ({| out_feature_id := feature_id i;
           out_question := get response "question" JNull;
           out_is_complete := JBool false;
           out_context_summary := JNull;
           out_conversation_history := history;
           out_forced_completion := None |}, st)
  | _ => Raise AttributeError
  end.

(** [x[:400]] needs a string or an array. *)
Definition sliceable (j : json) : bool :=
  match j with JStr _ | JArr _ => true | _ => false end.

(** A continuing interaction (non-empty history). *)
Definition continuing (st : store) (i : input) (context : dict)
    (reply synth : llm_reply) : result (output * store) :=
  let history :=
    conversation_history i ++
    [ {| role := "user"; content := json_opt (user_response i) |} ] in
  if negb (sliceable (get context "feature_description" (JStr "")))
  then Raise TypeError
  else
  r <- reply ;;
  match r with
  | JObj response =>
    let is_complete := get response "is_complete" (JBool false) in
    let question := get response "question" JNull in
    let context_summary := get response "context_summary" JNull in
    (* completion without a summary: synthesise one *)
    let '(is_complete, question, context_summary) :=
      if truthy is_complete && negb (truthy context_summary) then
        let context_summary := summary_json (_generate_context_summary history synth) in
        if negb (truthy context_summary)
        then (JBool false, JStr canned_summary_request, context_summary)
        else (is_complete, question, context_summary)
      else (is_complete, question, context_summary) in
    (* no completion and no question: canned follow-up *)
    let question :=
      if negb (truthy is_complete) && negb (truthy question)
      then JStr canned_follow_up else question in
    let history :=
      if negb (truthy is_complete) && truthy question
      then history ++ [ {| role := "assistant"; content := question |} ]
      else history in
    context <-
      (if truthy is_complete && truthy context_summary then
         context <- update context context_summary ;;
         Ok (<["is_complete" := JBool true]>
             (<["context_summary" := context_summary]> context))
       else Ok (<["is_complete" := JBool false]> context)) ;;
    n <- as_num (get context "questions_asked" (JNum 0)) ;;
    let context := <["questions_asked" := JNum (n + 1)]> context in
    let st := set_feature_context st (feature_id i) context default_ttl in
    Ok ({| out_feature_id := feature_id i;
           out_question := if negb (truthy is_complete) then question else JNull;
           out_is_complete := is_complete;
           out_context_summary := if truthy is_complete then context_summary else JNull;
           out_conversation_history := history;
           out_forced_completion := None |}, st)
  | _ => Raise AttributeError
  end.

(** [self.redis_client.get_feature_context(feature_id) or {}] *)
Definition load_context (st : store) (fid : Z) : dict :=
  match get_feature_context st fid with
  | Some c => if truthy (JObj c) then c else ∅
  | None => ∅
  end.

(** [execute].  [reply] is what the reasoning service answers to the
    question prompt of this call and [synth] what it answers to the
    summary prompt, should the call send one. *)
Definition execute (st : store) (i : input) (reply synth : llm_reply)
    : result (output * store) :=
  let context := load_context st (feature_id i) in
  questions_asked <- as_num (get context "questions_asked" (JNum 0)) ;;
  if (5 <=? questions_asked)%Z then
    _force_completion st (feature_id i) context (conversation_history i) synth
  else
    match conversation_history i with
    | [] => first_interaction st i context reply
    | _ => continuing st i context reply synth
    end.

(** A call as the orchestrator sees it: the input and the two replies
    the reasoning service would give. *)
Record call := { c_input : input; c_reply : llm_reply; c_synth : llm_reply }.

(** The store after a call; a call that raises writes nothing. *)
Definition step (st : store) (c : call) : store :=
  match execute st (c_input c) (c_reply c) (c_synth c) with
  | Ok (_, st') => st'
  | Raise _ => st
  end.

Definition run (st : store) (calls : list call) : store :=
  fold_left step calls st.

(** The persisted questions-asked counter of a feature, when it is a
    number. *)
Definition counter (st : store) (fid : Z) : option Z :=
  match get_feature_context st fid with
  | Some c =>
    match c !! "questions_asked" with
    | Some (JNum n) => Some n
    | Some _ => None
    | None => Some 0%Z
    end
  | None => Some 0%Z
  end.

(** ** Summaries a call can merge into the stored context *)

(** The ["context_summary"] object of the answer to the question prompt. *)
Definition reply_summary (reply : llm_reply) : option dict :=
  match reply with
  | Ok (JObj response) =>
    match response !! "context_summary" with
    | Some (JObj m) => Some m
    | _ => None
    end
  | _ => None
  end.

(** The summary [_generate_context_summary] draws from a non-empty history. *)
Definition synth_summary (synth : llm_reply) : option dict :=
  _generate_context_summary [ {| role := "user"; content := JNull |} ] synth.

Definition offered (reply synth : llm_reply) (d : dict) : Prop :=
  reply_summary reply = Some d \/ synth_summary synth = Some d.

(** The summary of the reply is no array (whose elements [dict.update]
    would read as key/value pairs, see [Py.update]). *)
Definition summary_no_array (reply : llm_reply) : Prop :=
  match reply with
  | Ok (JObj response) =>
    match response !! "context_summary" with
    | Some (JArr _) => False
    | _ => True
    end
  | _ => True
  end.

(** No summary of the call carries the counter's key. *)
Definition keeps_counter (c : call) : Prop :=
  summary_no_array (c_reply c) /\
  forall d, offered (c_reply c) (c_synth c) d -> d !! "questions_asked" = None.

(** Every non-empty summary of the call has the six required keys. *)
Definition sends_full_summaries (c : call) : Prop :=
  summary_no_array (c_reply c) /\
  forall d, offered (c_reply c) (c_synth c) d -> truthy (JObj d) = true ->
            has_required_keys d = true.

(** The counter of a feature is a number that does not exceed 5. *)
Definition bounded (st : store) (fid : Z) : Prop :=
  exists n, counter st fid = Some n /\ (n <= 5)%Z.

(** The stored document of a feature ([∅] when there is none). *)
Definition stored (st : store) (fid : Z) : dict :=
  match get_feature_context st fid with Some c => c | None => ∅ end.

(** A stored document whose completion flag is true holds a summary
    accepted by [P]. *)
Definition complete_implies (P : json -> Prop) (ctx : dict) : Prop :=
  ctx !! "is_complete" = Some (JBool true) ->
  exists j, ctx !! "context_summary" = Some j /\ P j.

Definition full_summary (j : json) : Prop :=
  exists d, j = JObj d /\ has_required_keys d = true.

End Clarification.

(* ===================================================================== *)
(** * StoryGenerationEngine (agents/story_creator_agent.py) *)
(* ===================================================================== *)

Module StoryGen.
Import Py.

(** A formatted story, as [execute] builds it for the database. *)
Record formatted_story := {
  title : json;
  description : json;
  acceptance_criteria : json;
  story_points : json;
  priority : json;
  dependencies : json;
  order : Z
}.

Record generation := {
  feature_id : Z;
  epic : json;
  stories : list formatted_story;
  total_story_points : Z;
  story_count : nat
}.

Definition required_keys : list string :=
  ["goals"; "user_personas"; "key_features"; "acceptance_criteria";
   "technical_constraints"; "success_metrics"].

(** [for story in stories] over a document: an array gives its elements;
    an empty object or string gives none; anything else cannot be
    iterated into dictionaries. *)
Definition iterate (j : json) : result (list json) :=
  match j with
  | JArr l => Ok l
  | JObj m => if truthy j then Raise AttributeError else Ok []
  | JStr s => if truthy j then Raise AttributeError else Ok []
  | _ => Raise TypeError
  end.

(** [sum(story.get("story_points", 0) for story in stories)]: each
    element must be a dictionary for [story.get] to exist, and what it
    gives must add to a number. *)
Fixpoint sum_points (l : list json) : result Z :=
  match l with
  | [] => Ok 0%Z
  | JObj story :: l' =>
    n <- as_num (get story "story_points" (JNum 0)) ;;
    rest <- sum_points l' ;;
    Ok (n + rest)%Z
  | _ :: _ => Raise AttributeError
  end.

(** The dictionaries among the elements (all of them, once [sum_points]
    has passed). *)
Fixpoint as_dicts (l : list json) : list dict :=
  match l with
  | [] => []
  | JObj d :: l' => d :: as_dicts l'
  | _ :: l' => as_dicts l'
  end.

(** The dictionary built for the story at position [idx] (from 0). *)
Definition format_story (idx : nat) (story : dict) : formatted_story :=
  {| title := get story "title" (JStr "");
     description := get story "description" (JStr "");
     acceptance_criteria := get story "acceptance_criteria" (JArr []);
     story_points := get story "story_points" (JNum 3);
     priority := get story "priority" (JStr "medium");
     dependencies := get story "dependencies" (JArr []);
     order := Z.of_nat idx + 1 |}.

(** [execute]: the prompt is built from the context and sent; [reply] is
    what the reasoning service answers. *)
Definition execute (fid : Z) (context : dict) (generate_epic : bool)
    (reply : result json) : result generation :=
  r <- reply ;;
  match r with
  | JObj response =>
    let epic := if generate_epic then get response "epic" JNull else JNull in
    stories <- iterate (get response "stories" (JArr [])) ;;
    total_story_points <- sum_points stories ;;
    let formatted_stories := imap format_story (as_dicts stories) in
    Ok {| feature_id := fid;
          epic := epic;
          stories := formatted_stories;
          total_story_points := total_story_points;
          story_count := length formatted_stories |}
  | _ => Raise AttributeError
  end.

(** The precondition of [generate_from_feature_id]: the context that is
    handed to [execute], or the [ValueError] raised instead. *)
Definition checked_context (stored : option dict) (fid : Z) : result dict :=
  match stored with
  | None => Raise (ValueError ("No context found for feature " ++ pretty fid))
  | Some context =>
    if negb (truthy (JObj context)) then
      Raise (ValueError ("No context found for feature " ++ pretty fid))
    else if negb (truthy (get context "is_complete" (JBool false))) then
      match get context "context_summary" JNull with
      | JObj summary_block =>
        if truthy (JObj summary_block) then
          Ok (<["is_complete" := JBool true]> (summary_block ∪ context))
        else if forallb (has_key context) required_keys then
          Ok (<["is_complete" := JBool true]> context)
        else Raise (ValueError ("Feature " ++ pretty fid ++ " context is not complete"))
      | _ =>
        if forallb (has_key context) required_keys then
          Ok (<["is_complete" := JBool true]> context)
        else Raise (ValueError ("Feature " ++ pretty fid ++ " context is not complete"))
      end
    else Ok context
  end.

(** [generate_from_feature_id] *)
Definition generate_from_feature_id (st : Clarification.store) (fid : Z)
    (generate_epic : bool) (reply : result json) : result generation :=
  context <- checked_context (Clarification.get_feature_context st fid) fid ;;
  execute fid context generate_epic reply.

End StoryGen.

(* ===================================================================== *)
(** * AssignmentEngine (agents/prioritization_agent.py) *)
(* ===================================================================== *)

Module Assignment.
Import Py.
#[local] Open Scope Q_scope.

(** Stories and team members are dictionaries read with
    [.get(key, default)]; a field here holds what that read gives, the
    default for a missing key.  [id] has the position of the story as
    its default and keeps the option. *)
Record story := {
  id : option Z;
  title : string;
  description : string;
  story_points : Q;
  priority : string;
  dependencies : list string
}.

Record member := {
  member_id : option string;
  name : string;
  email : string;
  job_title : string;
  skills : list string;
  experience_level : string;
  max_capacity : Q;
  current_load : Q;
  effective_capacity : Q;
  load_ratio : Q
}.

Record assignment := {
  story_id : Z;
  story_title : string;
  assigned_points : Q;
  assigned_priority : string;
  assignee : option string;
  assignee_email : option string;
  assignee_id : option string;
  confidence : Q
}.

Definition MAX_STORY_POINTS_PER_PERSON : Q := 5.

Definition set_capacity (m : member) (eff ratio : Q) : member :=
  {| member_id := member_id m; name := name m; email := email m;
     job_title := job_title m; skills := skills m;
     experience_level := experience_level m; max_capacity := max_capacity m;
     current_load := current_load m;
     effective_capacity := eff; load_ratio := ratio |}.

Definition set_load (m : member) (eff load : Q) : member :=
  {| member_id := member_id m; name := name m; email := email m;
     job_title := job_title m; skills := skills m;
     experience_level := experience_level m; max_capacity := max_capacity m;
     current_load := load;
     effective_capacity := eff; load_ratio := load_ratio m |}.

(** [_calculate_effective_capacity] *)
Definition _calculate_effective_capacity (team_members : list member) : list member :=
  map (fun m =>
         let current_load_ratio :=
           if Qlt_bool 0 (max_capacity m)
           then qmin (current_load m / max_capacity m) 1 else 0 in
         let effective_capacity := max_capacity m * (1 - current_load_ratio) in
         set_capacity m (qmax effective_capacity 0) current_load_ratio)
      team_members.

(** [priority_map.get(priority, 2)] *)
Definition priority_value (p : string) : Q :=
  if String.eqb p "high" then 3
  else if String.eqb p "medium" then 2
  else if String.eqb p "low" then 1
  else 2.

Definition has_dependencies (s : story) : bool :=
  (0 <? length (dependencies s))%nat.

(** The [score] of [priority_score]. *)
Definition score (s : story) : Q :=
  priority_value (priority s) * 100
  - (if has_dependencies s then 10 else 0)
  - story_points s * (1 # 2).

(** The sort key: [-score]. *)
Definition priority_score (s : story) : Q := - score s.

(** [_prioritize_stories] *)
Definition _prioritize_stories (stories : list story) : list story :=
  sorted priority_score false stories.

(** [_extract_required_skills]; the list it returns is only ever used
    as a set. *)
Definition _extract_required_skills (title description : string) : gset string :=
  let text := lower (title ++ " " ++ description) in
  (if any_in ["develop"; "code"; "implement"; "backend"; "frontend"; "api";
              "database"; "feature"] text
   then {["development"; "developer"]} else ∅)
  ∪ (if any_in ["test"; "qa"; "quality"; "verify"; "validation"; "automat"] text
     then {["testing"; "qa"; "tester"]} else ∅)
  ∪ (if any_in ["deploy"; "devops"; "infrastructure"; "ci/cd"; "pipeline";
                "monitor"; "alert"] text
     then {["devops"; "infrastructure"]} else ∅)
  ∪ (if any_in ["ui"; "ux"; "design"; "interface"; "user experience";
                "dashboard"] text
     then {["frontend"; "ui"]} else ∅)
  ∪ (if any_in ["architect"; "design"; "scalab"; "system design"; "integration"] text
     then {["architecture"; "senior"]} else ∅).

(** The member's skills with those inferred from the job title. *)
Definition member_skills (m : member) : gset string :=
  let job_title := lower (job_title m) in
  list_to_set (skills m)
  ∪ (if contains "developer" job_title || contains "engineer" job_title
     then {["developer"; "development"]} else ∅)
  ∪ (if contains "qa" job_title || contains "test" job_title
     then {["qa"; "testing"; "tester"]} else ∅)
  ∪ (if contains "devops" job_title then {["devops"; "infrastructure"]} else ∅)
  ∪ (if contains "architect" job_title then {["architecture"; "senior"]} else ∅).

Definition skill_overlap (m : member) (required : gset string) : nat :=
  size (member_skills m ∩ required).

Definition of_nat (n : nat) : Q := inject_Z (Z.of_nat n).

Definition skill_score (m : member) (required : gset string) : Q :=
  if (size required =? 0)%nat then 1 # 2
  else of_nat (skill_overlap m required) / of_nat (size required).

Definition role_bonus (m : member) (required : gset string) : Q :=
  if negb (size required =? 0)%nat && (0 <? skill_overlap m required)%nat
  then 2 else 1.

Definition balance_score (m : member) : Q :=
  1 - current_load m / MAX_STORY_POINTS_PER_PERSON.

Definition experience_bonus (m : member) : Q :=
  if String.eqb (experience_level m) "junior" then 8 # 10
  else if String.eqb (experience_level m) "mid" then 1
  else if String.eqb (experience_level m) "senior" then 12 # 10
  else 1.

(** The combined score of a candidate. *)
Definition match_score (m : member) (required : gset string) : Q :=
  skill_score m required * role_bonus m required * (6 # 10)
  + balance_score m * (3 # 10)
  + experience_bonus m * (1 # 10).

(** The two checks that let a member through to scoring. *)
Definition passes_checks (m : member) (story_points : Q) : bool :=
  negb (Qlt_bool MAX_STORY_POINTS_PER_PERSON (current_load m + story_points))
  && negb (Qlt_bool (effective_capacity m) story_points).

(** The loop of [_find_best_assignee] from position [idx] on, with the
    best index and score so far. *)
Fixpoint find_from (idx : nat) (members : list member) (required : gset string)
    (story_points : Q) (best_match_idx : option nat) (best_score : Q)
    : option nat * Q :=
  match members with
  | [] => (best_match_idx, best_score)
  | m :: rest =>
    if passes_checks m story_points then
      let score := match_score m required in
      if Qlt_bool best_score score
      then find_from (S idx) rest required story_points (Some idx) score
      else find_from (S idx) rest required story_points best_match_idx best_score
    else find_from (S idx) rest required story_points best_match_idx best_score
  end.

(** [_find_best_assignee]: the index of the best member and its
    [match_confidence], or [(None, None)]. *)
Definition _find_best_assignee (team_members : list member)
    (required_skills : gset string) (story_points : Q) : option (nat * Q) :=
  match find_from 0 team_members required_skills story_points None (-1) with
  | (Some idx, best_score) => Some (idx, best_score)
  | (None, _) => None
  end.

(** [min(range(len(team)), key=current_load)]: the first index of
    least load, from position [idx] on. *)
Fixpoint least_loaded_from (idx : nat) (members : list member)
    (best : nat) (best_load : Q) : nat :=
  match members with
  | [] => best
  | m :: rest =>
    if Qlt_bool (current_load m) best_load
    then least_loaded_from (S idx) rest idx (current_load m)
    else least_loaded_from (S idx) rest best best_load
  end.

Definition least_loaded (members : list member) : option nat :=
  match members with
  | [] => None
  | m :: rest => Some (least_loaded_from 1 rest 0%nat (current_load m))
  end.

(** The body of the loop of [_assign_stories] for the story at position
    [idx]: the assignment and the team with the assignee's load updated
    in place. *)
Definition assign_one (idx : nat) (s : story) (sorted_team : list member)
    : assignment * list member :=
  let story_id := match id s with Some i => i | None => Z.of_nat idx end in
  let required_skills := _extract_required_skills (title s) (description s) in
  let record assignee assignee_email assignee_id confidence :=
    {| story_id := story_id; story_title := title s;
       assigned_points := story_points s; assigned_priority := priority s;
       assignee := assignee; assignee_email := assignee_email;
       assignee_id := assignee_id; confidence := confidence |} in
  match _find_best_assignee sorted_team required_skills (story_points s) with
  | Some (best_match_idx, match_confidence) =>
    match sorted_team !! best_match_idx with
    | Some m =>
      (record (Some (name m)) (Some (email m)) (member_id m) match_confidence,
       <[best_match_idx :=
           set_load m (effective_capacity m - story_points s)
                      (current_load m + story_points s)]> sorted_team)
    | None => (record None None None 0, sorted_team)
    end
  | None =>
    match least_loaded sorted_team with
    | Some fallback_idx =>
      match sorted_team !! fallback_idx with
      | Some m =>
        (record (Some (name m)) (Some (email m)) (member_id m) (3 # 10),
         <[fallback_idx :=
             set_load m (qmax 0 (effective_capacity m - story_points s))
                        (current_load m + story_points s)]> sorted_team)
      | None => (record None None None 0, sorted_team)
      end
    | None => (record None None None 0, sorted_team)
    end
  end.

(** The loop over [enumerate(stories)], from position [idx] on. *)
Fixpoint assign_from (idx : nat) (stories : list story) (sorted_team : list member)
    : list assignment * list member :=
  match stories with
  | [] => ([], sorted_team)
  | s :: rest =>
    let '(a, team') := assign_one idx s sorted_team in
    let '(assignments, team'') := assign_from (S idx) rest team' in
    (a :: assignments, team'')
  end.

(** [_assign_stories]: the assignments, and the team as the run leaves it. *)
Definition _assign_stories (stories : list story) (team_members : list member)
    : list assignment * list member :=
  let sorted_team := sorted effective_capacity true team_members in
  assign_from 0 stories sorted_team.

(** [execute], as far as the ["assignments"] entry of its result. *)
Definition execute (stories : list story) (team_members : list member)
    : list assignment :=
  let team_with_capacity := _calculate_effective_capacity team_members in
  let prioritized_stories := _prioritize_stories stories in
  fst (_assign_stories prioritized_stories team_with_capacity).

End Assignment.

(* ===================================================================== *)
(** * TranscriptTriageEngine (autoscrum/transcript_agent.py) *)
(* ===================================================================== *)

Module Triage.
Import Py.
#[local] Open Scope Q_scope.

Definition ACCESS_KEYWORDS : list string :=
  ["access"; "permission"; "403"; "401"; "credentials"; "vpn"; "can't clone";
   "forbidden"; "blocked"; "cannot access"; "no access"].

Definition HELP_KEYWORDS : list string :=
  ["help"; "pair"; "review"; "can someone"; "assist"; "please help"; "need help";
   "assign"].

Definition PACE_KEYWORDS : list string :=
  ["later"; "not a priority"; "will do later"; "busy"; "lack of time";
   "taking too long"; "slow"; "delay"; "behind schedule"; "haven't made progress";
   "no progress"].

(** [contains_any] *)
Definition contains_any (text : string) (keywords : list string) : bool :=
  if String.eqb text "" then false
  else existsb (fun k => contains (lower k) (lower text)) keywords.

(** ** Transcripts and timeline *)

Record participant := {
  p_email : option string;
  p_name : option string;
  spoken_text : list string
}.

Record day := { date : option string; participants : list participant }.

(** One utterance, as [_merge_person_texts] records it. *)
Record event := {
  e_date : option string;
  e_name : option string;
  e_email : option string;
  text : string;
  jiras : list string;
  access : bool;
  help : bool;
  pace : bool
}.

(** The key of a timeline entry: (speaker, ticket reference or [None]). *)
Definition timeline_key : Type := option string * option string.

(** The timeline dictionary, in insertion order. *)
Definition timeline : Type := list (timeline_key * list event).

(** [timeline.setdefault(key, []).append(entry)] *)
Fixpoint setdefault_append (key : timeline_key) (entry : event) (tl : timeline)
    : timeline :=
  match tl with
  | [] => [(key, [entry])]
  | (k, events) :: rest =>
    if decide (k = key) then (k, events ++ [entry]) :: rest
    else (k, events) :: setdefault_append key entry rest
  end.

(** ** Actions already taken (db.models.TranscriptAction) *)

Record action_payload := {
  ap_person : option string;
  ap_story : option string;
  ap_excerpt : string;
  ap_confidence : Q
}.

(** What is sent to the ticket services.  The texts built for them are
    kept as the values they are built from. *)
Record incident_payload := {
  ip_caller_id : option string;
  ip_subject : string;            (* [story or self.project_key] *)
  ip_excerpt : string;
  ip_confidence : Q
}.

Record story_payload := {
  sp_project_key : string;
  sp_person : option string;
  sp_subject : string;            (* [story or 'unknown task'] *)
  sp_excerpt : string;
  sp_confidence : Q;
  sp_assignee : json
}.

Inductive external_call :=
  | CreateIncident (payload : incident_payload)
  | GetTeamCapacity (board_id : Z)
  | CreateStory (payload : story_payload).

(** The dictionary a dispatch returns. *)
Inductive dispatch_result :=
  | MockIncident (payload : incident_payload)
  | MockStory (payload : story_payload)
  | Response (resp : json)
  | Failed (error : string)
  | CreatedAndAssigned (assignee : json) (resp : json)
  | CreatedUnassigned (resp : json).

Definition result_truthy (r : dispatch_result) : bool :=
  match r with Response resp => truthy resp | _ => true end.

Record action_record := {
  action_key : string;
  person : option string;
  story : option string;
  diagnosis : string;
  confidence : Q;
  payload : action_payload;
  response : dispatch_result
}.

Record decision := {
  d_person : option string;
  d_story : option string;
  d_diagnosis : string;
  d_confidence : Q;
  d_excerpt : string;
  d_action_key : string;
  d_result : dispatch_result
}.

(** The ticket services answer a call knowing the calls made so far; a
    function that was not resolved is [None]. *)
Record tool_funcs := {
  servicenow_create_incident_impl :
    option (list external_call -> incident_payload -> result json);
  jira_get_team_capacity_impl :
    option (list external_call -> Z -> result json);
  jira_create_story_impl :
    option (list external_call -> story_payload -> result json)
}.

(** The action table and the calls made to the ticket services. *)
Record state := {
  actions : gmap string action_record;
  calls : list external_call
}.

(** [action_exists] *)
Definition action_exists (st : state) (key : string) : bool :=
  match actions st !! key with Some _ => true | None => false end.

(** [x or None] on an optional string. *)
Definition or_none (o : option string) : option string := or_str o None.

(** [persist_action]: update the row of that key or add one. *)
Definition persist_action (st : state) (key : string) (person story : option string)
    (diagnosis : string) (confidence : Q) (payload : action_payload)
    (response : dispatch_result) : state :=
  let row :=
    match actions st !! key with
    | Some obj =>
      {| action_key := action_key obj;
         person := or_str person (Triage.person obj);
         story := or_str story (Triage.story obj);
         diagnosis := if String.eqb diagnosis "" then Triage.diagnosis obj else diagnosis;
         confidence := confidence;
         payload := payload;
         response := if result_truthy response then response else Triage.response obj |}
    | None =>
      {| action_key := key; person := or_none person; story := or_none story;
         diagnosis := diagnosis; confidence := confidence;
         payload := payload; response := response |}
    end in
  {| actions := <[key := row]> (actions st); calls := calls st |}.

(** ** Analysis of one timeline entry *)

(** The confidence heuristic of [process]. *)
Definition entry_score (story : option string) (events : list event) : Q :=
  let access := existsb access events in
  let help_req := existsb help events in
  let pace := existsb pace events in
  let mentions := length events in
  let score := 0 in
  let score := if truthy_str story then score + (12 # 10) else score in
  let score := if access then score + 1 else score in
  let score := if help_req then score + (9 # 10) else score in
  let score := if pace then score + (7 # 10) else score in
  score + (2 # 10) * (inject_Z (Z.of_nat mentions) - 1).

Definition entry_confidence (story : option string) (events : list event) : Q :=
  qmin (entry_score story events / 3) 1.

Definition entry_diagnosis (story : option string) (events : list event) : string :=
  let confidence := entry_confidence story events in
  if existsb access events && Qle_bool (3 # 10) confidence then "access"
  else if existsb help events && Qle_bool (3 # 10) confidence then "needs_help"
  else if existsb pace events && Qle_bool (7 # 10) confidence then "pace"
  else "verify".

(** [events[-1]["text"][:800]] *)
Definition entry_excerpt (events : list event) : string :=
  match last events with
  | Some e => String.substring 0 800 (text e)
  | None => ""
  end.

Section Engine.

(** The string hash of the running interpreter, and the search for ticket
    references ([JIRA_RE.finditer], listed as a set). *)
Variable hash : string -> Z.
Variable extract_jira_ids : string -> list string.

Variable project_key : string.
Variable tools : tool_funcs.

(** [make_action_key] *)
Definition make_action_key (person : string) (story : option string)
    (diagnosis excerpt : string) : string :=
  let base :=
    (person ++ "||" ++
     (match or_none story with Some s => s | None => "NO_STORY" end) ++ "||" ++
     diagnosis ++ "||" ++ String.substring 0 200 excerpt)%string in
  pretty (Z.abs (hash base)).

(** The utterances of one participant on one day. *)
Fixpoint add_texts (d : day) (p : participant) (texts : list string) (tl : timeline)
    : timeline :=
  match texts with
  | [] => tl
  | txt :: rest =>
    let email := or_str (p_email p) (p_name p) in
    let jiras := extract_jira_ids txt in
    let entry :=
      {| e_date := date d; e_name := p_name p; e_email := email; text := txt;
         jiras := jiras;
         access := contains_any txt ACCESS_KEYWORDS;
         help := contains_any txt HELP_KEYWORDS;
         pace := contains_any txt PACE_KEYWORDS |} in
    let tl :=
      match jiras with
      | [] => setdefault_append (email, None) entry tl
      | _ => foldl (fun tl jid => setdefault_append (email, Some jid) entry tl) tl jiras
      end in
    add_texts d p rest tl
  end.

(** [_merge_person_texts] *)
Definition _merge_person_texts (transcripts : list day) : timeline :=
  foldl (fun tl d =>
           foldl (fun tl p => add_texts d p (spoken_text p) tl) tl (participants d))
        [] transcripts.

(** [_create_servicenow_incident] *)
Definition _create_servicenow_incident (st : state) (person story : option string)
    (excerpt : string) (confidence : Q) : dispatch_result * state :=
  let payload :=
    {| ip_caller_id := person;
       ip_subject := match or_none story with Some s => s | None => project_key end;
       ip_excerpt := excerpt; ip_confidence := confidence |} in
  match servicenow_create_incident_impl tools with
  | None => (MockIncident payload, st)
  | Some func =>
    let st' := {| actions := actions st; calls := calls st ++ [CreateIncident payload] |} in
    match func (calls st) payload with
    | Ok resp => (Response resp, st')
    | Raise e => (Failed (message_of e), st')
    end
  end.

(** The search for a buddy in the team list of the capacity response:
    the first member with an e-mail (or name), available capacity, and
    an e-mail other than the requester's; an element that is not an
    object ends the search with an exception, hence without buddy. *)
Fixpoint find_buddy (person : option string) (team : list json) : option json :=
  match team with
  | [] => None
  | JObj m :: rest =>
    let email := or_json (get m "email" JNull) (get m "name" JNull) in
    let avail := or_json (get m "available_capacity" (JNum 0)) (JNum 0) in
    let is_person :=
      match email, person with
      | JStr e, Some p => String.eqb e p
      | _, _ => false
      end in
    if truthy email && truthy avail && negb is_person then Some email
    else find_buddy person rest
  | _ :: _ => None
  end.

(** The team list read from the capacity response. *)
Definition capacity_team (cap_resp : json) : json :=
  match cap_resp with
  | JObj r =>
    let team :=
      if truthy (get r "success" JNull) then
        match get r "data" JNull with
        | JObj data => get data "team" (JArr [])
        | _ => if truthy (get r "team" JNull) then get r "team" (JArr []) else JArr []
        end
      else if truthy (get r "team" JNull) then get r "team" (JArr [])
      else JArr [] in
    if negb (truthy team) && truthy (get r "team" JNull) then get r "team" JNull
    else team
  | _ => JArr []
  end.

Definition buddy_of (person : option string) (cap_resp : json) : option json :=
  match capacity_team cap_resp with
  | JArr team => find_buddy person team
  | _ => None
  end.

(** [_create_or_assign_jira_helper] *)
Definition _create_or_assign_jira_helper (st : state) (person story : option string)
    (excerpt : string) (confidence : Q) : dispatch_result * state :=
  let project_key' :=
    match or_none story with
    | Some s =>
      match extract_jira_ids s with
      | story_key :: _ =>
        if contains "-" story_key then before_dash story_key else project_key
      | [] => project_key
      end
    | None => project_key
    end in
  let project_key' :=
    if is_blank project_key'
    then (if String.eqb project_key "" then "PROJ" else project_key)
    else project_key' in
  let payload_base :=
    {| sp_project_key := project_key'; sp_person := person;
       sp_subject := match or_none story with Some s => s | None => "unknown task" end;
       sp_excerpt := excerpt; sp_confidence := confidence; sp_assignee := JNull |} in
  (* the buddy, when the capacity function is there and answers *)
  let '(buddy_email, st) :=
    match jira_get_team_capacity_impl tools with
    | None => (None, st)
    | Some get_capacity =>
      let st' := {| actions := actions st; calls := calls st ++ [GetTeamCapacity 1] |} in
      match get_capacity (calls st) 1%Z with
      | Ok cap_resp => (buddy_of person cap_resp, st')
      | Raise _ => (None, st')
      end
    end in
  match jira_create_story_impl tools with
  | None => (MockStory payload_base, st)
  | Some create_story =>
    let unassigned (st : state) :=
      let st' := {| actions := actions st;
                    calls := calls st ++ [CreateStory payload_base] |} in
      match create_story (calls st) payload_base with
      | Ok resp => (CreatedUnassigned resp, st')
      | Raise e => (Failed (message_of e), st')
      end in
    match buddy_email with
    | Some buddy =>
      let payload :=
        {| sp_project_key := project_key'; sp_person := person;
           sp_subject := sp_subject payload_base;
           sp_excerpt := excerpt; sp_confidence := confidence; sp_assignee := buddy |} in
      let st' := {| actions := actions st; calls := calls st ++ [CreateStory payload] |} in
      match create_story (calls st) payload with
      | Ok resp => (CreatedAndAssigned buddy resp, st')
      | Raise _ => unassigned st'
      end
    | None => unassigned st
    end
  end.

(** The body of the loop of [process] for one timeline entry: skip it
    when its action key is in the table, else dispatch and record. *)
Definition process_entry (st : state) (entry : timeline_key * list event)
    : state * option decision :=
  let '((person, story), events) := entry in
  let excerpt := entry_excerpt events in
  let confidence := entry_confidence story events in
  let diagnosis := entry_diagnosis story events in
  let action_key :=
    make_action_key (match or_none person with Some p => p | None => "" end)
      story diagnosis excerpt in
  if action_exists st action_key then (st, None)
  else
    let payload :=
      {| ap_person := person; ap_story := story; ap_excerpt := excerpt;
         ap_confidence := confidence |} in
    let '(result, st) :=
      if String.eqb diagnosis "access"
      then _create_servicenow_incident st person story excerpt confidence
      else _create_or_assign_jira_helper st person story excerpt confidence in
    let st := persist_action st action_key person story diagnosis confidence
                payload result in
    (st, Some {| d_person := person; d_story := story; d_diagnosis := diagnosis;
                 d_confidence := confidence; d_excerpt := excerpt;
                 d_action_key := action_key; d_result := result |}).

(** The loop of [process] over the timeline entries. *)
Fixpoint process_entries (st : state) (tl : timeline) : state * list decision :=
  match tl with
  | [] => (st, [])
  | entry :: rest =>
    let '(st, d) := process_entry st entry in
    let '(st, ds) := process_entries st rest in
    (st, match d with Some d => d :: ds | None => ds end)
  end.

(** [process] *)
Definition process (st : state) (transcripts : list day) : state * list decision :=
  process_entries st (_merge_person_texts transcripts).

End Engine.

End Triage.

(* ===================================================================== *)
(** * ContextStore, the other operations (memory/redis_client.py) *)
(* ===================================================================== *)

Module ContextStore.
Import Py Clarification.

(** [update_feature_context]: the stored document, or [{}] when there
    is none, takes the updates and is written back with the default
    time to live of [set_feature_context]. *)
Definition update_feature_context (st : store) (feature_id : Z) (updates : dict)
    : store :=
  let context := load_context st feature_id in
  let context := updates ∪ context in
  set_feature_context st feature_id context default_ttl.

(** [delete_feature_context]: [True] when the key was there. *)
Definition delete_feature_context (st : store) (feature_id : Z) : bool * store :=
  (match st !! feature_id with Some _ => true | None => false end,
   delete feature_id st).

(** [get_context] and [reset_context] of the clarification agent. *)
Definition get_context (st : store) (feature_id : Z) : option dict :=
  get_feature_context st feature_id.

Definition reset_context (st : store) (feature_id : Z) : bool * store :=
  delete_feature_context st feature_id.

(** ** Conversation messages: one Redis list per session *)

Record chat_message := { m_role : string; m_content : string }.

Abbreviation message_store := (gmap string (list chat_message)).

(** The list under a key; a missing key is the empty list. *)
Definition messages_of (ms : message_store) (session_id : string)
    : list chat_message :=
  match ms !! session_id with Some l => l | None => [] end.

(** [append_conversation_message]: [RPUSH] answers with the new length. *)
Definition append_conversation_message (ms : message_store)
    (session_id role content : string) : bool * message_store :=
  let l := messages_of ms session_id
           ++ [ {| m_role := role; m_content := content |} ] in
  ((0 <? length l)%nat, <[session_id := l]> ms).

(** Redis [LRANGE key start stop] on the list [l]: a negative index
    counts from the end, an index past either end is clipped. *)
Definition lrange {A} (l : list A) (start stop : Z) : list A :=
  let llen := Z.of_nat (length l) in
  let start := if (start <? 0)%Z then (start + llen)%Z else start in
  let stop := if (stop <? 0)%Z then (stop + llen)%Z else stop in
  let start := if (start <? 0)%Z then 0%Z else start in
  if (stop <? start)%Z || (llen <=? start)%Z then []
  else
    let stop := if (llen <=? stop)%Z then (llen - 1)%Z else stop in
    take (Z.to_nat (stop - start + 1)) (drop (Z.to_nat start) l).

(** [get_conversation_messages(session_id, limit=50)] *)
Definition get_conversation_messages (ms : message_store) (session_id : string)
    (limit : Z) : list chat_message :=
  lrange (messages_of ms session_id) (- limit) (-1).

End ContextStore.

(* ===================================================================== *)
(** * The feature workflow (orchestrator/orchestrator.py) *)
(* ===================================================================== *)

Module Workflow.
Import Py.

(** [FeatureWorkflowState].  The optional fields hold what
    [state.get(key)] gives. *)
Record FeatureWorkflowState := {
  feature_id : Z;
  feature_name : option string;
  feature_description : option string;
  user_response : option string;
  conversation_history : list Clarification.message;
  current_question : json;
  is_complete : json;
  context_summary : json;
  workflow_id : option string
}.

(** The dictionary handed to the agent. *)
Definition agent_input (state : FeatureWorkflowState) : Clarification.input :=
  {| Clarification.feature_id := feature_id state;
     Clarification.feature_name := feature_name state;
     Clarification.feature_description := feature_description state;
     Clarification.user_response := user_response state;
     Clarification.conversation_history := conversation_history state |}.

(** The agent appends to the list it is given, which is the list of the
    state.  When it raises, the state keeps what was appended before:
    nothing when the counter cannot be read or the reasoning service
    fails on the first prompt, the opening message when the first reply
    is no object, the user's reply on a continuing call. *)
Definition history_when_raised (st : Clarification.store) (state : FeatureWorkflowState)
    (reply : Clarification.llm_reply) : list Clarification.message :=
  let context := Clarification.load_context st (feature_id state) in
  match as_num (get context "questions_asked" (JNum 0)) with
  | Raise _ => conversation_history state
  | Ok questions_asked =>
    if (5 <=? questions_asked)%Z then conversation_history state
    else
      match conversation_history state with
      | [] =>
        match reply with
        | Raise _ => []
        | Ok _ =>
          [ {| Clarification.role := "user";
               Clarification.content :=
                 JStr ("Feature: " ++ str_opt (feature_name state) ++ Clarification.nl ++
                       "Description: " ++ str_opt (feature_description state)) |} ]
        end
      | history =>
        history ++ [ {| Clarification.role := "user";
                        Clarification.content := json_opt (user_response state) |} ]
      end
  end.

(** [_clarify_node]: the agent is called; a turn that ends without
    completion overwrites the stored context with the five fields of
    [context_to_store]; an exception ends the turn as complete, with the
    error text as the question. *)
Definition _clarify_node (st : Clarification.store) (state : FeatureWorkflowState)
    (reply synth : Clarification.llm_reply) : FeatureWorkflowState * Clarification.store :=
  match Clarification.execute st (agent_input state) reply synth with
  | Ok (result, st) =>
    let current_question := Clarification.out_question result in
    let is_complete := Clarification.out_is_complete result in
    let context_summary := Clarification.out_context_summary result in
    let conversation_history :=
      match Clarification.out_conversation_history result with
      | [] => conversation_history state
      | history => history
      end in
    let state :=
      {| feature_id := feature_id state; feature_name := feature_name state;
         feature_description := feature_description state;
         user_response := user_response state;
         conversation_history := conversation_history;
         current_question := current_question;
         is_complete := is_complete;
         context_summary := context_summary;
         workflow_id := workflow_id state |} in
    if negb (truthy is_complete) then
      let context_to_store : dict :=
        {[ "feature_name" := json_opt (feature_name state);
           "feature_description" := json_opt (feature_description state);
           "is_complete" := JBool false;
           "last_question" := current_question;
           "workflow_id" := json_opt (workflow_id state) ]} in
      (state,
       Clarification.set_feature_context st (feature_id state) context_to_store 3600)
    else (state, st)
  | Raise e =>
    ({| feature_id := feature_id state; feature_name := feature_name state;
        feature_description := feature_description state;
        user_response := user_response state;
        conversation_history := history_when_raised st state reply;
        current_question := JStr ("Error: " ++ message_of e);
        is_complete := JBool true;
        context_summary := context_summary state;
        workflow_id := workflow_id state |}, st)
  end.

Definition required_fields : list string :=
  ["goals"; "user_personas"; "key_features"; "acceptance_criteria";
   "technical_constraints"; "success_metrics"].

Definition missing_aspects : string :=
  "Could you provide more details about the missing aspects?".

Definition more_information : string :=
  "I need to gather more information. Could you summarize the feature requirements?".

(** The state with completion withdrawn and [question] to ask. *)
Definition keep_incomplete (state : FeatureWorkflowState) (question : string) : FeatureWorkflowState :=
  {| feature_id := feature_id state; feature_name := feature_name state;
     feature_description := feature_description state;
     user_response := user_response state;
     conversation_history := conversation_history state;
     current_question := JStr question;
     is_complete := JBool false;
     context_summary := context_summary state;
     workflow_id := workflow_id state |}.

(** [_check_complete_node]: a summary that is a non-empty object with
    the six fields is merged over the feature's name, description and a
    true completion flag and stored for 24 hours; any other summary
    withdraws the completion. *)
Definition _check_complete_node (st : Clarification.store) (state : FeatureWorkflowState)
    : FeatureWorkflowState * Clarification.store :=
  match context_summary state with
  | JObj summary =>
    if truthy (JObj summary) then
      if forallb (has_key summary) required_fields then
        let final_context : dict :=
          {[ "feature_name" := json_opt (feature_name state);
             "feature_description" := json_opt (feature_description state);
             "is_complete" := JBool true ]} in
        let final_context := summary ∪ final_context in
        (state,
         Clarification.set_feature_context st (feature_id state) final_context 86400)
      else (keep_incomplete state missing_aspects, st)
    else (keep_incomplete state more_information, st)
  | _ => (keep_incomplete state more_information, st)
  end.

(** [_should_continue_clarification] *)
Definition _should_continue_clarification (state : FeatureWorkflowState) : string :=
  if truthy (is_complete state) then "complete"
  else if truthy (current_question state) then "continue"
  else "end".

(** One run of the graph of [_build_feature_workflow_graph]: the entry
    node [clarify], then [check_complete] along the edge "complete", the
    end along "continue" and "end".  The state is the one the last node
    returns; what the graph library then does with the history channel
    (it adds lists) is no part of it. *)
Definition feature_graph (st : Clarification.store) (state : FeatureWorkflowState)
    (reply synth : Clarification.llm_reply) : FeatureWorkflowState * Clarification.store :=
  let '(state, st) := _clarify_node st state reply synth in
  if String.eqb (_should_continue_clarification state) "complete"
  then _check_complete_node st state
  else (state, st).

(** Successive runs of the graph over one store: each turn comes with
    the state the graph is invoked on and with the replies of the
    reasoning service. *)
Record turn := {
  t_state : FeatureWorkflowState;
  t_reply : Clarification.llm_reply;
  t_synth : Clarification.llm_reply
}.

Fixpoint run_turns (st : Clarification.store) (turns : list turn)
    : list FeatureWorkflowState * Clarification.store :=
  match turns with
  | [] => ([], st)
  | t :: rest =>
    let '(state, st) := feature_graph st (t_state t) (t_reply t) (t_synth t) in
    let '(states, st) := run_turns st rest in
    (state :: states, st)
  end.

End Workflow.

(* ===================================================================== *)
(** * Story checks (agents/story_creator_agent.py) *)
(* ===================================================================== *)

Module StoryChecks.
Import Py.

(** [validate_story] *)
Definition validate_story (story : dict) : bool :=
  forallb (has_key story) ["title"; "description"; "acceptance_criteria"].

(** [len(x)]: strings (ASCII text), arrays and objects have a length. *)
Definition len (j : json) : result Z :=
  match j with
  | JStr s => Ok (Z.of_nat (String.length s))
  | JArr l => Ok (Z.of_nat (length l))
  | JObj m => Ok (Z.of_nat (size m))
  | _ => Raise TypeError
  end.

(** [estimate_complexity] *)
Definition estimate_complexity (story : dict) : result Z :=
  criteria_count <- len (get story "acceptance_criteria" (JArr [])) ;;
  description_length <- len (get story "description" (JStr "")) ;;
  Ok (if (criteria_count <=? 2)%Z && (description_length <? 200)%Z then 2
      else if (criteria_count <=? 4)%Z && (description_length <? 500)%Z then 5
      else if (criteria_count <=? 6)%Z then 8
      else 13)%Z.

End StoryChecks.

(* ===================================================================== *)
(** * Team load, warnings and the report of the AssignmentEngine
      (agents/prioritization_agent.py) *)
(* ===================================================================== *)

Module TeamLoad.
Import Py Assignment.
#[local] Open Scope Q_scope.

(** The entry of one member in [member_loads]. *)
Record load_info := {
  li_current_load : Q;
  li_max_capacity : Q;
  load_percentage : Q;
  assigned_stories : nat
}.

(** A dictionary keyed by member name, in insertion order. *)
Definition member_loads : Type := list (string * load_info).

(** [d[key] = value]: the value of a key that is there is replaced in
    its place, a new key goes to the end. *)
Fixpoint dict_set {V} (key : string) (value : V) (d : list (string * V))
    : list (string * V) :=
  match d with
  | [] => [(key, value)]
  | (k, v) :: rest =>
    if String.eqb k key then (k, value) :: rest
    else (k, v) :: dict_set key value rest
  end.

(** [d.get(key)] *)
Fixpoint dict_get {V} (key : string) (d : list (string * V)) : option V :=
  match d with
  | [] => None
  | (k, v) :: rest => if String.eqb k key then Some v else dict_get key rest
  end.

(** The first loop of [_calculate_team_load]; [None] is the
    [ZeroDivisionError] of [current_load / max_capacity]. *)
Fixpoint load_members (team_members : list member) (loads : member_loads)
    : option member_loads :=
  match team_members with
  | [] => Some loads
  | m :: rest =>
    if Qeq_bool (max_capacity m) 0 then None
    else
      load_members rest
        (dict_set (name m)
           {| li_current_load := current_load m;
              li_max_capacity := max_capacity m;
              load_percentage := current_load m / max_capacity m * 100;
              assigned_stories := 0 |} loads)
  end.

(** The body of the second loop: an assignment counts for its assignee
    when the name is not empty and is in [member_loads]. *)
Definition count_assignment (loads : member_loads) (a : assignment) : member_loads :=
  match assignee a with
  | Some assignee =>
    if negb (String.eqb assignee "") then
      match dict_get assignee loads with
      | Some info =>
        dict_set assignee
          {| li_current_load := li_current_load info;
             li_max_capacity := li_max_capacity info;
             load_percentage := load_percentage info;
             assigned_stories := S (assigned_stories info) |} loads
      | None => loads
      end
    else loads
  | None => loads
  end.

(** [sum(...)]: from 0, left to right. *)
Definition qsum (l : list Q) : Q := foldl Qplus 0 l.

Record team_load := {
  team_members : member_loads;
  total_load : Q;
  total_capacity : Q;
  avg_load_percentage : Q;
  team_size : nat
}.

(** [_calculate_team_load] *)
Definition _calculate_team_load (assignments : list assignment)
    (team : list member) : option team_load :=
  match load_members team [] with
  | None => None
  | Some loads =>
    let loads := foldl count_assignment loads assignments in
    let total_load := qsum (map (fun kv => li_current_load kv.2) loads) in
    let total_capacity := qsum (map (fun kv => li_max_capacity kv.2) loads) in
    Some {| team_members := loads;
            total_load := total_load;
            total_capacity := total_capacity;
            avg_load_percentage :=
              if Qlt_bool 0 total_capacity
              then total_load / total_capacity * 100 else 0;
            team_size := length team |}
  end.

(** The warnings, as the values their texts are built from. *)
Inductive warning :=
  | Overloaded (member_name : string) (percentage : Q)
  | NearCapacity (member_name : string) (percentage : Q)
  | AvailableCapacity (member_name : string) (percentage : Q)
  | Unassigned (unassigned_count : nat)
  | SprintExceeded (total_story_points sprint_capacity : Q).

Definition overload_warning (kv : string * load_info) : option warning :=
  if Qlt_bool 90 (load_percentage kv.2)
  then Some (Overloaded kv.1 (load_percentage kv.2))
  else if Qlt_bool 80 (load_percentage kv.2)
  then Some (NearCapacity kv.1 (load_percentage kv.2))
  else None.

Definition underload_warning (kv : string * load_info) : option warning :=
  if Qlt_bool (load_percentage kv.2) 50 && Qlt_bool 0 (li_max_capacity kv.2)
  then Some (AvailableCapacity kv.1 (load_percentage kv.2))
  else None.

(** [_generate_warnings]; [sprint_capacity] is [None] or a number. *)
Definition _generate_warnings (load : team_load) (sprint_capacity : option Q)
    (assignments : list assignment) : list warning :=
  let unassigned_count :=
    length (List.filter (fun a => negb (truthy_str (assignee a))) assignments) in
  omap overload_warning (team_members load)
  ++ omap underload_warning (team_members load)
  ++ (if (0 <? unassigned_count)%nat then [Unassigned unassigned_count] else [])
  ++ match sprint_capacity with
     | Some capacity =>
       if Qeq_bool capacity 0 then []
       else
         let total_story_points := qsum (map assigned_points assignments) in
         if Qlt_bool capacity total_story_points
         then [SprintExceeded total_story_points capacity] else []
     | None => []
     end.

(** [sorted_team] holds the member objects of [team_members] in another
    order, and [_assign_stories] updates them in place.  [sorted_order]
    is the position in [team_members] of each element of [sorted_team];
    [in_own_order] lists the updated objects in the order of
    [team_members] again. *)
Definition sorted_order (team : list member) : list nat :=
  map fst (sorted (fun im : nat * member => effective_capacity im.2) true
             (imap (fun i m => (i, m)) team)).

Definition in_own_order (order : list nat) (sorted_team : list member)
    : list member :=
  map snd (sorted (fun im : nat * member => of_nat im.1) false
             (zip order sorted_team)).

Record report := {
  assignments : list assignment;
  unassigned_stories : list story;
  load : team_load;
  warnings : list warning
}.

(** [s.get("id", idx)] *)
Definition story_identifier (idx : nat) (s : story) : Z :=
  match id s with Some i => i | None => Z.of_nat idx end.

(** The stories whose identifier is not the [story_id] of an assignment
    with an assignee. *)
Definition unassigned (validated_stories : list story)
    (assignments : list assignment) : list story :=
  let assigned_story_ids :=
    map story_id (List.filter (fun a => truthy_str (assignee a)) assignments) in
  map snd
    (List.filter
       (fun is_ : nat * story =>
          negb (bool_decide (story_identifier is_.1 is_.2 ∈ assigned_story_ids)))
       (imap (fun idx s => (idx, s)) validated_stories)).

(** [execute], all four entries of its result; [None] is the
    [ZeroDivisionError] of [_calculate_team_load]. *)
Definition execute (stories : list story) (team : list member)
    (sprint_capacity : option Q) : option report :=
  let validated_stories := stories in
  let team_with_capacity := _calculate_effective_capacity team in
  let prioritized_stories := _prioritize_stories validated_stories in
  let '(assignments, sorted_team) :=
    _assign_stories prioritized_stories team_with_capacity in
  let team_with_capacity :=
    in_own_order (sorted_order team_with_capacity) sorted_team in
  match _calculate_team_load assignments team_with_capacity with
  | None => None
  | Some load =>
    Some {| assignments := assignments;
            unassigned_stories := unassigned validated_stories assignments;
            load := load;
            warnings := _generate_warnings load sprint_capacity assignments |}
  end.

End TeamLoad.

(* ===================================================================== *)
(** * The transcript route (autoscrum/transcript_agent.py) *)
(* ===================================================================== *)

Module TranscriptRoute.
Import Py Triage.

(** [analyze_transcript_json]: the project key of the payload, else its
    project, else "PROJ". *)
Definition analyze_transcript_json (hash : string -> Z)
    (extract_jira_ids : string -> list string) (tools : tool_funcs) (st : state)
    (payload_project_key payload_project : option string)
    (transcripts : list day) : state * list decision :=
  let project_key :=
    match or_str (or_str payload_project_key payload_project) (Some "PROJ") with
    | Some key => key
    | None => "PROJ"
    end in
  process hash extract_jira_ids project_key tools st transcripts.

End TranscriptRoute.

(* ===================================================================== *)
(** * Properties *)
(* ===================================================================== *)

(** ** Facts about the Python idioms *)

Module PyProps.
Import Py.
#[local] Open Scope Q_scope.

Lemma truthy_obj_nonempty (m : dict) : truthy (JObj m) = true <-> m <> ∅.
Proof.
  simpl. rewrite negb_true_iff, Nat.eqb_neq.
  split; intros H E; apply H.
  - subst m. apply map_size_empty.
  - by apply map_size_empty_iff.
Qed.

Lemma Qlt_bool_iff (a b : Q) : Qlt_bool a b = true <-> a < b.
Proof.
  unfold Qlt_bool. rewrite negb_true_iff. split.
  - intros H. apply Qnot_le_lt. intros Hle. apply Qle_bool_iff in Hle. congruence.
  - intros H. destruct (Qle_bool b a) eqn:E; [|done].
    apply Qle_bool_iff in E. exfalso. by apply (Qlt_not_le a b).
Qed.

Lemma Qlt_bool_false (a b : Q) : Qlt_bool a b = false <-> b <= a.
Proof.
  unfold Qlt_bool. rewrite negb_false_iff. apply Qle_bool_iff.
Qed.


End PyProps.

Module ClarificationProps.
Import Py PyProps Clarification.

Lemma synth_of_extended_history (l : list message) (x : message) synth :
  _generate_context_summary (l ++ [x]) synth = synth_summary synth.
Proof. destruct l; reflexivity. Qed.

Lemma summary_json_truthy o :
  truthy (summary_json o) = true ->
  exists d, o = Some d /\ summary_json o = JObj d /\ truthy (JObj d) = true.
Proof. destruct o as [d|]; [|discriminate]. intros H. by exists d. Qed.

(** What a continuing interaction that returns has written. *)
Lemma continuing_inv st i ctx reply synth out st' :
  continuing st i ctx reply synth = Ok (out, st') ->
  (exists d n,
      offered reply synth d /\ truthy (JObj d) = true /\
      truthy (out_is_complete out) = true /\ out_context_summary out = JObj d /\
      as_num (get (<["is_complete" := JBool true]>
                   (<["context_summary" := JObj d]> (d ∪ ctx)))
                  "questions_asked" (JNum 0)) = Ok n /\
      st' = set_feature_context st (feature_id i)
              (<["questions_asked" := JNum (n + 1)]>
               (<["is_complete" := JBool true]>
                (<["context_summary" := JObj d]> (d ∪ ctx)))) default_ttl)
  \/
  (exists n,
      truthy (out_is_complete out) = false /\
      as_num (get (<["is_complete" := JBool false]> ctx)
                  "questions_asked" (JNum 0)) = Ok n /\
      st' = set_feature_context st (feature_id i)
              (<["questions_asked" := JNum (n + 1)]>
               (<["is_complete" := JBool false]> ctx)) default_ttl).
Proof.
  unfold continuing.
  destruct (negb (sliceable _)); [discriminate|].
  destruct reply as [r|e]; [|discriminate]. simpl.
  destruct r as [| | | | |response]; try discriminate.
  set (ic := get response "is_complete" (JBool false)).
  set (q := get response "question" JNull).
  set (cs := get response "context_summary" JNull).
  rewrite synth_of_extended_history.
  destruct (truthy ic) eqn:Hic; simpl.
  - destruct (truthy cs) eqn:Hcs; simpl.
    + (* the reply carries a summary *)
      rewrite Hic, Hcs. simpl.
      destruct cs as [| | | | |m] eqn:Ecs; try discriminate.
      simpl. 
      destruct (as_num _) as [n|] eqn:Hn; [|discriminate]. simpl.
      intros [= <- <-]. left. exists m, n. simpl. rewrite Hic.
      repeat split; try done.
      left. unfold reply_summary. subst cs. unfold get in Ecs.
      destruct (response !! "context_summary") as [v|]; [|discriminate]. by subst v.
    + (* synthesis *)
      destruct (truthy (summary_json (synth_summary synth))) eqn:Hs; simpl.
      * apply summary_json_truthy in Hs as (d & Hd & Hj & Ht).
        rewrite Hic, Hj. simpl in Ht |- *. rewrite Ht. simpl.
        destruct (as_num _) as [n|] eqn:Hn; [|discriminate]. simpl.
        intros [= <- <-]. left. exists d, n. simpl. rewrite Hic.
        repeat split; try done. by right.
      * destruct (as_num _) as [n|] eqn:Hn; [|discriminate]. simpl.
        intros [= <- <-]. right. exists n. by simpl.
  - rewrite Hic. simpl.
    destruct (as_num _) as [n|] eqn:Hn; [|discriminate]. simpl.
    intros [= <- <-]. right. exists n. by simpl.
Qed.


(** What a first interaction that returns has written. *)
Lemma first_interaction_inv st i ctx reply out st' :
  first_interaction st i ctx reply = Ok (out, st') ->
  out_is_complete out = JBool false /\
  st' = set_feature_context st (feature_id i)
          (<["questions_asked" := JNum 1]>
           (<["feature_description" := json_opt (feature_description i)]>
            (<["feature_name" := json_opt (feature_name i)]> ctx))) default_ttl.
Proof.
  unfold first_interaction.
  destruct reply as [r|e]; [|discriminate]. simpl.
  destruct r; try discriminate.
  by intros [= <- <-].
Qed.

(** The summary that [_force_completion] settles on. *)
Lemma force_completion_inv st fid ctx history synth :
  exists d,
    _force_completion st fid ctx history synth =
      Ok ({| out_feature_id := fid; out_question := JNull;
             out_is_complete := JBool true; out_context_summary := JObj d;
             out_conversation_history := history;
             out_forced_completion := Some true |},
          set_feature_context st fid
            (<["forced_completion" := JBool true]>
             (<["is_complete" := JBool true]>
              (<["context_summary" := JObj d]> (d ∪ ctx)))) default_ttl)
    /\ truthy (JObj d) = true
    /\ (_generate_context_summary history synth = Some d
        \/ (d = minimal_summary ctx /\ has_required_keys d = true)).
Proof.
  unfold _force_completion.
  assert (Hmin : truthy (JObj (minimal_summary ctx)) = true /\
                 has_required_keys (minimal_summary ctx) = true).
  { split; [|reflexivity]. apply truthy_obj_nonempty.
    unfold minimal_summary. apply insert_non_empty. }
  destruct (_generate_context_summary history synth) as [d|] eqn:Hg.
  - destruct (truthy (JObj d)) eqn:Ht.
    + exists d. simpl. auto.
    + exists (minimal_summary ctx). simpl. split; [done|]. split; [apply Hmin|].
      right. split; [done|apply Hmin].
  - exists (minimal_summary ctx). simpl. split; [done|]. split; [apply Hmin|].
    right. split; [done|apply Hmin].
Qed.

Lemma execute_forced st i reply synth n :
  as_num (get (load_context st (feature_id i)) "questions_asked" (JNum 0)) = Ok n ->
  (5 <= n)%Z ->
  execute st i reply synth =
    _force_completion st (feature_id i) (load_context st (feature_id i))
      (conversation_history i) synth.
Proof.
  intros Hn Hle. unfold execute. rewrite Hn. simpl.
  destruct (5 <=? n)%Z eqn:E; [done|]. apply Z.leb_gt in E. lia.
Qed.

(** The three ways in which [execute] returns. *)
Lemma execute_inv st i reply synth out st' :
  execute st i reply synth = Ok (out, st') ->
  exists n,
    as_num (get (load_context st (feature_id i)) "questions_asked" (JNum 0)) = Ok n /\
    (((5 <= n)%Z /\
      _force_completion st (feature_id i) (load_context st (feature_id i))
        (conversation_history i) synth = Ok (out, st'))
     \/ ((n < 5)%Z /\ conversation_history i = [] /\
         first_interaction st i (load_context st (feature_id i)) reply = Ok (out, st'))
     \/ ((n < 5)%Z /\ conversation_history i <> [] /\
         continuing st i (load_context st (feature_id i)) reply synth = Ok (out, st'))).
Proof.
  unfold execute.
  destruct (as_num _) as [n|] eqn:Hn; [|discriminate]. simpl.
  intros H. exists n. split; [done|].
  destruct (5 <=? n)%Z eqn:E.
  - apply Z.leb_le in E. by left.
  - apply Z.leb_gt in E. right.
    destruct (conversation_history i) eqn:Hh; [left|right]; done.
Qed.


(** ** The counter *)

Definition counter_of (ctx : dict) : option Z :=
  match ctx !! "questions_asked" with
  | Some (JNum n) => Some n
  | Some _ => None
  | None => Some 0%Z
  end.

Lemma counter_set_same (st : store) fid ctx t :
  counter (set_feature_context st fid ctx t) fid = counter_of ctx.
Proof.
  unfold counter, get_feature_context, set_feature_context.
  by rewrite lookup_insert_eq.
Qed.

Lemma counter_set_other (st : store) f fid ctx t :
  f <> fid -> counter (set_feature_context st f ctx t) fid = counter st fid.
Proof.
  intros Hne. unfold counter, get_feature_context, set_feature_context.
  by rewrite lookup_insert_ne.
Qed.

Lemma counter_load (st : store) fid :
  counter st fid = counter_of (load_context st fid).
Proof.
  unfold counter, load_context.
  destruct (get_feature_context st fid) as [c|]; [|done].
  destruct (truthy (JObj c)) eqn:Ht; [done|].
  simpl in Ht. apply negb_false_iff, Nat.eqb_eq, map_size_empty_iff in Ht.
  by subst c.
Qed.

Lemma counter_of_num ctx n :
  counter_of ctx = Some n -> get ctx "questions_asked" (JNum 0) = JNum n.
Proof.
  unfold counter_of, get.
  destruct (ctx !! "questions_asked") as [[]|]; congruence.
Qed.

Lemma counter_of_insert ctx n :
  counter_of (<["questions_asked" := JNum n]> ctx) = Some n.
Proof. unfold counter_of. by rewrite lookup_insert_eq. Qed.

(** Merging a summary without the counter's key, and writing the other
    keys of the agent, leaves the counter as it is. *)
Lemma counter_of_merge (d ctx : dict) k1 k2 v1 v2 :
  d !! "questions_asked" = None ->
  k1 <> "questions_asked" -> k2 <> "questions_asked" ->
  counter_of (<[k1 := v1]> (<[k2 := v2]> (d ∪ ctx))) = counter_of ctx.
Proof.
  intros Hd H1 H2. unfold counter_of.
  rewrite !lookup_insert_ne by done.
  rewrite lookup_union_r by done. done.
Qed.

Lemma minimal_summary_keeps_counter ctx :
  minimal_summary ctx !! "questions_asked" = None.
Proof. reflexivity. Qed.

Lemma step_bounded st c fid :
  keeps_counter c -> bounded st fid -> bounded (step st c) fid.
Proof.
  intros [_ Hk] (n0 & Hc & Hle). unfold step.
  destruct (execute st (c_input c) (c_reply c) (c_synth c)) as [[out st']|] eqn:He;
    [|by exists n0].
  destruct (decide (feature_id (c_input c) = fid)) as [Heq|Hne]; last first.
  { apply execute_inv in He as (n & Hn & [(_ & H)|[(_ & _ & H)|(_ & _ & H)]]).
    - destruct (force_completion_inv st (feature_id (c_input c))
                  (load_context st (feature_id (c_input c)))
                  (conversation_history (c_input c)) (c_synth c)) as (d & Hf & _).
      rewrite Hf in H. injection H as _ <-.
      exists n0. by rewrite counter_set_other.
    - apply first_interaction_inv in H as (_ & ->).
      exists n0. by rewrite counter_set_other.
    - apply continuing_inv in H as [(d & m & _ & _ & _ & _ & _ & ->)|(m & _ & _ & ->)];
        exists n0; by rewrite counter_set_other. }
  subst fid. set (fid := feature_id (c_input c)) in *.
  rewrite counter_load in Hc. pose proof (counter_of_num _ _ Hc) as Hget.
  apply execute_inv in He as (n & Hn & Hcases).
  fold fid in Hn, Hcases. rewrite Hget in Hn. injection Hn as <-.
  destruct Hcases as [(H5 & H)|[(_ & _ & H)|(Hlt & _ & H)]].
  - (* forced completion: the counter is left as it is *)
    destruct (force_completion_inv st fid (load_context st fid)
                (conversation_history (c_input c)) (c_synth c)) as (d & Hf & _ & Hd).
    rewrite Hf in H. injection H as _ <-.
    exists n0. split; [|done]. rewrite counter_set_same.
    unfold counter_of. rewrite lookup_insert_ne by done.
    fold (counter_of (<["is_complete" := JBool true]>
            (<["context_summary" := JObj d]> (d ∪ load_context st fid)))).
    rewrite counter_of_merge; try done.
    destruct Hd as [Hd|[-> _]]; [|apply minimal_summary_keeps_counter].
    apply Hk. right. unfold synth_summary.
    destruct (conversation_history (c_input c)); [discriminate|exact Hd].
  - (* first interaction: the counter is 1 *)
    apply first_interaction_inv in H as (_ & ->).
    exists 1%Z. rewrite counter_set_same, counter_of_insert. split; [done|lia].
  - (* continuing interaction below 5: one more *)
    apply continuing_inv in H as [(d & m & Hoff & _ & _ & _ & Hm & ->)|(m & _ & Hm & ->)].
    + assert (Hc' : counter_of (<["is_complete" := JBool true]>
                      (<["context_summary" := JObj d]> (d ∪ load_context st fid))) = Some n0).
      { rewrite counter_of_merge; try done. by apply Hk. }
      apply counter_of_num in Hc'. rewrite Hc' in Hm. injection Hm as <-.
      exists (n0 + 1)%Z. rewrite counter_set_same, counter_of_insert. split; [done|lia].
    + assert (Hc' : counter_of (<["is_complete" := JBool false]> (load_context st fid)) = Some n0).
      { unfold counter_of. rewrite lookup_insert_ne by done. exact Hc. }
      apply counter_of_num in Hc'. rewrite Hc' in Hm. injection Hm as <-.
      exists (n0 + 1)%Z. rewrite counter_set_same, counter_of_insert. split; [done|lia].
Qed.

Lemma run_bounded calls : forall st fid,
  bounded st fid -> Forall keeps_counter calls -> bounded (run st calls) fid.
Proof.
  induction calls as [|c calls IH]; intros st fid Hb Hk; [exact Hb|].
  inversion Hk as [|? ? Hc Hcs]; subst.
  simpl. apply IH; [|done]. by apply step_bounded.
Qed.


(** ** The completion flag and the stored summary *)

Lemma load_context_stored (st : store) fid : load_context st fid = stored st fid.
Proof.
  unfold load_context, stored.
  destruct (get_feature_context st fid) as [c|]; [|done].
  destruct (truthy (JObj c)) eqn:Ht; [done|].
  simpl in Ht. apply negb_false_iff, Nat.eqb_eq, map_size_empty_iff in Ht.
  by subst c.
Qed.

Lemma stored_set_same (st : store) fid ctx t :
  stored (set_feature_context st fid ctx t) fid = ctx.
Proof.
  unfold stored, get_feature_context, set_feature_context.
  by rewrite lookup_insert_eq.
Qed.

Lemma stored_set_other (st : store) f fid ctx t :
  f <> fid -> stored (set_feature_context st f ctx t) fid = stored st fid.
Proof.
  intros Hne. unfold stored, get_feature_context, set_feature_context.
  by rewrite lookup_insert_ne.
Qed.

Lemma has_required_keys_minimal ctx : has_required_keys (minimal_summary ctx) = true.
Proof. reflexivity. Qed.

Lemma step_complete_implies (P : json -> Prop) st c fid :
  (forall d, truthy (JObj d) = true ->
             offered (c_reply c) (c_synth c) d \/ d = minimal_summary (stored st fid) ->
             P (JObj d)) ->
  complete_implies P (stored st fid) ->
  complete_implies P (stored (step st c) fid).
Proof.
  intros HP Hinv. unfold step.
  destruct (execute st (c_input c) (c_reply c) (c_synth c)) as [[out st']|] eqn:He;
    [|done].
  destruct (decide (feature_id (c_input c) = fid)) as [Heq|Hne]; last first.
  { apply execute_inv in He as (n & Hn & [(_ & H)|[(_ & _ & H)|(_ & _ & H)]]).
    - destruct (force_completion_inv st (feature_id (c_input c))
                  (load_context st (feature_id (c_input c)))
                  (conversation_history (c_input c)) (c_synth c)) as (d & Hf & _).
      rewrite Hf in H. injection H as _ <-. by rewrite stored_set_other.
    - apply first_interaction_inv in H as (_ & ->). by rewrite stored_set_other.
    - apply continuing_inv in H as [(d & m & _ & _ & _ & _ & _ & ->)|(m & _ & _ & ->)];
        by rewrite stored_set_other. }
  subst fid. set (fid := feature_id (c_input c)) in *.
  apply execute_inv in He as (n & Hn & Hcases). fold fid in Hn, Hcases.
  rewrite load_context_stored in Hcases.
  destruct Hcases as [(_ & H)|[(_ & _ & H)|(_ & _ & H)]].
  - destruct (force_completion_inv st fid (stored st fid)
                (conversation_history (c_input c)) (c_synth c)) as (d & Hf & Ht & Hd).
    rewrite Hf in H. injection H as _ <-. rewrite stored_set_same.
    intros _. exists (JObj d). split.
    { rewrite !lookup_insert_ne by done. by rewrite lookup_insert_eq. }
    apply HP; [done|].
    destruct Hd as [Hd|[-> _]]; [left; right|by right].
    unfold synth_summary.
    destruct (conversation_history (c_input c)); [discriminate|exact Hd].
  - apply first_interaction_inv in H as (_ & ->). rewrite stored_set_same.
    intros Hflag. rewrite !lookup_insert_ne in Hflag by done.
    destruct (Hinv Hflag) as (j & Hj & HPj). exists j. split; [|done].
    by rewrite !lookup_insert_ne.
  - apply continuing_inv in H as [(d & m & Hoff & Ht & _ & _ & _ & ->)|(m & _ & _ & ->)];
      rewrite stored_set_same.
    + intros _. exists (JObj d). split.
      { rewrite !lookup_insert_ne by done. by rewrite lookup_insert_eq. }
      apply HP; [done|by left].
    + intros Hflag. rewrite lookup_insert_ne in Hflag by done.
      rewrite lookup_insert_eq in Hflag. discriminate.
Qed.

Lemma run_complete_truthy calls : forall st fid,
  complete_implies (fun j => truthy j = true) (stored st fid) ->
  complete_implies (fun j => truthy j = true) (stored (run st calls) fid).
Proof.
  induction calls as [|c calls IH]; intros st fid Hinv; [exact Hinv|].
  simpl. apply IH. apply step_complete_implies; [|done].
  intros d Ht _. exact Ht.
Qed.

Lemma run_complete_full calls : forall st fid,
  Forall sends_full_summaries calls ->
  complete_implies full_summary (stored st fid) ->
  complete_implies full_summary (stored (run st calls) fid).
Proof.
  induction calls as [|c calls IH]; intros st fid Hs Hinv; [exact Hinv|].
  inversion Hs as [|? ? [_ Hc] Hcs]; subst.
  simpl. apply IH; [done|]. apply step_complete_implies; [|done].
  intros d Ht [Hoff|Hd]; exists d; split; try done.
  - by apply Hc.
  - subst d. apply has_required_keys_minimal.
Qed.

(** ** Concrete calls *)

Definition login_first : input :=
  {| feature_id := 1; feature_name := Some "Login";
     feature_description := Some "Users sign in with e-mail";
     user_response := None; conversation_history := [] |}.

Definition login_answer : input :=
  {| feature_id := 1; feature_name := None; feature_description := None;
     user_response := Some "Customers";
     conversation_history :=
       [ {| role := "user"; content := JStr "Feature: Login" |};
         {| role := "assistant"; content := JStr "Who signs in?" |} ] |}.

Definition asks : llm_reply :=
  Ok (JObj {[ "question" := JStr "Who signs in?"; "is_complete" := JBool false ]}).

Definition partial_summary : dict := {[ "goals" := JArr [JStr "sign in"] ]}.

Definition completes_partially : llm_reply :=
  Ok (JObj {[ "is_complete" := JBool true; "context_summary" := JObj partial_summary ]}).

Definition completes_with_counter : llm_reply :=
  Ok (JObj {[ "is_complete" := JBool true;
              "context_summary" := JObj {[ "questions_asked" := JNum 9 ]} ]}).

Definition full_reply_summary : dict :=
  {[ "goals" := JArr [JStr "sign in"]; "user_personas" := JArr [JStr "customer"];
     "key_features" := JArr [JStr "form"]; "acceptance_criteria" := JArr [JStr "works"];
     "technical_constraints" := JArr [JStr "none"]; "success_metrics" := JArr [JStr "logins"] ]}.

Definition completes_fully : llm_reply :=
  Ok (JObj {[ "is_complete" := JBool true; "context_summary" := JObj full_reply_summary ]}).

Definition no_reply : llm_reply := Raise ReasoningError.

Definition at_limit : store :=
  set_feature_context ∅ 1 {[ "feature_name" := JStr "Login"; "questions_asked" := JNum 5 ]}
    default_ttl.


Definition first_call : call :=
  {| c_input := login_first; c_reply := asks; c_synth := no_reply |}.
Definition full_call : call :=
  {| c_input := login_answer; c_reply := completes_fully; c_synth := no_reply |}.
Definition partial_call : call :=
  {| c_input := login_answer; c_reply := completes_partially; c_synth := no_reply |}.
Definition counter_call : call :=
  {| c_input := login_answer; c_reply := completes_with_counter; c_synth := no_reply |}.

Lemma first_call_offers_nothing d :
  ~ offered (c_reply first_call) (c_synth first_call) d.
Proof.
  assert (Hr : reply_summary (c_reply first_call) = None) by (vm_compute; reflexivity).
  intros [H|H]; [|discriminate]. rewrite Hr in H. discriminate.
Qed.

Lemma first_call_no_array : summary_no_array (c_reply first_call).
Proof. by vm_compute. Qed.

Lemma full_call_no_array : summary_no_array (c_reply full_call).
Proof. by vm_compute. Qed.

Lemma first_call_keeps_counter : keeps_counter first_call.
Proof.
  split; [exact first_call_no_array|].
  intros d H. by apply first_call_offers_nothing in H.
Qed.

Lemma full_call_offers d :
  offered (c_reply full_call) (c_synth full_call) d -> d = full_reply_summary.
Proof.
  assert (Hr : reply_summary (c_reply full_call) = Some full_reply_summary)
    by (vm_compute; reflexivity).
  intros [H|H]; [|discriminate]. rewrite Hr in H. by injection H as <-.
Qed.

Lemma full_call_keeps_counter : keeps_counter full_call.
Proof.
  split; [exact full_call_no_array|].
  intros d ->%full_call_offers. vm_compute. reflexivity.
Qed.

Lemma first_call_full : sends_full_summaries first_call.
Proof.
  split; [exact first_call_no_array|].
  intros d H _. by apply first_call_offers_nothing in H.
Qed.

Lemma full_call_full : sends_full_summaries full_call.
Proof.
  split; [exact full_call_no_array|].
  intros d ->%full_call_offers _. vm_compute. reflexivity.
Qed.

(** ** C1 *)

(** C1, as stated, fails twice.  A call that arrives with the counter at
    5 is forced to completion with whatever non-empty object the
    reasoning service synthesises, here one with a single key, so the
    returned summary lacks required keys; and a decision whose summary
    carries a [questions_asked] key overwrites the counter, which then
    exceeds 5. *)
Lemma c1_counterexample :
  (exists out st',
      execute at_limit login_answer asks (Ok (JObj partial_summary)) = Ok (out, st')
      /\ out_forced_completion out = Some true
      /\ out_context_summary out = JObj partial_summary
      /\ has_required_keys partial_summary = false)
  /\ counter (run ∅ [first_call; counter_call]) 1 = Some 10%Z.
Proof.
  split; [|vm_compute; reflexivity].
  eexists _, _. split; [vm_compute; reflexivity|].
  repeat split; reflexivity.
Qed.

(** C1 (amended).  Along every sequence of calls whose summaries are
    objects without a [questions_asked] key, a counter that does not
    exceed 5 never comes to exceed 5.  A call that finds the counter at 5
    or more is forced to completion whatever the reasoning service
    answers to the question prompt: it returns [is_complete = True],
    [forced_completion = True], no question, and a non-empty summary that
    is either the one synthesised from the history, taken as it came, or
    the minimal default, which has the six required keys. *)
Theorem c1_counter_bounded_and_forced_completion :
  (forall (st : store) (calls : list call) (fid : Z),
      bounded st fid -> Forall keeps_counter calls ->
      bounded (run st calls) fid)
  /\
  (forall (st : store) (i : input) (reply synth : llm_reply) (n : Z),
      as_num (get (load_context st (feature_id i)) "questions_asked" (JNum 0)) = Ok n ->
      (5 <= n)%Z ->
      exists d st',
        execute st i reply synth =
          Ok ({| out_feature_id := feature_id i; out_question := JNull;
                 out_is_complete := JBool true; out_context_summary := JObj d;
                 out_conversation_history := conversation_history i;
                 out_forced_completion := Some true |}, st')
        /\ truthy (JObj d) = true
        /\ (_generate_context_summary (conversation_history i) synth = Some d
            \/ (d = minimal_summary (load_context st (feature_id i))
                /\ has_required_keys d = true))
        /\ (forall reply', execute st i reply' synth = execute st i reply synth)).
Proof.
  split.
  - intros st calls fid Hb Hk. by apply run_bounded.
  - intros st i reply synth n Hn Hle.
    destruct (force_completion_inv st (feature_id i) (load_context st (feature_id i))
                (conversation_history i) synth) as (d & Hf & Ht & Hd).
    exists d. eexists. split; [|split; [exact Ht|split; [exact Hd|]]].
    + rewrite (execute_forced _ _ _ _ n Hn Hle). exact Hf.
    + intros reply'. by rewrite !(execute_forced _ _ _ _ n Hn Hle).
Qed.

(** C1 at work: a first call and an answer that completes leave the
    counter of feature 1 bounded, and a call that finds the counter at 5
    is forced to completion with the minimal summary. *)
Lemma c1_counter_bounded_and_forced_completion_witness :
  bounded (run ∅ [first_call; full_call]) 1
  /\ exists d st',
       execute at_limit login_answer asks no_reply =
         Ok ({| out_feature_id := 1; out_question := JNull;
                out_is_complete := JBool true; out_context_summary := JObj d;
                out_conversation_history := conversation_history login_answer;
                out_forced_completion := Some true |}, st')
       /\ truthy (JObj d) = true
       /\ (_generate_context_summary (conversation_history login_answer) no_reply = Some d
           \/ (d = minimal_summary (load_context at_limit 1)
               /\ has_required_keys d = true))
       /\ (forall reply', execute at_limit login_answer reply' no_reply =
                          execute at_limit login_answer asks no_reply).
Proof.
  split.
  - apply (proj1 c1_counter_bounded_and_forced_completion).
    + exists 0%Z. split; [reflexivity|lia].
    + constructor; [exact first_call_keeps_counter|].
      constructor; [exact full_call_keeps_counter|]. constructor.
  - apply (proj2 c1_counter_bounded_and_forced_completion
             at_limit login_answer asks no_reply 5%Z); [reflexivity|lia].
Defined.

(** ** C4 *)

(** C4, as stated, fails: the reasoning service signals completion with
    a summary of one key; the flag is stored as true and the stored
    summary lacks five of the required keys. *)
Lemma c4_counterexample :
  stored (run ∅ [first_call; partial_call]) 1 !! "is_complete" = Some (JBool true)
  /\ stored (run ∅ [first_call; partial_call]) 1 !! "context_summary"
       = Some (JObj partial_summary)
  /\ has_required_keys partial_summary = false.
Proof. repeat split; vm_compute; reflexivity. Qed.

(** C4 (amended).  Along every sequence of calls, a stored completion
    flag that is true comes with a stored summary that is non-empty; the
    summary has the six required keys provided every non-empty summary
    that the reasoning service supplied is an object that has them (the
    agent does not check, and the minimal default has them). *)
Theorem c4_completion_flag_comes_with_summary :
  forall (st : store) (calls : list call) (fid : Z),
    (complete_implies (fun j => truthy j = true) (stored st fid) ->
     complete_implies (fun j => truthy j = true) (stored (run st calls) fid))
    /\
    (complete_implies full_summary (stored st fid) ->
     Forall sends_full_summaries calls ->
     complete_implies full_summary (stored (run st calls) fid)).
Proof.
  intros st calls fid. split.
  - apply run_complete_truthy.
  - intros Hinv Hs. by apply run_complete_full.
Qed.

(** C4 at work: after a first call and an answer that completes with a
    full summary, the flag is stored and the stored summary has the six
    keys. *)
Lemma c4_completion_flag_comes_with_summary_witness :
  stored (run ∅ [first_call; full_call]) 1 !! "is_complete" = Some (JBool true)
  /\ (exists j, stored (run ∅ [first_call; full_call]) 1 !! "context_summary" = Some j
                /\ truthy j = true)
  /\ (exists j, stored (run ∅ [first_call; full_call]) 1 !! "context_summary" = Some j
                /\ full_summary j).
Proof.
  assert (Hflag : stored (run ∅ [first_call; full_call]) 1 !! "is_complete"
                  = Some (JBool true)) by (vm_compute; reflexivity).
  split; [exact Hflag|]. split.
  - apply (proj1 (c4_completion_flag_comes_with_summary ∅ [first_call; full_call] 1));
      [|exact Hflag].
    intros H. vm_compute in H. discriminate.
  - apply (proj2 (c4_completion_flag_comes_with_summary ∅ [first_call; full_call] 1));
      [| |exact Hflag].
    + intros H. vm_compute in H. discriminate.
    + constructor; [exact first_call_full|].
      constructor; [exact full_call_full|]. constructor.
Defined.

(** ** C9 *)




End ClarificationProps.

Module StoryGenProps.
Import Py PyProps StoryGen.

(** ** The precondition of story generation *)

Definition flagged (ctx : dict) : Prop :=
  truthy (get ctx "is_complete" (JBool false)) = true.

Definition nested_summary (ctx : dict) (m : dict) : Prop :=
  ctx !! "context_summary" = Some (JObj m) /\ m <> ∅.

Definition has_all_keys (ctx : dict) : Prop :=
  forall k, k ∈ required_keys -> is_Some (ctx !! k).

Lemma has_all_keys_forallb ctx :
  forallb (has_key ctx) required_keys = true <-> has_all_keys ctx.
Proof.
  rewrite forallb_forall. unfold has_all_keys, has_key.
  split; intros H k Hk.
  - apply list_elem_of_In in Hk. specialize (H k Hk).
    destruct (ctx !! k); [eauto|discriminate].
  - apply list_elem_of_In in Hk. destruct (H k Hk) as [v ->]. done.
Qed.

Lemma flagged_nonempty ctx : flagged ctx -> truthy (JObj ctx) = true.
Proof.
  intros Hf. apply truthy_obj_nonempty. intros ->.
  unfold flagged, get in Hf. rewrite lookup_empty in Hf. discriminate.
Qed.

Lemma nested_nonempty ctx m : nested_summary ctx m -> truthy (JObj ctx) = true.
Proof.
  intros [Hm _]. apply truthy_obj_nonempty. intros ->. by rewrite lookup_empty in Hm.
Qed.

Lemma all_keys_nonempty ctx : has_all_keys ctx -> truthy (JObj ctx) = true.
Proof.
  intros H. apply truthy_obj_nonempty. intros ->.
  destruct (H "goals") as [v Hv]; [set_solver|]. by rewrite lookup_empty in Hv.
Qed.

#[local] Arguments truthy : simpl never.

Lemma checked_flagged ctx fid :
  flagged ctx -> checked_context (Some ctx) fid = Ok ctx.
Proof.
  intros Hf. unfold checked_context.
  rewrite (flagged_nonempty _ Hf). cbn [negb]. unfold flagged in Hf. by rewrite Hf.
Qed.

Lemma checked_nested ctx m fid :
  ~ flagged ctx -> nested_summary ctx m ->
  checked_context (Some ctx) fid = Ok (<["is_complete" := JBool true]> (m ∪ ctx)).
Proof.
  intros Hf Hn. unfold checked_context.
  rewrite (nested_nonempty _ _ Hn). cbn [negb].
  unfold flagged in Hf. apply not_true_is_false in Hf. rewrite Hf. cbn [negb].
  destruct Hn as [Hm Hne]. unfold get at 1. rewrite Hm.
  apply truthy_obj_nonempty in Hne. by rewrite Hne.
Qed.

Lemma checked_all_keys ctx fid :
  ~ flagged ctx -> (forall m, ~ nested_summary ctx m) -> has_all_keys ctx ->
  checked_context (Some ctx) fid = Ok (<["is_complete" := JBool true]> ctx).
Proof.
  intros Hf Hn Hk. unfold checked_context.
  rewrite (all_keys_nonempty _ Hk). cbn [negb].
  unfold flagged in Hf. apply not_true_is_false in Hf. rewrite Hf. cbn [negb].
  apply has_all_keys_forallb in Hk. rewrite Hk.
  unfold get at 1.
  destruct (ctx !! "context_summary") as [[| | | | |m]|] eqn:Hm; try done.
  destruct (truthy (JObj m)) eqn:Ht; [|done].
  exfalso. apply (Hn m). split; [done|]. by apply truthy_obj_nonempty.
Qed.

Lemma checked_rejected ctx fid :
  ~ flagged ctx -> (forall m, ~ nested_summary ctx m) -> ~ has_all_keys ctx ->
  exists msg, checked_context (Some ctx) fid = Raise (ValueError msg).
Proof.
  intros Hf Hn Hk. unfold checked_context.
  destruct (negb (truthy (JObj ctx))); [eauto|].
  unfold flagged in Hf. apply not_true_is_false in Hf. rewrite Hf. cbn [negb].
  rewrite <- has_all_keys_forallb in Hk. apply not_true_is_false in Hk. rewrite Hk.
  unfold get at 1.
  destruct (ctx !! "context_summary") as [[| | | | |m]|] eqn:Hm; eauto.
  destruct (truthy (JObj m)) eqn:Ht; [|eauto].
  exfalso. apply (Hn m). split; [done|]. by apply truthy_obj_nonempty.
Qed.


(** ** Stored contexts used below *)

Definition with_context (ctx : dict) : Clarification.store :=
  Clarification.set_feature_context ∅ 1 ctx 3600.

Definition flagged_context : dict :=
  {[ "feature_name" := JStr "Login"; "is_complete" := JBool true ]}.

Definition legacy_nested : dict := {[ "goals" := JArr [JStr "sign in"] ]}.

Definition legacy_context : dict :=
  {[ "feature_name" := JStr "Login"; "context_summary" := JObj legacy_nested ]}.

Definition six_key_context : dict :=
  {[ "goals" := JArr []; "user_personas" := JArr []; "key_features" := JArr [];
     "acceptance_criteria" := JArr []; "technical_constraints" := JArr [];
     "success_metrics" := JArr [] ]}.

Definition asking_context : dict :=
  {[ "feature_name" := JStr "Login"; "is_complete" := JBool false;
     "questions_asked" := JNum 2 ]}.

Definition two_stories : result json :=
  Ok (JObj {[ "stories" :=
      JArr [ JObj {[ "title" := JStr "Sign in"; "story_points" := JNum 5;
                     "priority" := JStr "high" ]};
             JObj {[ "title" := JStr "Sign out" ]} ] ]}).

(** ** C8 *)

(** C8.  A stored context whose completion flag is true is handed to
    [execute] as it is.  Without the flag, a context with a non-empty
    nested summary object is back-filled from it, and otherwise a context
    that has the six required keys is accepted; both are marked
    complete.  Every other context, and a missing one, makes
    [generate_from_feature_id] raise [ValueError] whatever the reasoning
    service would answer, so no story is generated. *)
Theorem c8_generation_precondition :
  forall (st : Clarification.store) (fid : Z) (generate_epic : bool)
         (reply : result json),
    (forall ctx,
        Clarification.get_feature_context st fid = Some ctx -> flagged ctx ->
        checked_context (Some ctx) fid = Ok ctx /\
        generate_from_feature_id st fid generate_epic reply
          = execute fid ctx generate_epic reply)
    /\ (forall ctx m,
        Clarification.get_feature_context st fid = Some ctx ->
        ~ flagged ctx -> nested_summary ctx m ->
        generate_from_feature_id st fid generate_epic reply
          = execute fid (<["is_complete" := JBool true]> (m ∪ ctx)) generate_epic reply)
    /\ (forall ctx,
        Clarification.get_feature_context st fid = Some ctx ->
        ~ flagged ctx -> (forall m, ~ nested_summary ctx m) -> has_all_keys ctx ->
        generate_from_feature_id st fid generate_epic reply
          = execute fid (<["is_complete" := JBool true]> ctx) generate_epic reply)
    /\ (Clarification.get_feature_context st fid = None \/
        (exists ctx,
            Clarification.get_feature_context st fid = Some ctx /\
            ~ flagged ctx /\ (forall m, ~ nested_summary ctx m) /\ ~ has_all_keys ctx) ->
        exists msg,
          generate_from_feature_id st fid generate_epic reply = Raise (ValueError msg)).
Proof.
  intros st fid ge reply. unfold generate_from_feature_id.
  split; [|split; [|split]].
  - intros ctx -> Hf. rewrite (checked_flagged _ _ Hf). by split.
  - intros ctx m -> Hf Hn. by rewrite (checked_nested _ _ _ Hf Hn).
  - intros ctx -> Hf Hn Hk. by rewrite (checked_all_keys _ _ Hf Hn Hk).
  - intros [->|(ctx & -> & Hf & Hn & Hk)].
    + eexists. reflexivity.
    + destruct (checked_rejected ctx fid Hf Hn Hk) as [msg ->]. by exists msg.
Qed.

Lemma asking_context_unflagged : ~ flagged asking_context.
Proof. intros H. vm_compute in H. discriminate. Qed.

Lemma asking_context_no_nested : forall m, ~ nested_summary asking_context m.
Proof. intros m [H _]. vm_compute in H. discriminate. Qed.

Lemma asking_context_lacks_keys : ~ has_all_keys asking_context.
Proof.
  intros H. apply has_all_keys_forallb in H. vm_compute in H. discriminate.
Qed.

(** C8 at work on four stored contexts: flagged, with a nested summary,
    with the six keys, and still asking. *)
Lemma c8_generation_precondition_witness :
  (checked_context (Some flagged_context) 1 = Ok flagged_context /\
   generate_from_feature_id (with_context flagged_context) 1 true two_stories
     = execute 1 flagged_context true two_stories)
  /\ generate_from_feature_id (with_context legacy_context) 1 true two_stories
     = execute 1 (<["is_complete" := JBool true]> (legacy_nested ∪ legacy_context))
         true two_stories
  /\ generate_from_feature_id (with_context six_key_context) 1 true two_stories
     = execute 1 (<["is_complete" := JBool true]> six_key_context) true two_stories
  /\ (exists msg,
        generate_from_feature_id (with_context asking_context) 1 true two_stories
          = Raise (ValueError msg)).
Proof.
  split; [|split; [|split]].
  - apply (proj1 (c8_generation_precondition
                    (with_context flagged_context) 1 true two_stories));
      reflexivity.
  - apply (proj1 (proj2 (c8_generation_precondition
                    (with_context legacy_context) 1 true two_stories))).
    + reflexivity.
    + intros H. vm_compute in H. discriminate.
    + split; [vm_compute; reflexivity|]. apply truthy_obj_nonempty. vm_compute. reflexivity.
  - apply (proj1 (proj2 (proj2 (c8_generation_precondition
                    (with_context six_key_context) 1 true two_stories)))).
    + reflexivity.
    + intros H. vm_compute in H. discriminate.
    + intros m [H _]. vm_compute in H. discriminate.
    + apply has_all_keys_forallb. reflexivity.
  - apply (proj2 (proj2 (proj2 (c8_generation_precondition
                    (with_context asking_context) 1 true two_stories)))).
    right. exists asking_context. split; [reflexivity|].
    split; [exact asking_context_unflagged|].
    split; [exact asking_context_no_nested|exact asking_context_lacks_keys].
Defined.

(** ** C10 *)

(** The sum of the [story_points] of the stories that are returned. *)
Fixpoint sum_values (l : list json) : result Z :=
  match l with
  | [] => Ok 0%Z
  | j :: l' => n <- as_num j ;; rest <- sum_values l' ;; Ok (n + rest)%Z
  end.

Definition returned_points (fs : list formatted_story) : result Z :=
  sum_values (story_points <$> fs).

(** The number of response stories without a [story_points] key. *)
Definition missing_points (raw : list dict) : Z :=
  Z.of_nat (length (filter (fun s => has_key s "story_points" = false) raw)).

Lemma sum_points_cons (story : dict) (l : list json) :
  sum_points (JObj story :: l)
  = (n <- as_num (get story "story_points" (JNum 0)) ;;
     rest <- sum_points l ;; Ok (n + rest)%Z).
Proof. reflexivity. Qed.

Lemma sum_points_dicts l n : sum_points l = Ok n -> l = JObj <$> as_dicts l.
Proof.
  revert n. induction l as [|j l IH]; intros n H; [done|].
  destruct j as [| | | | |story]; try discriminate.
  rewrite sum_points_cons in H.
  destruct (as_num (get story "story_points" (JNum 0))); [|discriminate].
  cbn [bind] in H.
  destruct (sum_points l) as [r|] eqn:Hr; [|discriminate].
  cbn [as_dicts]. rewrite fmap_cons. f_equal. by apply (IH r).
Qed.

Lemma as_dicts_fmap (raw : list dict) : as_dicts (JObj <$> raw) = raw.
Proof.
  induction raw as [|s raw IH]; [done|].
  rewrite fmap_cons. cbn [as_dicts]. by rewrite IH.
Qed.

Lemma story_points_formatted (raw : list dict) :
  story_points <$> imap format_story raw
    = (fun s => get s "story_points" (JNum 3)) <$> raw.
Proof. rewrite fmap_imap. apply imap_const. Qed.

Lemma as_num_default (s : dict) (k : Z) :
  as_num (get s "story_points" (JNum 0)) = Ok k ->
  as_num (get s "story_points" (JNum 3))
  = Ok (if has_key s "story_points" then k else (k + 3)%Z).
Proof.
  unfold get, has_key. destruct (s !! "story_points") as [v|]; [done|].
  by intros [= <-].
Qed.

Lemma sum_values_defaults (raw : list dict) n :
  sum_points (JObj <$> raw) = Ok n ->
  sum_values ((fun s => get s "story_points" (JNum 3)) <$> raw)
    = Ok (n + 3 * missing_points raw)%Z.
Proof.
  revert n. induction raw as [|s raw IH]; intros n H.
  - injection H as <-. reflexivity.
  - rewrite fmap_cons, sum_points_cons in H.
    destruct (as_num (get s "story_points" (JNum 0))) as [k|] eqn:Hk; [|discriminate].
    cbn [bind] in H.
    destruct (sum_points (JObj <$> raw)) as [r|] eqn:Hr; [|discriminate].
    injection H as <-.
    rewrite fmap_cons. cbn [sum_values].
    rewrite (as_num_default _ _ Hk), (IH r eq_refl). cbn [bind].
    unfold missing_points. rewrite filter_cons.
    destruct (has_key s "story_points").
    + rewrite decide_False by done. f_equal. lia.
    + rewrite decide_True by done. f_equal. cbn [length]. lia.
Qed.

Lemma missing_points_zero (raw : list dict) :
  missing_points raw = 0%Z <-> Forall (fun s => has_key s "story_points" = true) raw.
Proof.
  unfold missing_points. induction raw as [|s raw IH].
  - split; [constructor|done].
  - rewrite filter_cons. destruct (has_key s "story_points") eqn:Hs.
    + rewrite decide_False by done. rewrite IH. split.
      * by constructor.
      * by inversion 1.
    + rewrite decide_True by done. split; [cbn [length]; lia|].
      inversion 1; congruence.
Qed.

(** A response as the prompt asks for it: an array of story objects whose
    [story_points], where present, are numbers. *)
Definition well_shaped (response : dict) (raw : list dict) : Prop :=
  get response "stories" (JArr []) = JArr (JObj <$> raw) /\
  Forall (fun s => exists n, as_num (get s "story_points" (JNum 0)) = Ok n) raw.

Lemma sum_points_total (raw : list dict) :
  Forall (fun s => exists n, as_num (get s "story_points" (JNum 0)) = Ok n) raw ->
  exists n, sum_points (JObj <$> raw) = Ok n.
Proof.
  induction 1 as [|s raw [k Hk] _ [r Hr]]; [by exists 0%Z|].
  exists (k + r)%Z. rewrite fmap_cons, sum_points_cons. by rewrite Hk, Hr.
Qed.


(** C10.  From a response that [execute] works through, one formatted
    story is returned per response story, in order, numbered from 1, with
    [story_points] 3 and [priority] "medium" where the response has none;
    [total_story_points] adds the response's own [story_points], a missing
    one as 0, so the returned stories add up to 3 more per story without
    the field, and to the reported total exactly when every response
    story carries it.  A well-shaped response is always worked through. *)
Theorem c10_formatted_stories_and_total :
  forall (fid : Z) (context : dict) (generate_epic : bool) (response : dict),
    (forall out,
        execute fid context generate_epic (Ok (JObj response)) = Ok out ->
        exists raw : list dict,
          iterate (get response "stories" (JArr [])) = Ok (JObj <$> raw)
          /\ stories out = imap format_story raw
          /\ story_count out = length raw
          /\ (forall i s, raw !! i = Some s ->
                exists f, stories out !! i = Some f
                  /\ order f = (Z.of_nat i + 1)%Z
                  /\ title f = get s "title" (JStr "")
                  /\ story_points f = get s "story_points" (JNum 3)
                  /\ priority f = get s "priority" (JStr "medium"))
          /\ sum_points (JObj <$> raw) = Ok (total_story_points out)
          /\ returned_points (stories out)
               = Ok (total_story_points out + 3 * missing_points raw)%Z
          /\ (returned_points (stories out) = Ok (total_story_points out)
              <-> Forall (fun s => has_key s "story_points" = true) raw))
    /\ (forall raw,
        well_shaped response raw ->
        exists out,
          execute fid context generate_epic (Ok (JObj response)) = Ok out
          /\ stories out = imap format_story raw).
Proof.
  intros fid context ge response. split.
  - intros out. unfold execute. simpl.
    destruct (iterate _) as [items|] eqn:Hi; [|discriminate]. simpl.
    destruct (sum_points items) as [total|] eqn:Hs; [|discriminate]. simpl.
    intros [= <-]. simpl.
    pose proof (sum_points_dicts _ _ Hs) as Hitems.
    set (raw := as_dicts items) in *.
    assert (Hret : returned_points (imap format_story raw)
                   = Ok (total + 3 * missing_points raw)%Z).
    { unfold returned_points. rewrite story_points_formatted.
      apply sum_values_defaults. by rewrite <- Hitems. }
    exists raw. split; [by rewrite <- Hitems|]. split; [done|].
    split; [apply length_imap|]. split.
    { intros i s Hs'. exists (format_story i s).
      rewrite list_lookup_imap, Hs'. done. }
    split; [by rewrite <- Hitems|]. split; [exact Hret|].
    rewrite Hret, <- missing_points_zero. split.
    + intros [= H]. lia.
    + intros ->. f_equal. lia.
  - intros raw [Hget Hnum]. unfold execute. simpl. rewrite Hget. simpl.
    destruct (sum_points_total raw Hnum) as [n Hn]. rewrite Hn. simpl.
    eexists. split; [reflexivity|]. simpl. by rewrite as_dicts_fmap.
Qed.

Definition two_stories_response : dict :=
  {[ "stories" :=
      JArr [ JObj {[ "title" := JStr "Sign in"; "story_points" := JNum 5;
                     "priority" := JStr "high" ]};
             JObj {[ "title" := JStr "Sign out" ]} ] ]}.

Definition two_stories_raw : list dict :=
  [ {[ "title" := JStr "Sign in"; "story_points" := JNum 5; "priority" := JStr "high" ]};
    {[ "title" := JStr "Sign out" ]} ].

Definition two_stories_generation : generation :=
  {| feature_id := 1; epic := JNull;
     stories := imap format_story two_stories_raw;
     total_story_points := 5; story_count := 2 |}.

(** C10 at work: two stories, the second without [story_points]. *)
Lemma c10_formatted_stories_and_total_witness :
  (exists raw : list dict,
      iterate (get two_stories_response "stories" (JArr [])) = Ok (JObj <$> raw)
      /\ stories two_stories_generation = imap format_story raw
      /\ story_count two_stories_generation = length raw
      /\ (forall i s, raw !! i = Some s ->
            exists f, stories two_stories_generation !! i = Some f
              /\ order f = (Z.of_nat i + 1)%Z
              /\ title f = get s "title" (JStr "")
              /\ story_points f = get s "story_points" (JNum 3)
              /\ priority f = get s "priority" (JStr "medium"))
      /\ sum_points (JObj <$> raw) = Ok (total_story_points two_stories_generation)
      /\ returned_points (stories two_stories_generation)
           = Ok (total_story_points two_stories_generation + 3 * missing_points raw)%Z
      /\ (returned_points (stories two_stories_generation)
            = Ok (total_story_points two_stories_generation)
          <-> Forall (fun s => has_key s "story_points" = true) raw))
  /\ (exists out,
        execute 1 ∅ true (Ok (JObj two_stories_response)) = Ok out
        /\ stories out = imap format_story two_stories_raw).
Proof.
  split.
  - apply (proj1 (c10_formatted_stories_and_total 1 ∅ true two_stories_response)).
    vm_compute. reflexivity.
  - apply (proj2 (c10_formatted_stories_and_total 1 ∅ true two_stories_response)).
    split; [reflexivity|].
    repeat constructor; eexists; vm_compute; reflexivity.
Defined.

Example two_stories_totals :
  returned_points (stories two_stories_generation) = Ok 8%Z
  /\ total_story_points two_stories_generation = 5%Z.
Proof. split; reflexivity. Qed.

End StoryGenProps.

Module SortingProps.
Import Py PyProps.
#[local] Open Scope Q_scope.

Section Sorted.
Context {A : Type} (key : A -> Q) (reverse : bool).

(** The order in which [sorted] leaves two neighbours. *)
Definition in_order (a b : A) : Prop :=
  if reverse then key b <= key a else key a <= key b.

Definition before (y x : A) : bool :=
  if reverse then Qlt_bool (key x) (key y) else Qlt_bool (key y) (key x).

Lemma before_in_order y x : before y x = true -> in_order y x.
Proof.
  unfold before, in_order. destruct reverse; rewrite Qlt_bool_iff; apply Qlt_le_weak.
Qed.

Lemma not_before_in_order y x : before y x = false -> in_order x y.
Proof.
  unfold before, in_order. destruct reverse; by rewrite Qlt_bool_false.
Qed.


Lemma in_order_trans a b c : in_order a b -> in_order b c -> in_order a c.
Proof.
  unfold in_order. destruct reverse; intros H1 H2; by eapply Qle_trans.
Qed.

Lemma insert_by_perm x (l : list A) : Permutation (x :: l) (insert_by before x l).
Proof.
  induction l as [|y l IH]; [done|]. simpl.
  destruct (before y x); [|done].
  rewrite perm_swap. by apply perm_skip.
Qed.

Lemma sorted_perm (l : list A) : Permutation l (sorted key reverse l).
Proof.
  induction l as [|x l IH]; [done|].
  change (sorted key reverse (x :: l)) with (insert_by before x (sorted key reverse l)).
  rewrite <- insert_by_perm. by apply perm_skip.
Qed.

Lemma insert_by_sorted x (l : list A) :
  StronglySorted in_order l -> StronglySorted in_order (insert_by before x l).
Proof.
  induction 1 as [|y l Hs IH Hy]; simpl.
  - repeat constructor.
  - destruct (before y x) eqn:Hb.
    + constructor; [done|].
      rewrite <- (insert_by_perm x l). constructor; [|done].
      by apply before_in_order.
    + constructor; [by constructor|].
      pose proof (not_before_in_order _ _ Hb) as Hxy.
      constructor; [done|].
      eapply Forall_impl; [exact Hy|]. intros z Hz. by eapply in_order_trans.
Qed.

Lemma sorted_sorted (l : list A) : StronglySorted in_order (sorted key reverse l).
Proof.
  induction l as [|x l IH]; [constructor|].
  change (sorted key reverse (x :: l)) with (insert_by before x (sorted key reverse l)).
  by apply insert_by_sorted.
Qed.



End Sorted.
End SortingProps.

Module AssignmentProps.
Import Py PyProps Assignment SortingProps.
#[local] Open Scope Q_scope.

(** ** Candidates *)

Definition eligible (m : member) (sp : Q) : Prop :=
  current_load m + sp <= 5 /\ sp <= effective_capacity m.

Lemma passes_checks_iff m sp : passes_checks m sp = true <-> eligible m sp.
Proof.
  unfold passes_checks, eligible, MAX_STORY_POINTS_PER_PERSON.
  rewrite andb_true_iff, !negb_true_iff, !Qlt_bool_false. done.
Qed.

(** What the loop of [_find_best_assignee] returns: either nothing beat
    the score it started from, or the first of the best candidates. *)
Lemma find_from_spec required sp members : forall idx best bs r rs,
  find_from idx members required sp best bs = (r, rs) ->
  (r = best /\ rs = bs /\
   forall j m, members !! j = Some m -> passes_checks m sp = true ->
               match_score m required <= bs)
  \/
  (exists k m,
      r = Some (idx + k)%nat /\ members !! k = Some m /\
      passes_checks m sp = true /\ rs = match_score m required /\
      bs < match_score m required /\
      (forall j m', members !! j = Some m' -> passes_checks m' sp = true ->
                    match_score m' required <= match_score m required) /\
      (forall j m', members !! j = Some m' -> passes_checks m' sp = true ->
                    (j < k)%nat -> match_score m' required < match_score m required)).
Proof.
  induction members as [|m rest IH]; intros idx best bs r rs H; simpl in H.
  - injection H as <- <-. left. repeat split; try done.
  - destruct (passes_checks m sp) eqn:Hp.
    + destruct (Qlt_bool bs (match_score m required)) eqn:Hlt.
      * apply Qlt_bool_iff in Hlt.
        apply IH in H as [(-> & -> & Hall)|(k & m' & -> & Hk & Hp' & -> & Hbs & Hmax & Hfirst)].
        -- right. exists 0%nat, m. rewrite Nat.add_0_r.
           repeat split; try done.
           ++ intros [|j] m' Hj Hpj; simpl in Hj.
              ** injection Hj as <-. apply Qle_refl.
              ** by eapply Hall.
           ++ intros j m' _ _ Hj. lia.
        -- right. exists (S k), m'. rewrite Nat.add_succ_r.
           repeat split; try done.
           ++ by eapply Qlt_trans.
           ++ intros [|j] m'' Hj Hpj; simpl in Hj.
              ** injection Hj as <-. by apply Qlt_le_weak.
              ** by eapply Hmax.
           ++ intros [|j] m'' Hj Hpj Hlt'; simpl in Hj.
              ** by injection Hj as <-.
              ** eapply Hfirst; [done|done|lia].
      * apply Qlt_bool_false in Hlt.
        apply IH in H as [(-> & -> & Hall)|(k & m' & -> & Hk & Hp' & -> & Hbs & Hmax & Hfirst)].
        -- left. repeat split; try done.
           intros [|j] m' Hj Hpj; simpl in Hj.
           ++ by injection Hj as <-.
           ++ by eapply Hall.
        -- right. exists (S k), m'. rewrite Nat.add_succ_r.
           repeat split; try done.
           ++ intros [|j] m'' Hj Hpj; simpl in Hj.
              ** injection Hj as <-. apply Qlt_le_weak. by eapply Qle_lt_trans.
              ** by eapply Hmax.
           ++ intros [|j] m'' Hj Hpj Hlt'; simpl in Hj.
              ** injection Hj as <-. by eapply Qle_lt_trans.
              ** eapply Hfirst; [done|done|lia].
    + apply IH in H as [(-> & -> & Hall)|(k & m' & -> & Hk & Hp' & -> & Hbs & Hmax & Hfirst)].
      * left. repeat split; try done.
        intros [|j] m' Hj Hpj; simpl in Hj.
        -- injection Hj as <-. congruence.
        -- by eapply Hall.
      * right. exists (S k), m'. rewrite Nat.add_succ_r.
        repeat split; try done.
        -- intros [|j] m'' Hj Hpj; simpl in Hj.
           ++ injection Hj as <-. congruence.
           ++ by eapply Hmax.
        -- intros [|j] m'' Hj Hpj Hlt'; simpl in Hj.
           ++ injection Hj as <-. congruence.
           ++ eapply Hfirst; [done|done|lia].
Qed.







(** ** The fallback *)

Lemma least_loaded_from_spec members : forall idx best bl,
  let r := least_loaded_from idx members best bl in
  (r = best /\ forall j m, members !! j = Some m -> bl <= current_load m)
  \/ (exists k m, r = (idx + k)%nat /\ members !! k = Some m /\
        current_load m < bl /\
        forall j m', members !! j = Some m' -> current_load m <= current_load m').
Proof.
  induction members as [|m rest IH]; intros idx best bl; simpl.
  - left. split; [done|]. intros j m Hj. done.
  - destruct (Qlt_bool (current_load m) bl) eqn:Hlt.
    + apply Qlt_bool_iff in Hlt. right.
      destruct (IH (S idx) idx (current_load m)) as [(-> & Hall)|(k & m' & -> & Hk & Hlt' & Hall)].
      * exists 0%nat, m. rewrite Nat.add_0_r. repeat split; try done.
        intros [|j] m' Hj; simpl in Hj.
        -- injection Hj as <-. apply Qle_refl.
        -- by eapply Hall.
      * exists (S k), m'. rewrite Nat.add_succ_r. repeat split; try done.
        -- by eapply Qlt_trans.
        -- intros [|j] m'' Hj; simpl in Hj.
           ++ injection Hj as <-. by apply Qlt_le_weak.
           ++ by eapply Hall.
    + apply Qlt_bool_false in Hlt.
      destruct (IH (S idx) best bl) as [(-> & Hall)|(k & m' & -> & Hk & Hlt' & Hall)].
      * left. split; [done|]. intros [|j] m' Hj; simpl in Hj.
        -- by injection Hj as <-.
        -- by eapply Hall.
      * right. exists (S k), m'. rewrite Nat.add_succ_r. repeat split; try done.
        intros [|j] m'' Hj; simpl in Hj.
        -- injection Hj as <-. apply Qlt_le_weak. by eapply Qlt_le_trans.
        -- by eapply Hall.
Qed.

(** On a team that is not empty, the fallback finds a member of least load. *)
Lemma least_loaded_spec team :
  team <> [] ->
  exists i m, least_loaded team = Some i /\ team !! i = Some m /\
    forall j m', team !! j = Some m' -> current_load m <= current_load m'.
Proof.
  destruct team as [|m0 rest]; [done|]. intros _. simpl.
  destruct (least_loaded_from_spec rest 1 0%nat (current_load m0))
    as [(-> & Hall)|(k & m & -> & Hk & Hlt & Hall)].
  - exists 0%nat, m0. repeat split; try done.
    intros [|j] m' Hj; simpl in Hj.
    + injection Hj as <-. apply Qle_refl.
    + by eapply Hall.
  - exists (S k), m. repeat split; try done.
    intros [|j] m' Hj; simpl in Hj.
    + injection Hj as <-. by apply Qlt_le_weak.
    + by eapply Hall.
Qed.


(** ** The loop of [_assign_stories] *)

(** The assignment [a] is the one of story [s]. *)
Definition describes (s : story) (a : assignment) : Prop :=
  story_title a = title s /\ assigned_points a = story_points s /\
  assigned_priority a = priority s.

Lemma find_best_assignee_in_range team required sp i c :
  _find_best_assignee team required sp = Some (i, c) ->
  exists m, team !! i = Some m /\ passes_checks m sp = true /\ c = match_score m required.
Proof.
  unfold _find_best_assignee.
  destruct (find_from 0 team required sp None (-1)) as [r rs] eqn:Hf.
  apply find_from_spec in Hf as [(-> & -> & _)|(k & m & -> & Hk & Hp & -> & _)];
    [done|].
  intros [= <- <-]. by exists m.
Qed.

Lemma find_best_assignee_none team required sp :
  (forall j m, team !! j = Some m -> passes_checks m sp = false) ->
  _find_best_assignee team required sp = None.
Proof.
  intros Hnone. unfold _find_best_assignee.
  destruct (find_from 0 team required sp None (-1)) as [r rs] eqn:Hf.
  apply find_from_spec in Hf as [(-> & -> & _)|(k & m & -> & Hk & Hp & _)];
    [done|].
  rewrite (Hnone k m Hk) in Hp. discriminate.
Qed.

Lemma assign_one_describes idx s team :
  describes s (fst (assign_one idx s team)) /\
  length (snd (assign_one idx s team)) = length team.
Proof.
  unfold assign_one.
  destruct (_find_best_assignee _ _ _) as [[i c]|].
  - destruct (team !! i); simpl; rewrite ?length_insert; by repeat split.
  - destruct (least_loaded team) as [i|]; [|by repeat split].
    destruct (team !! i); simpl; rewrite ?length_insert; by repeat split.
Qed.



Lemma assign_from_describes stories : forall idx team,
  Forall2 describes stories (fst (assign_from idx stories team)).
Proof.
  induction stories as [|s rest IH]; intros idx team; simpl; [constructor|].
  pose proof (assign_one_describes idx s team) as [Hd _].
  destruct (assign_one idx s team) as [a team']. simpl in *.
  specialize (IH (S idx) team').
  destruct (assign_from (S idx) rest team') as [asg team'']. simpl in *.
  by constructor.
Qed.

Lemma nonempty_perm {A} (l l' : list A) : Permutation l l' -> l <> [] -> l' <> [].
Proof. intros Hp Hne ->. apply Permutation_nil_r in Hp. done. Qed.

(** ** Teams and stories used below *)

Definition dev (n : string) (load : Q) : member :=
  {| member_id := None; name := n; email := ""; job_title := "Developer";
     skills := []; experience_level := "mid"; max_capacity := 5;
     current_load := load; effective_capacity := 5 - load; load_ratio := 0 |}.

Definition plain (t : string) (points : Q) (p : string) : story :=
  {| id := None; title := t; description := ""; story_points := points;
     priority := p; dependencies := [] |}.

(** ** C2 *)




(** Two members without load take three stories of 2 points; nobody ends
    above 5 points and no assignment comes from the fallback. *)
Example two_members_three_stories :
  map assignee
    (execute [plain "a" 2 "high"; plain "b" 2 "medium"; plain "c" 2 "low"]
             [dev "x" 0; dev "y" 0])
  = [Some "x"; Some "y"; Some "x"]
  /\ map current_load
       (snd (_assign_stories
               (_prioritize_stories
                  [plain "a" 2 "high"; plain "b" 2 "medium"; plain "c" 2 "low"])
               (_calculate_effective_capacity [dev "x" 0; dev "y" 0])))
     = [0 + 2 + 2; 0 + 2]
  /\ Forall (fun a => ~ confidence a == 3 # 10)
       (execute [plain "a" 2 "high"; plain "b" 2 "medium"; plain "c" 2 "low"]
                [dev "x" 0; dev "y" 0]).
Proof.
  split; [reflexivity|]. split; [reflexivity|].
  repeat constructor; intros H; vm_compute in H; discriminate.
Qed.

(** A lone member already at the cap takes a story of 3 points through the
    fallback and ends at 8 points. *)
Example saturated_member_takes_story :
  map assignee (execute [plain "a" 3 "high"] [dev "x" 5]) = [Some "x"]
  /\ map confidence (execute [plain "a" 3 "high"] [dev "x" 5]) = [3 # 10]
  /\ map current_load
       (snd (_assign_stories [plain "a" 3 "high"]
               (_calculate_effective_capacity [dev "x" 5]))) = [5 + 3].
Proof. repeat split. Qed.


(** ** C5 *)











(** ** C6 *)



Example priority_order_example :
  map title (_prioritize_stories
               [plain "low" 2 "low"; plain "big" 8 "high"; plain "first" 3 "medium";
                plain "small" 1 "high"; plain "second" 3 "medium"])
  = ["small"; "big"; "first"; "second"; "low"].
Proof. reflexivity. Qed.

End AssignmentProps.

Module TriageProps.
Import Py PyProps Triage.
#[local] Open Scope Q_scope.
#[local] Set Warnings "-inexact-float".

(** ** C7 *)









(** ** The heuristic in floating point

    [process] computes the confidence in binary64.  For every combination
    of the four things it reads and up to 60 mentions, the computation in
    binary64 and the exact one lead to the same diagnosis. *)

Definition float_confidence (ticket access help_req pace : bool) (mentions : nat)
    : float :=
  let score := 0%float in
  let score := if ticket then (score + 1.2)%float else score in
  let score := if access then (score + 1.0)%float else score in
  let score := if help_req then (score + 0.9)%float else score in
  let score := if pace then (score + 0.7)%float else score in
  let score :=
    (score + 0.2 * PrimFloat.of_uint63 (Uint63.of_Z (Z.of_nat mentions - 1)))%float in
  let q := (score / 3.0)%float in
  if PrimFloat.ltb 1.0%float q then 1.0%float else q.

Definition float_diagnosis (ticket access help_req pace : bool) (mentions : nat)
    : string :=
  let confidence := float_confidence ticket access help_req pace mentions in
  if access && PrimFloat.leb 0.3%float confidence then "access"
  else if help_req && PrimFloat.leb 0.3%float confidence then "needs_help"
  else if pace && PrimFloat.leb 0.7%float confidence then "pace"
  else "verify".

(** The diagnosis of the model, from the same five readings. *)
Definition exact_diagnosis (ticket access help_req pace : bool) (mentions : nat)
    : string :=
  let score := 0 in
  let score := if ticket then score + (12 # 10) else score in
  let score := if access then score + 1 else score in
  let score := if help_req then score + (9 # 10) else score in
  let score := if pace then score + (7 # 10) else score in
  let score := score + (2 # 10) * (inject_Z (Z.of_nat mentions) - 1) in
  let confidence := qmin (score / 3) 1 in
  if access && Qle_bool (3 # 10) confidence then "access"
  else if help_req && Qle_bool (3 # 10) confidence then "needs_help"
  else if pace && Qle_bool (7 # 10) confidence then "pace"
  else "verify".

Lemma entry_diagnosis_reads story events :
  entry_diagnosis story events
  = exact_diagnosis (truthy_str story) (existsb access events)
      (existsb help events) (existsb pace events) (length events).
Proof. reflexivity. Qed.

Definition agree (mentions : nat) (flags : bool * bool * bool * bool) : bool :=
  let '(ticket, a, h, p) := flags in
  String.eqb (float_diagnosis ticket a h p mentions)
             (exact_diagnosis ticket a h p mentions).

Definition all_flags : list (bool * bool * bool * bool) :=
  t ← [false; true]; a ← [false; true]; h ← [false; true]; p ← [false; true];
  [(t, a, h, p)].

Lemma float_diagnosis_table :
  forallb (fun n => forallb (agree n) all_flags) (seq 1 60) = true.
Proof. vm_compute. reflexivity. Qed.

Lemma float_diagnosis_agrees (story : option string) (events : list event) :
  (1 <= length events <= 60)%nat ->
  float_diagnosis (truthy_str story) (existsb access events)
    (existsb help events) (existsb pace events) (length events)
  = entry_diagnosis story events.
Proof.
  intros Hlen. rewrite entry_diagnosis_reads.
  pose proof float_diagnosis_table as Htab.
  rewrite forallb_forall in Htab.
  specialize (Htab (length events)).
  rewrite forallb_forall in Htab.
  apply String.eqb_eq.
  apply (Htab ltac:(apply in_seq; lia)
              (truthy_str story, existsb access events, existsb help events,
               existsb pace events)).
  destruct (truthy_str story), (existsb access events), (existsb help events),
    (existsb pace events); vm_compute; tauto.
Qed.

(** ** C3 *)

Section Dedup.
Variable hash : string -> Z.
Variable extract_jira_ids : string -> list string.
Variable project_key : string.
Variable tools : tool_funcs.

(** The action key that [process] computes for a timeline entry. *)
Definition entry_key (entry : timeline_key * list event) : string :=
  make_action_key hash
    (match or_none entry.1.1 with Some p => p | None => "" end)
    entry.1.2 (entry_diagnosis entry.1.2 entry.2) (entry_excerpt entry.2).

Lemma incident_keeps_actions st person story excerpt confidence :
  actions (_create_servicenow_incident project_key tools st person story
             excerpt confidence).2 = actions st.
Proof.
  unfold _create_servicenow_incident.
  destruct (servicenow_create_incident_impl tools) as [func|]; [|done].
  by destruct (func _ _).
Qed.

Lemma helper_keeps_actions st person story excerpt confidence :
  actions (_create_or_assign_jira_helper extract_jira_ids project_key tools st
             person story excerpt confidence).2 = actions st.
Proof.
  unfold _create_or_assign_jira_helper.
  destruct (jira_get_team_capacity_impl tools) as [get_capacity|].
  - destruct (get_capacity _ _) as [cap_resp|e].
    + destruct (jira_create_story_impl tools) as [create_story|]; [|done].
      destruct (buddy_of person cap_resp) as [buddy|]; simpl.
      * destruct (create_story _ _); [done|]. by destruct (create_story _ _).
      * by destruct (create_story _ _).
    + destruct (jira_create_story_impl tools) as [create_story|]; [|done].
      by destruct (create_story _ _).
  - destruct (jira_create_story_impl tools) as [create_story|]; [|done].
    by destruct (create_story _ _).
Qed.

(** An entry whose key is in the table is skipped: nothing is
    dispatched, nothing is recorded. *)
Lemma process_entry_skips st entry :
  action_exists st (entry_key entry) = true ->
  process_entry hash extract_jira_ids project_key tools st entry = (st, None).
Proof.
  destruct entry as [[person story] events]. unfold entry_key, process_entry.
  simpl. by intros ->.
Qed.

(** After an entry is processed its key is in the table, and so is every
    key that was there before. *)
Lemma process_entry_records st entry :
  let st' := (process_entry hash extract_jira_ids project_key tools st entry).1 in
  action_exists st' (entry_key entry) = true
  /\ forall k, action_exists st k = true -> action_exists st' k = true.
Proof.
  destruct entry as [[person story] events]. unfold entry_key, process_entry.
  simpl.
  set (key := make_action_key hash _ story _ _).
  destruct (action_exists st key) eqn:He; [by split|].
  set (dispatched := if String.eqb _ _ then _ else _).
  assert (Ha : actions dispatched.2 = actions st).
  { unfold dispatched. destruct (String.eqb _ _).
    - apply incident_keeps_actions.
    - apply helper_keeps_actions. }
  destruct dispatched as [result st1]. simpl in *.
  unfold action_exists, persist_action. simpl. rewrite Ha. split.
  - by rewrite lookup_insert_eq.
  - intros k Hk. destruct (decide (key = k)) as [->|Hne].
    + by rewrite lookup_insert_eq.
    + by rewrite lookup_insert_ne.
Qed.

Lemma process_entries_records tl : forall st,
  let st' := (process_entries hash extract_jira_ids project_key tools st tl).1 in
  (forall entry, entry ∈ tl -> action_exists st' (entry_key entry) = true)
  /\ forall k, action_exists st k = true -> action_exists st' k = true.
Proof.
  induction tl as [|entry rest IH]; intros st; cbn [process_entries].
  - split; [|done]. intros entry Hin. by apply elem_of_nil in Hin.
  - pose proof (process_entry_records st entry) as [Hkey Hmono].
    destruct (process_entry hash extract_jira_ids project_key tools st entry)
      as [st1 od]. simpl in Hkey, Hmono.
    specialize (IH st1).
    destruct (process_entries hash extract_jira_ids project_key tools st1 rest)
      as [st2 ds]. simpl in *. destruct IH as [IHkeys IHmono]. split.
    + intros e He. apply elem_of_cons in He as [->|He]; [by apply IHmono|by apply IHkeys].
    + intros k Hk. by apply IHmono, Hmono.
Qed.

Lemma process_entries_skips tl : forall st,
  (forall entry, entry ∈ tl -> action_exists st (entry_key entry) = true) ->
  process_entries hash extract_jira_ids project_key tools st tl = (st, []).
Proof.
  induction tl as [|entry rest IH]; intros st Hall; [done|].
  cbn [process_entries].
  rewrite process_entry_skips by (apply Hall, elem_of_cons; by left).
  rewrite IH; [done|]. intros e He. apply Hall, elem_of_cons. by right.
Qed.

(** Within one interpreter (one [hash]) a second run over the same
    transcripts skips every entry: the table and the list of calls stay
    as the first run left them, and no decision is made. *)
Theorem triage_idempotent_in_one_interpreter (st : state) (transcripts : list day) :
  let st1 := (process hash extract_jira_ids project_key tools st transcripts).1 in
  process hash extract_jira_ids project_key tools st1 transcripts = (st1, []).
Proof.
  unfold process. apply process_entries_skips.
  apply (process_entries_records (_merge_person_texts extract_jira_ids transcripts) st).
Qed.

End Dedup.

(** The key reads the first 200 characters of the excerpt only, and the
    excerpt is the first 800 characters of the last utterance. *)
Lemma substring_prefix (n m : nat) : forall s : string,
  (n <= m)%nat ->
  String.substring 0 n (String.substring 0 m s) = String.substring 0 n s.
Proof.
  revert m. induction n as [|n IH]; intros m s Hle.
  - by destruct (String.substring 0 m s), s.
  - destruct m as [|m]; [lia|]. destruct s as [|c s]; [done|].
    simpl. f_equal. apply IH. lia.
Qed.

Lemma action_key_reads_200 hash person story diagnosis (e1 e2 : string) :
  String.substring 0 200 e1 = String.substring 0 200 e2 ->
  make_action_key hash person story diagnosis e1
  = make_action_key hash person story diagnosis e2.
Proof. unfold make_action_key. by intros ->. Qed.

(** The key of an entry is that of its speaker, ticket reference and
    diagnosis with the last utterance. *)
Lemma entry_key_of_last_utterance hash person story (events : list event) e :
  last events = Some e ->
  entry_key hash ((person, story), events)
  = make_action_key hash (match or_none person with Some p => p | None => "" end)
      story (entry_diagnosis story events) (text e).
Proof.
  intros Hlast. unfold entry_key, entry_excerpt. simpl. rewrite Hlast.
  apply action_key_reads_200, substring_prefix. lia.
Qed.

Definition no_tools : tool_funcs :=
  {| servicenow_create_incident_impl := None;
     jira_get_team_capacity_impl := None;
     jira_create_story_impl := None |}.

(** Ticket services that answer every call. *)
Definition answering_tools : tool_funcs :=
  {| servicenow_create_incident_impl :=
       Some (fun _ _ => Ok (JObj {[ "success" := JBool true ]}));
     jira_get_team_capacity_impl :=
       Some (fun _ _ => Ok (JObj {[ "team" := JArr [] ]}));
     jira_create_story_impl :=
       Some (fun _ _ => Ok (JObj {[ "success" := JBool true ]})) |}.

(** A search for ticket references that knows one ticket. *)
Definition finds_proj_1 (t : string) : list string :=
  if contains "PROJ-1" t then ["PROJ-1"] else [].

Definition standup : list day :=
  [ {| date := Some "2024-05-06";
       participants :=
         [ {| p_email := Some "ana@example.org"; p_name := Some "Ana";
              spoken_text := ["I have no access to the repo for PROJ-1";
                              "can someone pair with me?"] |} ] |} ].

Definition fresh : state := {| actions := ∅; calls := [] |}.


(** Two interpreters hash the same string differently. *)
Definition hash_of_first_run (s : string) : Z := Z.of_nat (String.length s).
Definition hash_of_second_run (s : string) : Z := Z.of_nat (String.length s) + 1000.

(** C3.  The action key is [str(abs(hash(base)))], and [hash] of a
    string is salted per interpreter.  With the table kept from a first
    run, a second run of the same transcripts under another salt finds
    none of its keys: both entries are dispatched again (three more calls
    to the ticket services) and recorded again (four rows instead of two);
    under the salt of the first run nothing would be dispatched. *)
Theorem c3_second_interpreter_dispatches_again :
  let run1 := process hash_of_first_run finds_proj_1 "PROJ" answering_tools fresh standup in
  let run2 := process hash_of_second_run finds_proj_1 "PROJ" answering_tools run1.1 standup in
  let same := process hash_of_first_run finds_proj_1 "PROJ" answering_tools run1.1 standup in
  length run1.2 = 2%nat /\ length (calls run1.1) = 3%nat /\ size (actions run1.1) = 2%nat
  /\ length run2.2 = 2%nat /\ length (calls run2.1) = 6%nat /\ size (actions run2.1) = 4%nat
  /\ same = (run1.1, []).
Proof.
  repeat split; vm_compute; reflexivity.
Qed.


End TriageProps.

(* ===================================================================== *)
(** ** The turns of the clarification agent *)
(* ===================================================================== *)

Module TurnProps.
Import Py PyProps Clarification.

(** The message that a continuing call appends for the user. *)
Definition user_message (i : input) : message :=
  {| role := "user"; content := json_opt (user_response i) |}.

(** The message that opens a conversation. *)
Definition opening_message (i : input) : message :=
  {| role := "user";
     content := JStr ("Feature: " ++ str_opt (feature_name i) ++ nl ++
                      "Description: " ++ str_opt (feature_description i)) |}.

Definition assistant_message (question : json) : message :=
  {| role := "assistant"; content := question |}.

(** What a continuing call returns: completion with a summary and no
    question, or a question and no summary. *)
Lemma continuing_outcome st i ctx reply synth out st' :
  continuing st i ctx reply synth = Ok (out, st') ->
  out_forced_completion out = None /\
  ((truthy (out_is_complete out) = true /\ out_question out = JNull
    /\ truthy (out_context_summary out) = true
    /\ out_conversation_history out = conversation_history i ++ [user_message i])
   \/ (truthy (out_is_complete out) = false /\ truthy (out_question out) = true
       /\ out_context_summary out = JNull
       /\ out_conversation_history out
          = conversation_history i ++
            [user_message i; assistant_message (out_question out)])).
Proof.
  unfold continuing.
  destruct (negb (sliceable _)); [discriminate|].
  destruct reply as [r|e]; [|discriminate]. simpl.
  destruct r as [| | | | |response]; try discriminate.
  set (ic := get response "is_complete" (JBool false)).
  set (q := get response "question" JNull).
  set (cs := get response "context_summary" JNull).
  rewrite ClarificationProps.synth_of_extended_history.
  assert (Hcanned1 : truthy (JStr canned_summary_request) = true) by reflexivity.
  assert (Hcanned2 : truthy (JStr canned_follow_up) = true) by reflexivity.
  destruct (truthy ic) eqn:Hic; simpl.
  - destruct (truthy cs) eqn:Hcs; simpl.
    + rewrite Hic, Hcs. simpl.
      destruct cs as [| | | | |m] eqn:Ecs; try discriminate.
      simpl. destruct (as_num _) as [n|]; [|discriminate]. simpl.
      intros [= <- <-]. simpl. rewrite Hic. simpl. split; [done|]. left.
      repeat split; try done.
    + destruct (truthy (summary_json (synth_summary synth))) eqn:Hs; simpl.
      * apply ClarificationProps.summary_json_truthy in Hs as (d & Hd & Hj & Ht).
        rewrite Hic, Hj. simpl in Ht |- *. rewrite Ht. simpl.
        destruct (as_num _) as [n|]; [|discriminate]. simpl.
        intros [= <- <-]. simpl. rewrite Hic. simpl. split; [done|]. left.
        repeat split; try done.
      * destruct (as_num _) as [n|]; [|discriminate]. simpl.
        intros [= <- <-]. simpl. split; [done|]. right.
        repeat split; try done. by rewrite <- app_assoc.
  - rewrite Hic. simpl.
    destruct (truthy q) eqn:Hq; simpl.
    + rewrite Hq. destruct (as_num _) as [n|]; [|discriminate]. simpl.
      intros [= <- <-]. simpl. rewrite Hic. simpl. split; [done|]. right.
      repeat split; try done. by rewrite <- app_assoc.
    + destruct (as_num _) as [n|]; [|discriminate]. simpl.
      intros [= <- <-]. simpl. rewrite Hic. simpl. split; [done|]. right.
      repeat split; try done. by rewrite <- app_assoc.
Qed.

(** What the first interaction returns. *)
Lemma first_interaction_outcome st i ctx reply out st' :
  first_interaction st i ctx reply = Ok (out, st') ->
  exists response,
    reply = Ok (JObj response)
    /\ out_forced_completion out = None
    /\ out_is_complete out = JBool false
    /\ out_question out = get response "question" JNull
    /\ out_context_summary out = JNull
    /\ out_conversation_history out
       = conversation_history i ++
         [opening_message i; assistant_message (get response "question" (JStr ""))].
Proof.
  unfold first_interaction. destruct reply as [r|]; [|discriminate]. simpl.
  destruct r as [| | | | |response]; try discriminate.
  intros [= <- <-]. exists response. by simpl.
Qed.

(** What a call returns, by the three paths of [execute]. *)
Lemma execute_outcome st i reply synth out st' :
  execute st i reply synth = Ok (out, st') ->
  conversation_history i <> [] ->
  (truthy (out_is_complete out) = true /\ out_question out = JNull
   /\ truthy (out_context_summary out) = true)
  \/ (truthy (out_is_complete out) = false /\ truthy (out_question out) = true
      /\ out_context_summary out = JNull).
Proof.
  intros He Hh.
  apply ClarificationProps.execute_inv in He as (n & Hn & He).
  destruct He as [[_ He]|[(_ & Hnil & _)|(_ & _ & He)]]; [|done|].
  - destruct (ClarificationProps.force_completion_inv st (feature_id i)
                (load_context st (feature_id i)) (conversation_history i) synth)
      as (d & Hf & Ht & _).
    rewrite Hf in He. injection He as <- _. left. by simpl.
  - apply continuing_outcome in He as [_ [H|H]]; [left|right]; tauto.
Qed.

(** X1.  A call that answers a conversation under way (the history is
    not empty) and returns never leaves the user without a next step:
    either it reports completion, with a non-empty summary and no
    question, or it does not, and then it carries a non-empty question
    (the reply's, or a canned one) and no summary.  The user's reply is
    always appended to the history, and the question asked after it. *)
Theorem answered_turn_asks_or_completes (st : store) (i : input)
    (reply synth : llm_reply) (out : output) (st' : store) :
  execute st i reply synth = Ok (out, st') ->
  conversation_history i <> [] ->
  out_forced_completion out = None ->
  (truthy (out_is_complete out) = true /\ out_question out = JNull
   /\ truthy (out_context_summary out) = true
   /\ out_conversation_history out = conversation_history i ++ [user_message i])
  \/ (truthy (out_is_complete out) = false /\ truthy (out_question out) = true
      /\ out_context_summary out = JNull
      /\ out_conversation_history out
         = conversation_history i ++
           [user_message i; assistant_message (out_question out)]).
Proof.
  intros He Hh Hf.
  apply ClarificationProps.execute_inv in He as (n & Hn & He).
  destruct He as [[_ He]|[(_ & Hnil & _)|(_ & _ & He)]]; [|done|].
  - destruct (ClarificationProps.force_completion_inv st (feature_id i)
                (load_context st (feature_id i)) (conversation_history i) synth)
      as (d & Hd & _).
    rewrite Hd in He. injection He as <- _. discriminate.
  - by apply continuing_outcome in He as [_ H].
Qed.

Lemma answered_turn_asks_or_completes_witness :
  exists out st',
    execute (run ∅ [ClarificationProps.first_call]) ClarificationProps.login_answer
      (Ok (JObj ∅)) ClarificationProps.no_reply = Ok (out, st')
    /\ truthy (out_is_complete out) = false
    /\ out_question out = JStr canned_follow_up
    /\ out_context_summary out = JNull.
Proof.
  destruct (execute (run ∅ [ClarificationProps.first_call])
              ClarificationProps.login_answer (Ok (JObj ∅)) ClarificationProps.no_reply)
    as [[out st']|] eqn:He; [|vm_compute in He; discriminate].
  exists out, st'. split; [reflexivity|].
  assert (Hq : out_question out = JStr canned_follow_up
               /\ out_forced_completion out = None).
  { vm_compute in He. by injection He as <- _. }
  destruct Hq as [Hq Hf].
  destruct (answered_turn_asks_or_completes _ _ _ _ _ _ He ltac:(discriminate) Hf)
    as [(_ & Hq' & _)|(Hc & _ & Hs & _)].
  - rewrite Hq in Hq'. discriminate Hq'.
  - split; [exact Hc|]. split; [exact Hq|exact Hs].
Defined.

(** X2.  The history that a call returns is the history it was given,
    with messages added at its end and none removed or changed: none on
    a forced completion, the opening message and the first question on
    a first interaction, the user's reply (and the next question, when
    there is one) on a continuing call. *)
Theorem history_only_grows (st : store) (i : input) (reply synth : llm_reply)
    (out : output) (st' : store) :
  execute st i reply synth = Ok (out, st') ->
  exists added,
    out_conversation_history out = conversation_history i ++ added
    /\ match out_forced_completion out with
       | Some _ => added = []
       | None =>
         match conversation_history i with
         | [] => exists question,
                   added = [opening_message i; assistant_message question]
         | _ => if truthy (out_is_complete out) then added = [user_message i]
                else added = [user_message i; assistant_message (out_question out)]
         end
       end.
Proof.
  intros He.
  apply ClarificationProps.execute_inv in He as (n & Hn & He).
  destruct He as [[_ He]|[(_ & Hnil & He)|(_ & Hh & He)]].
  - destruct (ClarificationProps.force_completion_inv st (feature_id i)
                (load_context st (feature_id i)) (conversation_history i) synth)
      as (d & Hd & _).
    rewrite Hd in He. injection He as <- _. exists []. simpl.
    by rewrite app_nil_r.
  - apply first_interaction_outcome in He as (response & _ & -> & _ & _ & _ & ->).
    eexists. split; [reflexivity|]. rewrite Hnil. by eexists.
  - apply continuing_outcome in He as [-> [(Hc & _ & _ & ->)|(Hc & _ & _ & ->)]].
    + eexists. split; [reflexivity|]. rewrite Hc.
      by destruct (conversation_history i).
    + eexists. split; [reflexivity|]. rewrite Hc.
      by destruct (conversation_history i).
Qed.

Lemma history_only_grows_witness :
  exists out st' added,
    execute ∅ ClarificationProps.login_first ClarificationProps.asks
      ClarificationProps.no_reply = Ok (out, st')
    /\ out_conversation_history out = [] ++ added
    /\ length added = 2%nat.
Proof.
  destruct (execute ∅ ClarificationProps.login_first ClarificationProps.asks
              ClarificationProps.no_reply)
    as [[out st']|] eqn:He; [|vm_compute in He; discriminate].
  assert (Hf : out_forced_completion out = None).
  { vm_compute in He. by injection He as <- _. }
  destruct (history_only_grows _ _ _ _ _ _ He) as (added & Ha & Hm).
  exists out, st', added. split; [reflexivity|]. split; [exact Ha|].
  rewrite Hf in Hm. simpl in Hm. destruct Hm as [question ->]. reflexivity.
Defined.



(** X4.  Failures of the reasoning service.  Below the limit, a failure
    on the question prompt is not handled by the agent: the call raises
    that very error and stores nothing ([execute] has no fallback
    question for it).  A failure on the summary prompt is never raised:
    the call goes on exactly as if the service had answered null. *)
Theorem reasoning_failures (st : store) (i : input) (reply synth : llm_reply)
    (e : exn) (n : Z) :
  as_num (get (load_context st (feature_id i)) "questions_asked" (JNum 0)) = Ok n ->
  (n < 5)%Z ->
  conversation_history i = []
  \/ sliceable (get (load_context st (feature_id i)) "feature_description" (JStr ""))
     = true ->
  execute st i (Raise e) synth = Raise e
  /\ step st {| c_input := i; c_reply := Raise e; c_synth := synth |} = st
  /\ execute st i reply (Raise e) = execute st i reply (Ok JNull).
Proof.
  intros Hn Hlt Hs.
  assert (He : execute st i (Raise e) synth = Raise e).
  { unfold execute. rewrite Hn. simpl.
    assert (E : (5 <=? n)%Z = false) by (apply Z.leb_gt; lia). rewrite E.
    destruct (conversation_history i) eqn:Hh; [reflexivity|].
    destruct Hs as [Hs|Hs]; [discriminate|].
    unfold continuing. rewrite Hs. reflexivity. }
  split; [exact He|]. split.
  - unfold step. simpl. by rewrite He.
  - assert (Hg : forall h, _generate_context_summary h (Raise e)
                           = _generate_context_summary h (Ok JNull)).
    { intros h. by destruct h. }
    unfold execute, _force_completion, continuing.
    by rewrite !Hg.
Qed.

Lemma reasoning_failures_witness :
  execute ∅ ClarificationProps.login_first (Raise ReasoningError)
    ClarificationProps.no_reply = Raise ReasoningError
  /\ execute ∅ ClarificationProps.login_first ClarificationProps.asks
       (Raise ReasoningError)
     = execute ∅ ClarificationProps.login_first ClarificationProps.asks (Ok JNull).
Proof.
  destruct (reasoning_failures ∅ ClarificationProps.login_first
              ClarificationProps.asks ClarificationProps.no_reply
              ReasoningError 0%Z) as (H1 & _ & H3).
  - reflexivity.
  - lia.
  - left. reflexivity.
  - split; [exact H1|exact H3].
Defined.

End TurnProps.

(* ===================================================================== *)
(** ** ContextStore: update, delete and the message lists *)
(* ===================================================================== *)

Module ContextStoreProps.
Import Py PyProps Clarification ContextStore.

Lemma stored_lookup (st : store) fid :
  stored st fid = match st !! fid with Some e => doc e | None => ∅ end.
Proof.
  unfold stored, get_feature_context. by destruct (st !! fid).
Qed.

(** X5.  [update_feature_context] is a merge and a rewrite: after it,
    every key of the updates reads as updated and every other key as it
    was stored (a feature without entry starts from the empty
    document); the entry is written with the default time to live of
    3600 seconds, whatever time to live it had before (the 86400 of a
    completed feature is lost); the entries of other features are left
    as they were. *)
Theorem update_feature_context_merges (st : store) (fid : Z) (updates : dict) :
  let st' := update_feature_context st fid updates in
  (forall k, stored st' fid !! k
             = match updates !! k with
               | Some v => Some v
               | None => stored st fid !! k
               end)
  /\ (ttl <$> st' !! fid) = Some 3600%Z
  /\ (forall g, g <> fid -> st' !! g = st !! g).
Proof.
  unfold update_feature_context. cbv zeta. split; [|split].
  - intros k. rewrite ClarificationProps.stored_set_same.
    rewrite ClarificationProps.load_context_stored.
    rewrite lookup_union. destruct (updates !! k) as [v|] eqn:E.
    + by destruct (stored st fid !! k).
    + by destruct (stored st fid !! k).
  - unfold set_feature_context. by rewrite lookup_insert_eq.
  - intros g Hg. unfold set_feature_context. by rewrite lookup_insert_ne.
Qed.

(** X6.  [reset_context] answers whether there was an entry, removes it
    and nothing else, and with it the count of questions: the next call
    of the agent for that feature is never a forced completion, even if
    the limit of five had been reached, and a call that opens a
    conversation counts its question as the first. *)
Theorem reset_context_restarts (st : store) (fid : Z) :
  (reset_context st fid).1 = bool_decide (is_Some (st !! fid))
  /\ get_context (reset_context st fid).2 fid = None
  /\ (forall g, g <> fid -> (reset_context st fid).2 !! g = st !! g)
  /\ counter (reset_context st fid).2 fid = Some 0%Z
  /\ (forall i reply synth out st',
        feature_id i = fid ->
        execute (reset_context st fid).2 i reply synth = Ok (out, st') ->
        out_forced_completion out = None
        /\ (conversation_history i = [] -> counter st' fid = Some 1%Z)).
Proof.
  unfold reset_context, delete_feature_context, get_context. simpl.
  assert (Hget : get_feature_context (delete fid st) fid = None).
  { unfold get_feature_context. by rewrite lookup_delete_eq. }
  assert (Hload : load_context (delete fid st) fid = ∅).
  { unfold load_context. by rewrite Hget. }
  split; [|split; [|split; [|split]]].
  - destruct (st !! fid) eqn:E.
    + symmetry. apply bool_decide_eq_true. by eexists.
    + symmetry. apply bool_decide_eq_false. by intros [? ?].
  - exact Hget.
  - intros g Hg. by rewrite lookup_delete_ne.
  - unfold counter. by rewrite Hget.
  - intros i reply synth out st' <- He.
    apply ClarificationProps.execute_inv in He as (n & Hn & He).
    rewrite Hload in Hn, He.
    assert (n = 0%Z) as ->.
    { unfold get in Hn. rewrite lookup_empty in Hn. simpl in Hn. congruence. }
    destruct He as [[Hle _]|[(_ & Hh & He)|(_ & Hh & He)]]; [lia| |].
    + apply ClarificationProps.first_interaction_inv in He as Hinv.
      apply TurnProps.first_interaction_outcome in He as (response & _ & Hf & _).
      destruct Hinv as [_ ->]. split; [exact Hf|].
      intros _. rewrite ClarificationProps.counter_set_same.
      apply ClarificationProps.counter_of_insert.
    + split; [|intros Hnil; by rewrite Hnil in Hh].
      by apply TurnProps.continuing_outcome in He as [Hf _].
Qed.

Lemma lrange_nil {A} (start stop : Z) : lrange (@nil A) start stop = [].
Proof.
  unfold lrange. cbv zeta.
  match goal with |- (if ?c then _ else _) = _ => destruct c end; [reflexivity|].
  by rewrite drop_nil, take_nil.
Qed.

Lemma lrange_tail {A} (l : list A) (limit : Z) :
  (0 < limit)%Z ->
  lrange l (- limit) (-1) = drop (length l - Z.to_nat limit) l.
Proof.
  intros Hl.
  destruct l as [|x l]; [rewrite lrange_nil; by rewrite drop_nil|].
  unfold lrange.
  - remember (length (x :: l)) as n eqn:En.
    assert (Hn : (0 < n)%nat) by (subst n; simpl; lia).
    assert (E1 : (- limit <? 0)%Z = true) by (apply Z.ltb_lt; lia).
    rewrite E1. change (-1 <? 0)%Z with true. cbv iota.
    destruct (- limit + Z.of_nat n <? 0)%Z eqn:E2.
    + apply Z.ltb_lt in E2.
      assert (E3 : (-1 + Z.of_nat n <? 0)%Z = false) by (apply Z.ltb_ge; lia).
      assert (E4 : (Z.of_nat n <=? 0)%Z = false) by (apply Z.leb_gt; lia).
      assert (E5 : (Z.of_nat n <=? -1 + Z.of_nat n)%Z = false) by (apply Z.leb_gt; lia).
      rewrite E3, E4, E5. simpl.
      replace (n - Z.to_nat limit)%nat with 0%nat by lia.
      rewrite !drop_0. apply take_ge. lia.
    + apply Z.ltb_ge in E2.
      assert (E3 : (-1 + Z.of_nat n <? - limit + Z.of_nat n)%Z = false)
        by (apply Z.ltb_ge; lia).
      assert (E4 : (Z.of_nat n <=? - limit + Z.of_nat n)%Z = false)
        by (apply Z.leb_gt; lia).
      assert (E5 : (Z.of_nat n <=? -1 + Z.of_nat n)%Z = false) by (apply Z.leb_gt; lia).
      rewrite E3, E4, E5. simpl.
      replace (Z.to_nat (- limit + Z.of_nat n)) with (n - Z.to_nat limit)%nat by lia.
      apply take_ge. rewrite length_drop. lia.
Qed.

Lemma lrange_all {A} (l : list A) : lrange l 0 (-1) = l.
Proof.
  destruct l as [|x l]; [apply lrange_nil|].
  unfold lrange. cbv zeta. change (0 <? 0)%Z with false.
  change (-1 <? 0)%Z with true. cbv iota. change (0 <? 0)%Z with false. cbv iota.
  remember (length (x :: l)) as n eqn:En.
  assert (Hn : (0 < n)%nat) by (subst n; simpl; lia).
  assert (E3 : (-1 + Z.of_nat n <? 0)%Z = false) by (apply Z.ltb_ge; lia).
  assert (E4 : (Z.of_nat n <=? 0)%Z = false) by (apply Z.leb_gt; lia).
  assert (E5 : (Z.of_nat n <=? -1 + Z.of_nat n)%Z = false) by (apply Z.leb_gt; lia).
  rewrite E3, E4, E5. simpl orb. cbv iota.
  change (Z.to_nat 0) with 0%nat. rewrite drop_0. apply take_ge. lia.
Qed.

(** X7.  The message list of a session: a message that is appended
    comes last and leaves the lists of other sessions alone;
    [get_conversation_messages] with a positive limit gives the last
    [limit] messages in the order they were appended (all of them when
    there are fewer), and with limit 0 it gives the whole list, not the
    empty one. *)
Theorem conversation_messages_window (ms : message_store) (session_id : string)
    (role content : string) (limit : Z) :
  (0 <= limit)%Z ->
  let ms' := (append_conversation_message ms session_id role content).2 in
  let l := messages_of ms session_id ++ [ {| m_role := role; m_content := content |} ] in
  (append_conversation_message ms session_id role content).1 = true
  /\ messages_of ms' session_id = l
  /\ (forall other, other <> session_id -> messages_of ms' other = messages_of ms other)
  /\ get_conversation_messages ms' session_id limit
     = if (limit =? 0)%Z then l else drop (length l - Z.to_nat limit) l.
Proof.
  intros Hl. cbv zeta. unfold append_conversation_message. simpl.
  assert (Hm : messages_of (<[session_id := messages_of ms session_id ++
                 [ {| m_role := role; m_content := content |} ]]> ms) session_id
               = messages_of ms session_id ++ [ {| m_role := role; m_content := content |} ]).
  { unfold messages_of at 1. by rewrite lookup_insert_eq. }
  split; [|split; [|split]].
  - rewrite length_app. simpl. apply Nat.ltb_lt. lia.
  - exact Hm.
  - intros other Ho. unfold messages_of. by rewrite lookup_insert_ne.
  - unfold get_conversation_messages. rewrite Hm.
    destruct (limit =? 0)%Z eqn:E.
    + apply Z.eqb_eq in E. subst limit. apply lrange_all.
    + apply Z.eqb_neq in E. apply lrange_tail. lia.
Qed.

Lemma conversation_messages_window_witness :
  (0 <= 2)%Z
  /\ get_conversation_messages
       (append_conversation_message
          {[ "s1" := [ {| m_role := "user"; m_content := "a" |};
                       {| m_role := "assistant"; m_content := "b" |} ] ]}
          "s1" "user" "c").2 "s1" 2
     = [ {| m_role := "assistant"; m_content := "b" |};
         {| m_role := "user"; m_content := "c" |} ].
Proof.
  split; [lia|].
  pose proof (conversation_messages_window
                {[ "s1" := [ {| m_role := "user"; m_content := "a" |};
                             {| m_role := "assistant"; m_content := "b" |} ] ]}
                "s1" "user" "c" 2 ltac:(lia)) as (_ & _ & _ & H).
  rewrite H. vm_compute. reflexivity.
Defined.

End ContextStoreProps.

(* ===================================================================== *)
(** ** The feature workflow around the agent *)
(* ===================================================================== *)

Module WorkflowProps.
Import Py PyProps Workflow.

Abbreviation store := Clarification.store.
Abbreviation counter := Clarification.counter.
Abbreviation stored := Clarification.stored.
Abbreviation set_feature_context := Clarification.set_feature_context.

(** The document that [_clarify_node] stores after a turn without
    completion. *)
Definition context_to_store (state : FeatureWorkflowState) (question : json) : dict :=
  {[ "feature_name" := json_opt (feature_name state);
     "feature_description" := json_opt (feature_description state);
     "is_complete" := JBool false;
     "last_question" := question;
     "workflow_id" := json_opt (workflow_id state) ]}.

(** The document that [_check_complete_node] stores for a summary. *)
Definition final_context (state : FeatureWorkflowState) (summary : dict) : dict :=
  summary ∪ {[ "feature_name" := json_opt (feature_name state);
               "feature_description" := json_opt (feature_description state);
               "is_complete" := JBool true ]}.

(** A summary that [_check_complete_node] accepts. *)
Definition accepted (j : json) : option dict :=
  match j with
  | JObj summary =>
    if truthy (JObj summary) && forallb (has_key summary) required_fields
    then Some summary else None
  | _ => None
  end.

(** The fields that name the feature. *)
Definition same_feature (s1 s2 : FeatureWorkflowState) : Prop :=
  feature_id s1 = feature_id s2
  /\ feature_name s1 = feature_name s2
  /\ feature_description s1 = feature_description s2.

Lemma counter_of_context_to_store state question :
  ClarificationProps.counter_of (context_to_store state question) = Some 0%Z.
Proof.
  unfold ClarificationProps.counter_of, context_to_store.
  repeat rewrite lookup_insert_ne by done.
  by rewrite lookup_singleton_ne.
Qed.

Lemma description_of_context_to_store state question :
  get (context_to_store state question) "feature_description" (JStr "")
  = json_opt (feature_description state).
Proof.
  unfold get, context_to_store.
  rewrite lookup_insert_ne by done. by rewrite lookup_insert_eq.
Qed.

(** The agent writes the entry of its feature and no other. *)
Lemma execute_store st i reply synth out st' :
  Clarification.execute st i reply synth = Ok (out, st') ->
  exists ctx, st' = set_feature_context st (Clarification.feature_id i) ctx
                      Clarification.default_ttl.
Proof.
  intros He.
  apply ClarificationProps.execute_inv in He as (n & Hn & He).
  destruct He as [[_ He]|[(_ & _ & He)|(_ & _ & He)]].
  - destruct (ClarificationProps.force_completion_inv st (Clarification.feature_id i)
                (Clarification.load_context st (Clarification.feature_id i))
                (Clarification.conversation_history i) synth) as (d & Hd & _).
    rewrite Hd in He. injection He as _ <-. by eexists.
  - apply ClarificationProps.first_interaction_inv in He as [_ ->]. by eexists.
  - apply ClarificationProps.continuing_inv in He
      as [(d & k & _ & _ & _ & _ & _ & ->)|(k & _ & _ & ->)]; by eexists.
Qed.

(** What [_clarify_node] does, by the outcome of the agent. *)
Lemma clarify_node_cases st state reply synth state' st' :
  _clarify_node st state reply synth = (state', st') ->
  same_feature state' state /\
  ((exists out st1,
       Clarification.execute st (agent_input state) reply synth = Ok (out, st1)
       /\ truthy (Clarification.out_is_complete out) = false
       /\ is_complete state' = Clarification.out_is_complete out
       /\ current_question state' = Clarification.out_question out
       /\ context_summary state' = Clarification.out_context_summary out
       /\ st' = set_feature_context st1 (feature_id state)
                  (context_to_store state (Clarification.out_question out)) 3600)
   \/ (exists out,
         Clarification.execute st (agent_input state) reply synth = Ok (out, st')
         /\ truthy (Clarification.out_is_complete out) = true
         /\ is_complete state' = Clarification.out_is_complete out
         /\ current_question state' = Clarification.out_question out
         /\ context_summary state' = Clarification.out_context_summary out)
   \/ (exists e,
         Clarification.execute st (agent_input state) reply synth = Raise e
         /\ is_complete state' = JBool true
         /\ current_question state' = JStr ("Error: " ++ message_of e)
         /\ context_summary state' = context_summary state
         /\ st' = st)).
Proof.
  unfold _clarify_node, same_feature.
  destruct (Clarification.execute st (agent_input state) reply synth)
    as [[out st1]|e].
  - destruct (truthy (Clarification.out_is_complete out)) eqn:Hc; simpl.
    + intros [= <- <-]. split; [done|]. right. left. by exists out.
    + intros [= <- <-]. split; [done|]. left. by exists out, st1.
  - intros [= <- <-]. split; [done|]. right. right. by exists e.
Qed.

Lemma should_continue_complete state :
  String.eqb (_should_continue_clarification state) "complete"
  = truthy (is_complete state).
Proof.
  unfold _should_continue_clarification.
  destruct (truthy (is_complete state)); [reflexivity|].
  by destruct (truthy (current_question state)).
Qed.

(** What [_check_complete_node] does, by the summary of the state. *)
Lemma check_complete_cases st state :
  match accepted (context_summary state) with
  | Some summary =>
    _check_complete_node st state
    = (state, set_feature_context st (feature_id state)
                (final_context state summary) 86400)
  | None =>
    exists question,
      _check_complete_node st state = (keep_incomplete state question, st)
      /\ (question = missing_aspects \/ question = more_information)
  end.
Proof.
  unfold accepted, _check_complete_node.
  destruct (context_summary state) as [| | | | |summary];
    try (exists more_information; by auto).
  destruct (truthy (JObj summary)); cbn [andb].
  - destruct (forallb (has_key summary) required_fields); cbv iota.
    + reflexivity.
    + exists missing_aspects. by auto.
  - exists more_information. by auto.
Qed.

Lemma accepted_inv j summary :
  accepted j = Some summary ->
  j = JObj summary /\ truthy (JObj summary) = true
  /\ forallb (has_key summary) required_fields = true.
Proof.
  unfold accepted. destruct j as [| | | | |m]; try discriminate.
  destruct (truthy (JObj m)) eqn:Ht; [|discriminate]. cbn [andb].
  destruct (forallb (has_key m) required_fields) eqn:Hk; [|discriminate].
  by intros [= <-].
Qed.

Lemma final_context_has_fields state summary :
  forallb (has_key summary) required_fields = true ->
  Clarification.has_required_keys (final_context state summary) = true.
Proof.
  unfold Clarification.has_required_keys, Clarification.required_keys,
    required_fields, final_context.
  rewrite !forallb_forall. intros H k Hk. specialize (H k Hk).
  unfold has_key in *. destruct (summary !! k) as [v|] eqn:E; [|discriminate].
  by rewrite (lookup_union_Some_l _ _ _ _ E).
Qed.

Lemma truthy_canned question :
  question = missing_aspects \/ question = more_information ->
  truthy (JStr question) = true.
Proof. by intros [-> | ->]. Qed.

(** X8.  A turn of the workflow that ends without completion forgets the
    count of questions: [_clarify_node] overwrites what the agent has
    just stored with a document of five fields (name, description,
    is_complete = false, last_question, workflow_id) and a time to live
    of 3600 seconds; the document has no questions_asked, so the count
    reads 0 again and the next call of the agent for that feature is
    never a forced completion. *)
Theorem unfinished_turn_forgets_count (st : store) (state : FeatureWorkflowState)
    (reply synth : Clarification.llm_reply) (state' : FeatureWorkflowState)
    (st' : store) :
  _clarify_node st state reply synth = (state', st') ->
  truthy (is_complete state') = false ->
  st' !! feature_id state
    = Some {| Clarification.doc := context_to_store state (current_question state');
              Clarification.ttl := 3600 |}
  /\ stored st' (feature_id state) !! "questions_asked" = None
  /\ counter st' (feature_id state) = Some 0%Z
  /\ (forall i reply' synth' out st'',
        Clarification.feature_id i = feature_id state ->
        Clarification.execute st' i reply' synth' = Ok (out, st'') ->
        Clarification.out_forced_completion out = None).
Proof.
  intros Hnode Hinc.
  apply clarify_node_cases in Hnode as [_ Hcases].
  destruct Hcases as [(out & st1 & _ & _ & _ & Hq & _ & ->)
                     |[(out & _ & Ht & Hc & _)|(e & _ & Hc & _)]].
  - assert (Hcnt : counter (set_feature_context st1 (feature_id state)
                     (context_to_store state (Clarification.out_question out)) 3600)
                     (feature_id state) = Some 0%Z).
    { rewrite ClarificationProps.counter_set_same.
      apply counter_of_context_to_store. }
    split; [|split; [|split]].
    + rewrite Hq. unfold Clarification.set_feature_context.
      by rewrite lookup_insert_eq.
    + rewrite ClarificationProps.stored_set_same.
      unfold context_to_store.
      repeat rewrite lookup_insert_ne by done.
      by rewrite lookup_singleton_ne.
    + exact Hcnt.
    + intros i reply' synth' out' st'' Hi He.
      rewrite ClarificationProps.counter_load in Hcnt.
      apply ClarificationProps.counter_of_num in Hcnt.
      apply ClarificationProps.execute_inv in He as (n & Hn & He).
      rewrite Hi in Hn. rewrite Hcnt in Hn. injection Hn as <-.
      destruct He as [[Hle _]|[(_ & _ & He)|(_ & _ & He)]]; [lia| |].
      * by apply TurnProps.first_interaction_outcome in He as (? & _ & Hf & _).
      * by apply TurnProps.continuing_outcome in He as [Hf _].
  - rewrite Hc, Ht in Hinc. discriminate Hinc.
  - rewrite Hc in Hinc. discriminate Hinc.
Qed.

(** ** Turns in which the reasoning service asks *)

(** The reply asks: it is an object whose is_complete is not true. *)
Definition asks (reply : Clarification.llm_reply) : Prop :=
  exists response,
    reply = Ok (JObj response)
    /\ truthy (get response "is_complete" (JBool false)) = false.

(** A turn for a described feature in which the reasoning service asks. *)
Definition asking (t : turn) : Prop :=
  is_Some (feature_description (t_state t)) /\ asks (t_reply t).

(** Every count of the store is a number below the limit, and every
    stored description can be sliced into a prompt. *)
Definition ready (st : store) : Prop :=
  forall fid,
    (exists n, counter st fid = Some n /\ (n < 5)%Z)
    /\ Clarification.sliceable
         (get (Clarification.load_context st fid) "feature_description" (JStr ""))
       = true.

Lemma ready_empty : ready ∅.
Proof. intros fid. split; [exists 0%Z; split; [reflexivity|lia]|reflexivity]. Qed.

Lemma ready_read st fid :
  ready st ->
  exists n,
    as_num (get (Clarification.load_context st fid) "questions_asked" (JNum 0)) = Ok n
    /\ (n < 5)%Z.
Proof.
  intros Hr. destruct (Hr fid) as [(n & Hc & Hn) _].
  rewrite ClarificationProps.counter_load in Hc.
  exists n. split; [|done].
  by rewrite (ClarificationProps.counter_of_num _ _ Hc).
Qed.

(** Below the limit, the agent answers an asking reply and stays
    incomplete. *)
Lemma execute_asking st i reply synth :
  ready st -> asks reply ->
  exists out st1,
    Clarification.execute st i reply synth = Ok (out, st1)
    /\ truthy (Clarification.out_is_complete out) = false
    /\ (Clarification.conversation_history i <> [] ->
        truthy (Clarification.out_question out) = true).
Proof.
  intros Hr (response & -> & Hic).
  destruct (ready_read st (Clarification.feature_id i) Hr) as (n & Hn & Hlt).
  destruct (Hr (Clarification.feature_id i)) as [_ Hs].
  unfold Clarification.execute. rewrite Hn. simpl.
  assert (E : (5 <=? n)%Z = false) by (apply Z.leb_gt; lia). rewrite E.
  destruct (Clarification.conversation_history i) as [|m h] eqn:Hh.
  - unfold Clarification.first_interaction. simpl. eexists _, _.
    split; [reflexivity|]. by simpl.
  - unfold Clarification.continuing. rewrite Hs. simpl. rewrite !Hic. simpl.
    assert (Hnum : as_num (get (<["is_complete" := JBool false]>
                     (Clarification.load_context st (Clarification.feature_id i)))
                     "questions_asked" (JNum 0)) = Ok n).
    { unfold get. rewrite lookup_insert_ne by done. exact Hn. }
    destruct (truthy (get response "question" JNull)) eqn:Hq; simpl.
    + rewrite ?Hq, ?Hic; simpl. rewrite Hnum. simpl. eexists _, _.
      split; [reflexivity|]. simpl. by rewrite ?Hic, ?Hq.
    + rewrite ?Hq, ?Hic; simpl. rewrite Hnum. simpl. eexists _, _.
      split; [reflexivity|]. simpl. by rewrite ?Hic, ?Hq.
Qed.

Lemma ready_set st fid ctx t :
  ready st ->
  ClarificationProps.counter_of ctx = Some 0%Z ->
  Clarification.sliceable (get ctx "feature_description" (JStr "")) = true ->
  ready (set_feature_context st fid ctx t).
Proof.
  intros Hr Hc Hs g. destruct (decide (fid = g)) as [Heq|Hne].
  - subst g. rewrite ClarificationProps.counter_set_same,
      ClarificationProps.load_context_stored, ClarificationProps.stored_set_same.
    split; [exists 0%Z; split; [done|lia]|done].
  - rewrite ClarificationProps.counter_set_other by done.
    rewrite ClarificationProps.load_context_stored,
      ClarificationProps.stored_set_other by done.
    rewrite <- ClarificationProps.load_context_stored. apply Hr.
Qed.

Lemma set_twice (st : store) fid ctx1 t1 ctx2 t2 :
  set_feature_context (set_feature_context st fid ctx1 t1) fid ctx2 t2
  = set_feature_context st fid ctx2 t2.
Proof.
  unfold Clarification.set_feature_context. apply insert_insert_eq.
Qed.

(** One asking turn of the graph. *)
Lemma feature_graph_asking st t :
  ready st -> asking t ->
  let r := feature_graph st (t_state t) (t_reply t) (t_synth t) in
  truthy (is_complete r.1) = false
  /\ (conversation_history (t_state t) <> [] -> truthy (current_question r.1) = true)
  /\ ready r.2.
Proof.
  intros Hr [[description Hd] Ha]. cbv zeta.
  destruct (execute_asking st (agent_input (t_state t)) (t_reply t) (t_synth t) Hr Ha)
    as (out & st1 & He & Hic & Hq).
  unfold feature_graph.
  destruct (_clarify_node st (t_state t) (t_reply t) (t_synth t))
    as [state' st'] eqn:Hnode.
  apply clarify_node_cases in Hnode as [_ Hcases].
  destruct Hcases as [(out' & st1' & He' & _ & Hc & Hcq & _ & ->)
                     |[(out' & He' & Ht & _)|(e & He' & _)]].
  - rewrite He in He'. injection He' as <- <-.
    rewrite should_continue_complete, Hc, Hic. simpl.
    split; [by rewrite Hc|]. split; [by rewrite Hcq|].
    apply execute_store in He as [ctx ->]. simpl. rewrite set_twice.
    apply ready_set; [done|apply counter_of_context_to_store|].
    rewrite description_of_context_to_store, Hd. reflexivity.
  - rewrite He in He'. injection He' as <- _. rewrite Hic in Ht. discriminate Ht.
  - rewrite He in He'. discriminate He'.
Qed.

(** X9.  The limit of five questions is not reached through the
    workflow.  Starting from a store in which every count is below 5
    (the empty store, for one), take any number of runs of the graph,
    for any features and with any histories, in which the reasoning
    service keeps asking: every run ends without completion, every run
    that answers a conversation under way returns a non-empty question,
    and the store is again one in which every count is below 5.  The
    forced completion of the agent is never triggered, however long the
    list of turns. *)
Theorem limit_is_not_reached_through_workflow (st : store) (turns : list turn) :
  ready st ->
  Forall asking turns ->
  Forall2 (fun t state' =>
             truthy (is_complete state') = false
             /\ (conversation_history (t_state t) <> [] ->
                 truthy (current_question state') = true))
          turns (run_turns st turns).1
  /\ ready (run_turns st turns).2.
Proof.
  intros Hr Hall. revert st Hr.
  induction Hall as [|t turns Ht _ IH]; intros st Hr.
  - simpl. split; [constructor|done].
  - simpl.
    pose proof (feature_graph_asking st t Hr Ht) as H. cbv zeta in H.
    destruct (feature_graph st (t_state t) (t_reply t) (t_synth t))
      as [state' st'].
    simpl in H. destruct H as (Hc & Hq & Hr').
    specialize (IH st' Hr').
    destruct (run_turns st' turns) as [states st'']. simpl in *.
    destruct IH as [IH1 IH2]. split; [|done].
    constructor; [by split|done].
Qed.

(** X10.  A run of the graph that ends as complete has been validated:
    its summary is a non-empty object with the six required fields, and
    the store holds, with a time to live of 86400 seconds, the summary
    merged over the feature's name, description and completion flag; the
    stored document has the six fields, and its flag is true unless the
    summary carries an is_complete of its own. *)
Theorem completed_run_is_validated (st : store) (state : FeatureWorkflowState)
    (reply synth : Clarification.llm_reply) (state' : FeatureWorkflowState)
    (st' : store) :
  feature_graph st state reply synth = (state', st') ->
  truthy (is_complete state') = true ->
  exists summary,
    context_summary state' = JObj summary
    /\ summary <> ∅
    /\ forallb (has_key summary) required_fields = true
    /\ st' !! feature_id state
       = Some {| Clarification.doc := final_context state summary;
                 Clarification.ttl := 86400 |}
    /\ Clarification.has_required_keys (stored st' (feature_id state)) = true
    /\ (summary !! "is_complete" = None ->
        stored st' (feature_id state) !! "is_complete" = Some (JBool true)).
Proof.
  unfold feature_graph.
  destruct (_clarify_node st state reply synth) as [s1 st1] eqn:Hnode.
  rewrite should_continue_complete.
  apply clarify_node_cases in Hnode as [(Hfid & Hname & Hdesc) _].
  destruct (truthy (is_complete s1)) eqn:Hc1.
  - pose proof (check_complete_cases st1 s1) as Hcheck.
    destruct (accepted (context_summary s1)) as [summary|] eqn:Hacc.
    + rewrite Hcheck. intros [= <- <-] _.
      apply accepted_inv in Hacc as (Hs & Ht & Hk).
      assert (Hfinal : final_context s1 summary = final_context state summary).
      { unfold final_context. by rewrite Hname, Hdesc. }
      exists summary. split; [exact Hs|].
      split; [by apply truthy_obj_nonempty|]. split; [exact Hk|].
      rewrite Hfid, Hfinal. split.
      { unfold Clarification.set_feature_context. by rewrite lookup_insert_eq. }
      rewrite ClarificationProps.stored_set_same.
      split; [by apply final_context_has_fields|].
      intros Hnone. unfold final_context. rewrite lookup_union_r by done.
      rewrite !lookup_insert_ne by done. by rewrite lookup_singleton_eq.
    + destruct Hcheck as (question & -> & _). intros [= <- <-] Ht.
      discriminate Ht.
  - intros [= <- <-] Ht. rewrite Hc1 in Ht. discriminate Ht.
Qed.

(** X11.  A run of the graph that answers a conversation under way
    never takes the edge "end": it ends either as complete or with a
    non-empty question to put to the user, whatever the reasoning
    service replies and even when the agent raises. *)
Theorem answered_run_completes_or_asks (st : store) (state : FeatureWorkflowState)
    (reply synth : Clarification.llm_reply) (state' : FeatureWorkflowState)
    (st' : store) :
  feature_graph st state reply synth = (state', st') ->
  conversation_history state <> [] ->
  _should_continue_clarification state' <> "end"
  /\ (truthy (is_complete state') = true
      \/ truthy (current_question state') = true).
Proof.
  intros Hrun Hh.
  assert (Hgoal : truthy (is_complete state') = true
                  \/ truthy (current_question state') = true).
  { revert Hrun. unfold feature_graph.
    destruct (_clarify_node st state reply synth) as [s1 st1] eqn:Hnode.
    rewrite should_continue_complete.
    apply clarify_node_cases in Hnode as [_ Hcases].
    destruct (truthy (is_complete s1)) eqn:Hc1.
    - pose proof (check_complete_cases st1 s1) as Hcheck.
      destruct (accepted (context_summary s1)) as [summary|].
      + rewrite Hcheck. intros [= <- <-]. by left.
      + destruct Hcheck as (question & -> & Hq). intros [= <- <-]. right.
        simpl. by apply truthy_canned.
    - intros [= <- <-]. right.
      destruct Hcases as [(out & st2 & He & Hinc & _ & Hq & _)
                         |[(out & _ & Ht & Hc & _)|(e & _ & Hc & _)]].
      + rewrite Hq.
        destruct (TurnProps.execute_outcome _ _ _ _ _ _ He Hh)
          as [(Ht & _)|(_ & Hqt & _)]; [|exact Hqt].
        rewrite Hinc in Ht. discriminate Ht.
      + rewrite Hc, Ht in Hc1. discriminate Hc1.
      + rewrite Hc in Hc1. discriminate Hc1. }
  split; [|exact Hgoal].
  unfold _should_continue_clarification.
  destruct Hgoal as [-> | Hq]; [done|].
  destruct (truthy (is_complete state')); [done|]. by rewrite Hq.
Qed.

(** X12.  When the agent raises, [_clarify_node] ends the turn as
    complete with the error as question, and [_check_complete_node] then
    judges the summary that the state held before the turn.  If that
    summary is a full one (an earlier turn had completed), the run ends
    as complete, shows the error text, and stores the old summary again
    for 86400 seconds; otherwise the run ends incomplete, the error text
    is replaced by one of the two canned questions, and the store is
    left as it was. *)
Theorem agent_error_in_workflow (st : store) (state : FeatureWorkflowState)
    (reply synth : Clarification.llm_reply) (e : exn)
    (state' : FeatureWorkflowState) (st' : store) :
  Clarification.execute st (agent_input state) reply synth = Raise e ->
  feature_graph st state reply synth = (state', st') ->
  match accepted (context_summary state) with
  | Some summary =>
    is_complete state' = JBool true
    /\ current_question state' = JStr ("Error: " ++ message_of e)
    /\ st' = set_feature_context st (feature_id state)
               (final_context state summary) 86400
  | None =>
    is_complete state' = JBool false
    /\ (current_question state' = JStr missing_aspects
        \/ current_question state' = JStr more_information)
    /\ st' = st
  end.
Proof.
  intros He. unfold feature_graph.
  destruct (_clarify_node st state reply synth) as [s1 st1] eqn:Hnode.
  rewrite should_continue_complete.
  apply clarify_node_cases in Hnode as [(Hfid & Hname & Hdesc) Hcases].
  destruct Hcases as [(out & st2 & He' & _)
                     |[(out & He' & _)|(e' & He' & Hc & Hq & Hs & ->)]].
  - rewrite He in He'. discriminate He'.
  - rewrite He in He'. discriminate He'.
  - rewrite He in He'. injection He' as <-. rewrite Hc. simpl.
    pose proof (check_complete_cases st s1) as Hcheck. rewrite Hs in Hcheck.
    destruct (accepted (context_summary state)) as [summary|].
    + rewrite Hcheck. intros [= <- <-]. split; [exact Hc|]. split; [exact Hq|].
      unfold final_context. by rewrite Hfid, Hname, Hdesc.
    + destruct Hcheck as (question & -> & Hcanned). intros [= <- <-]. simpl.
      split; [done|]. split; [|done]. destruct Hcanned as [-> | ->]; auto.
Qed.

(** ** A conversation about a login feature *)

Definition answering : FeatureWorkflowState :=
  {| feature_id := 1; feature_name := Some "Login";
     feature_description := Some "Users sign in with e-mail";
     user_response := Some "Customers";
     conversation_history :=
       [ {| Clarification.role := "user"; Clarification.content := JStr "Feature: Login" |};
         {| Clarification.role := "assistant";
            Clarification.content := JStr "Who signs in?" |} ];
     current_question := JStr "Who signs in?";
     is_complete := JBool false;
     context_summary := JNull;
     workflow_id := Some "feature_1_0" |}.

Definition asking_turn : turn :=
  {| t_state := answering; t_reply := ClarificationProps.asks;
     t_synth := ClarificationProps.no_reply |}.

Lemma asking_turn_asks : asking asking_turn.
Proof.
  split; [by eexists|]. eexists. split; [reflexivity|].
  vm_compute. reflexivity.
Qed.

Lemma unfinished_turn_forgets_count_witness :
  counter (_clarify_node ∅ answering ClarificationProps.asks
             ClarificationProps.no_reply).2 1 = Some 0%Z.
Proof.
  destruct (_clarify_node ∅ answering ClarificationProps.asks
              ClarificationProps.no_reply) as [s' st'] eqn:Hn.
  assert (Hc : truthy (is_complete s') = false).
  { vm_compute in Hn. by injection Hn as <- _. }
  exact (proj1 (proj2 (proj2 (unfinished_turn_forgets_count _ _ _ _ _ _ Hn Hc)))).
Defined.

Lemma limit_is_not_reached_through_workflow_witness :
  Forall2 (fun t state' =>
             truthy (is_complete state') = false
             /\ (conversation_history (t_state t) <> [] ->
                 truthy (current_question state') = true))
          (replicate 7 asking_turn) (run_turns ∅ (replicate 7 asking_turn)).1
  /\ ready (run_turns ∅ (replicate 7 asking_turn)).2.
Proof.
  apply limit_is_not_reached_through_workflow; [exact ready_empty|].
  simpl. repeat (constructor; [exact asking_turn_asks|]). constructor.
Defined.

Lemma completed_run_is_validated_witness :
  Clarification.ttl <$>
    (feature_graph ∅ answering ClarificationProps.completes_fully
       ClarificationProps.no_reply).2 !! 1%Z
  = Some 86400%Z.
Proof.
  destruct (feature_graph ∅ answering ClarificationProps.completes_fully
              ClarificationProps.no_reply) as [s' st'] eqn:Hrun.
  assert (Hc : truthy (is_complete s') = true).
  { vm_compute in Hrun. by injection Hrun as <- _. }
  destruct (completed_run_is_validated _ _ _ _ _ _ Hrun Hc)
    as (summary & _ & _ & _ & Hst & _).
  change (feature_id answering) with 1%Z in Hst. simpl. rewrite Hst. reflexivity.
Defined.

Lemma answered_run_completes_or_asks_witness :
  _should_continue_clarification
    (feature_graph ∅ answering (Ok (JObj ∅)) ClarificationProps.no_reply).1 <> "end"
  /\ (truthy (is_complete
                (feature_graph ∅ answering (Ok (JObj ∅)) ClarificationProps.no_reply).1)
      = true
      \/ truthy (current_question
                   (feature_graph ∅ answering (Ok (JObj ∅)) ClarificationProps.no_reply).1)
         = true).
Proof.
  destruct (feature_graph ∅ answering (Ok (JObj ∅)) ClarificationProps.no_reply)
    as [s' st'] eqn:Hrun.
  apply (answered_run_completes_or_asks _ _ _ _ _ _ Hrun). discriminate.
Defined.

Lemma agent_error_in_workflow_witness :
  is_complete (feature_graph ∅ answering ClarificationProps.no_reply
                 ClarificationProps.no_reply).1 = JBool false
  /\ current_question (feature_graph ∅ answering ClarificationProps.no_reply
                         ClarificationProps.no_reply).1 = JStr more_information.
Proof.
  destruct (feature_graph ∅ answering ClarificationProps.no_reply
              ClarificationProps.no_reply) as [s' st'] eqn:Hrun.
  assert (He : Clarification.execute ∅ (agent_input answering)
                 ClarificationProps.no_reply ClarificationProps.no_reply
               = Raise ReasoningError) by (vm_compute; reflexivity).
  pose proof (agent_error_in_workflow _ _ _ _ _ _ _ He Hrun) as H.
  change (accepted (context_summary answering)) with (@None dict) in H.
  destruct H as (Hc & [Hq|Hq] & _).
  - assert (Hq' : current_question s' = JStr more_information).
    { vm_compute in Hrun. by injection Hrun as <- _. }
    split; [exact Hc|exact Hq'].
  - split; [exact Hc|exact Hq].
Defined.

End WorkflowProps.

(* ===================================================================== *)
(** ** Capacity, load and the report of the AssignmentEngine *)
(* ===================================================================== *)

Module TeamLoadProps.
Import Py PyProps Assignment SortingProps AssignmentProps TeamLoad.
#[local] Open Scope Q_scope.

(** *** Sums *)

Lemma foldl_Qplus (a : Q) (l : list Q) : foldl Qplus a l == a + qsum l.
Proof.
  unfold qsum. revert a. induction l as [|x l IH]; intros a; simpl.
  - ring.
  - rewrite (IH (a + x)), (IH (0 + x)). ring.
Qed.

Lemma qsum_cons (x : Q) (l : list Q) : qsum (x :: l) == x + qsum l.
Proof.
  unfold qsum at 1. simpl. rewrite foldl_Qplus. ring.
Qed.

Lemma qsum_nil : qsum [] == 0.
Proof. reflexivity. Qed.

Lemma qsum_app (l1 l2 : list Q) : qsum (l1 ++ l2) == qsum l1 + qsum l2.
Proof.
  induction l1 as [|x l1 IH]; simpl.
  - rewrite qsum_nil. ring.
  - rewrite !qsum_cons, IH. ring.
Qed.

Lemma qsum_perm (l1 l2 : list Q) : Permutation l1 l2 -> qsum l1 == qsum l2.
Proof.
  induction 1 as [|x l1 l2 _ IH|x y l|l1 l2 l3 _ IH1 _ IH2].
  - reflexivity.
  - by rewrite !qsum_cons, IH.
  - rewrite !qsum_cons. ring.
  - by rewrite IH1.
Qed.

Lemma qsum_insert {A} (f : A -> Q) (l : list A) (i : nat) (x y : A) :
  l !! i = Some x ->
  qsum (map f (<[i := y]> l)) == qsum (map f l) - f x + f y.
Proof.
  revert i. induction l as [|z l IH]; intros [|i] H; simpl in H; try done.
  - injection H as ->. simpl. rewrite !qsum_cons. ring.
  - simpl. rewrite !qsum_cons, (IH i H). ring.
Qed.

(** *** [_calculate_effective_capacity] *)







(** *** One step of the loop of [_assign_stories] *)

(** [m'] is [m] with another load and effective capacity. *)
Definition same_person (m m' : member) : Prop :=
  name m' = name m /\ email m' = email m /\ member_id m' = member_id m
  /\ job_title m' = job_title m /\ skills m' = skills m
  /\ experience_level m' = experience_level m
  /\ max_capacity m' = max_capacity m.

(** The two ways in which a story gets its assignee. *)
Inductive way := BestMatch | Fallback.

(** The step for story [s] on [team] gave the story to the member [m]
    at position [i], who is [m'] afterwards. *)
Record given (idx : nat) (s : story) (team : list member) (w : way)
    (i : nat) (m m' : member) : Prop := {
  given_member : team !! i = Some m;
  given_team : (assign_one idx s team).2 = <[i := m']> team;
  given_person : same_person m m';
  given_load : current_load m' = current_load m + story_points s;
  given_assignee : assignee (assign_one idx s team).1 = Some (name m);
  given_email : assignee_email (assign_one idx s team).1 = Some (email m);
  given_way :
    match w with
    | BestMatch =>
      _find_best_assignee team
        (_extract_required_skills (title s) (description s)) (story_points s)
      = Some (i, confidence (assign_one idx s team).1)
      /\ passes_checks m (story_points s) = true
      /\ effective_capacity m' = effective_capacity m - story_points s
    | Fallback =>
      _find_best_assignee team
        (_extract_required_skills (title s) (description s)) (story_points s)
      = None
      /\ least_loaded team = Some i
      /\ (forall j m0, team !! j = Some m0 -> current_load m <= current_load m0)
      /\ confidence (assign_one idx s team).1 = 3 # 10
      /\ effective_capacity m' = qmax 0 (effective_capacity m - story_points s)
    end
}.

Lemma assign_one_empty idx s :
  assignee (assign_one idx s []).1 = None /\ (assign_one idx s []).2 = [].
Proof. by unfold assign_one. Qed.

Lemma assign_one_given idx s team :
  team <> [] -> exists w i m m', given idx s team w i m m'.
Proof.
  intros Hne.
  destruct (_find_best_assignee team
              (_extract_required_skills (title s) (description s)) (story_points s))
    as [[i c]|] eqn:Hb.
  - pose proof (find_best_assignee_in_range _ _ _ _ _ Hb) as (m & Hm & Hp & Hc).
    exists BestMatch, i, m,
      (set_load m (effective_capacity m - story_points s)
                  (current_load m + story_points s)).
    split; try unfold assign_one; rewrite ?Hb, ?Hm; simpl; try done.
  - destruct (least_loaded_spec team Hne) as (i & m & Hl & Hm & Hmin).
    exists Fallback, i, m,
      (set_load m (qmax 0 (effective_capacity m - story_points s))
                  (current_load m + story_points s)).
    split; try unfold assign_one; rewrite ?Hb, ?Hl, ?Hm; simpl; try done.
Qed.

Lemma same_person_insert {A} (f : member -> A) (team : list member) i m m' :
  team !! i = Some m -> f m' = f m -> map f (<[i := m']> team) = map f team.
Proof.
  intros Hm Hf. change (map f) with (fmap (M := list) f).
  rewrite list_fmap_insert, Hf. apply list_insert_id.
  by rewrite list_lookup_fmap, Hm.
Qed.

(** An invariant of the step is an invariant of the loop. *)
Lemma assign_from_invariant (P : list member -> Prop) :
  (forall idx s team, P team -> P (assign_one idx s team).2) ->
  forall stories idx team, P team -> P (assign_from idx stories team).2.
Proof.
  intros Hstep. induction stories as [|s rest IH]; intros idx team HP; [done|].
  simpl. specialize (Hstep idx s team HP).
  destruct (assign_one idx s team) as [a team']. simpl in Hstep.
  specialize (IH (S idx) team' Hstep).
  by destruct (assign_from (S idx) rest team') as [asg team''].
Qed.

Lemma assign_one_keeps {A} (f : member -> A) idx s team :
  (forall m m', same_person m m' -> f m' = f m) ->
  map f (assign_one idx s team).2 = map f team.
Proof.
  intros Hf. destruct team as [|m0 rest] eqn:Ht.
  - by rewrite (proj2 (assign_one_empty idx s)).
  - rewrite <- Ht. assert (Hne : team <> []) by (by rewrite Ht).
    destruct (assign_one_given idx s team Hne) as (w & i & m & m' & [Hm -> Hp _ _ _ _]).
    eapply same_person_insert; [done|]. by apply Hf.
Qed.

Lemma assign_from_keeps {A} (f : member -> A) stories idx team :
  (forall m m', same_person m m' -> f m' = f m) ->
  map f (assign_from idx stories team).2 = map f team.
Proof.
  intros Hf.
  apply (assign_from_invariant (fun t => map f t = map f team));
    [|done].
  intros idx' s t Ht. by rewrite assign_one_keeps.
Qed.

Lemma assign_one_loads idx s team :
  team <> [] ->
  qsum (map current_load (assign_one idx s team).2)
  == qsum (map current_load team) + story_points s.
Proof.
  intros Hne.
  destruct (assign_one_given idx s team Hne) as (w & i & m & m' & [Hm -> _ Hl _ _ _]).
  rewrite (qsum_insert current_load team i m m' Hm), Hl. ring.
Qed.

Lemma assign_one_length idx s team :
  length (assign_one idx s team).2 = length team.
Proof. apply assign_one_describes. Qed.

Lemma assign_from_length stories idx team :
  length (assign_from idx stories team).2 = length team.
Proof.
  apply (assign_from_invariant (fun t => length t = length team)); [|done].
  intros idx' s t Ht. by rewrite assign_one_length.
Qed.

Lemma assign_from_loads stories : forall idx team,
  team <> [] ->
  qsum (map current_load (assign_from idx stories team).2)
  == qsum (map current_load team) + qsum (map story_points stories).
Proof.
  induction stories as [|s rest IH]; intros idx team Hne; simpl.
  - rewrite qsum_nil. ring.
  - pose proof (assign_one_loads idx s team Hne) as H1.
    pose proof (assign_one_length idx s team) as Hlen.
    destruct (assign_one idx s team) as [a team']. simpl in H1, Hlen.
    assert (Hne' : team' <> []).
    { intros ->. destruct team; [done|discriminate]. }
    specialize (IH (S idx) team' Hne').
    destruct (assign_from (S idx) rest team') as [asg team'']. simpl in *.
    rewrite IH, H1, qsum_cons. ring.
Qed.

Lemma assign_one_capacity idx s team :
  Forall (fun m => 0 <= effective_capacity m) team ->
  Forall (fun m => 0 <= effective_capacity m) (assign_one idx s team).2.
Proof.
  intros Hall. destruct team as [|m0 rest] eqn:Ht.
  - by rewrite (proj2 (assign_one_empty idx s)).
  - rewrite <- Ht in *. assert (Hne : team <> []) by (by rewrite Ht).
    destruct (assign_one_given idx s team Hne)
      as (w & i & m & m' & [Hm -> _ _ _ _ Hw]).
    apply Forall_insert; [done|].
    destruct w.
    + destruct Hw as (_ & Hp & ->). apply passes_checks_iff in Hp as [_ Hp]. lra.
    + destruct Hw as (_ & _ & _ & _ & ->). unfold qmax.
      destruct (Qlt_bool 0 _) eqn:E; [|apply Qle_refl].
      apply Qlt_bool_iff in E. lra.
Qed.

(** X14.  What a run of [_assign_stories] does to the team.  The sorted
    team keeps its members and their order: names, e-mails, skills and
    maximal capacities are as before, only loads and effective capacities
    change.  On a team that is not empty the loads grow by exactly the
    points of the stories, all of them: the sum of the loads afterwards
    is the sum before plus the sum of the story points.  Effective
    capacities that were not negative before are not negative
    afterwards. *)
Theorem assigned_points_are_conserved (stories : list story) (team : list member) :
  let sorted_team := sorted effective_capacity true team in
  let team' := (_assign_stories stories team).2 in
  map name team' = map name sorted_team
  /\ map email team' = map email sorted_team
  /\ map max_capacity team' = map max_capacity sorted_team
  /\ Permutation sorted_team team
  /\ (team <> [] ->
      qsum (map current_load team')
      == qsum (map current_load team) + qsum (map story_points stories))
  /\ (Forall (fun m => 0 <= effective_capacity m) team ->
      Forall (fun m => 0 <= effective_capacity m) team').
Proof.
  cbv zeta. unfold _assign_stories.
  pose proof (sorted_perm effective_capacity true team) as Hperm.
  split; [apply assign_from_keeps; by intros m m' (? & _)|].
  split; [apply assign_from_keeps; by intros m m' (_ & ? & _)|].
  split; [apply assign_from_keeps; by intros m m' (_ & _ & _ & _ & _ & _ & ?)|].
  split; [by symmetry|]. split.
  - intros Hne. rewrite assign_from_loads by (by eapply nonempty_perm).
    rewrite (qsum_perm (map current_load (sorted effective_capacity true team))
                       (map current_load team)); [reflexivity|].
    apply Permutation_map. by symmetry.
  - intros Hall.
    apply (assign_from_invariant (Forall (fun m => 0 <= effective_capacity m))).
    + intros idx s t. apply assign_one_capacity.
    + by rewrite <- Hperm.
Qed.

(** X15.  A best-match assignment stays within the limits: the member
    it goes to passed both checks, so after the story is added the load
    of that member is at most 5 points and the effective capacity left
    is not negative; nobody else on the team is changed. *)
Theorem best_match_stays_within_limits (idx : nat) (s : story)
    (team : list member) (i : nat) (c : Q) :
  _find_best_assignee team
    (_extract_required_skills (title s) (description s)) (story_points s)
  = Some (i, c) ->
  exists m m',
    team !! i = Some m
    /\ (assign_one idx s team).2 = <[i := m']> team
    /\ assignee (assign_one idx s team).1 = Some (name m)
    /\ confidence (assign_one idx s team).1 = c
    /\ current_load m' = current_load m + story_points s
    /\ current_load m' <= MAX_STORY_POINTS_PER_PERSON
    /\ effective_capacity m' = effective_capacity m - story_points s
    /\ 0 <= effective_capacity m'.
Proof.
  intros Hb.
  pose proof (find_best_assignee_in_range _ _ _ _ _ Hb) as (m & Hm & Hp & Hc).
  exists m, (set_load m (effective_capacity m - story_points s)
                        (current_load m + story_points s)).
  unfold assign_one. rewrite Hb, Hm. simpl.
  apply passes_checks_iff in Hp as [Hp1 Hp2].
  repeat split; try done.
  unfold MAX_STORY_POINTS_PER_PERSON. lra.
Qed.

(** X16.  A story of more than 5 points never finds a best match on a
    team whose loads are not negative, whatever the skills: it goes to
    the first member of least load (the fallback), with confidence 0.3,
    and takes that member above the limit of 5 points. *)
Theorem oversized_story_falls_back (idx : nat) (s : story) (team : list member) :
  team <> [] ->
  Forall (fun m => 0 <= current_load m) team ->
  5 < story_points s ->
  exists i m m',
    least_loaded team = Some i
    /\ team !! i = Some m
    /\ (forall j m0, team !! j = Some m0 -> current_load m <= current_load m0)
    /\ (assign_one idx s team).2 = <[i := m']> team
    /\ assignee (assign_one idx s team).1 = Some (name m)
    /\ confidence (assign_one idx s team).1 = 3 # 10
    /\ current_load m' = current_load m + story_points s
    /\ MAX_STORY_POINTS_PER_PERSON < current_load m'.
Proof.
  intros Hne Hloads Hbig.
  assert (Hnone : _find_best_assignee team
                    (_extract_required_skills (title s) (description s))
                    (story_points s) = None).
  { apply find_best_assignee_none. intros j m Hj.
    destruct (passes_checks m (story_points s)) eqn:Hp; [|done].
    apply passes_checks_iff in Hp as [Hp _].
    rewrite Forall_forall in Hloads.
    assert (0 <= current_load m) by (apply Hloads; by eapply list_elem_of_lookup_2).
    lra. }
  destruct (assign_one_given idx s team Hne)
    as (w & i & m & m' & [Hm Ht _ Hl Ha _ Hw]).
  destruct w.
  - destruct Hw as (Hsome & _). rewrite Hnone in Hsome. discriminate Hsome.
  - destruct Hw as (_ & Hleast & Hmin & Hc & _).
    exists i, m, m'. repeat split; try done.
    rewrite Hl. unfold MAX_STORY_POINTS_PER_PERSON.
    rewrite Forall_forall in Hloads.
    assert (0 <= current_load m) by (apply Hloads; by eapply list_elem_of_lookup_2).
    lra.
Qed.

(** *** The dictionary of member loads *)

Definition keys {V} (d : list (string * V)) : list string := map fst d.

Lemma eqb_false (a b : string) : a <> b -> String.eqb a b = false.
Proof. intros H. by apply String.eqb_neq. Qed.

Lemma dict_set_fresh {V} (k : string) (v : V) (d : list (string * V)) :
  k ∉ keys d -> dict_set k v d = d ++ [(k, v)].
Proof.
  induction d as [|[k0 v0] d IH]; intros Hk; simpl; [done|].
  unfold keys in Hk. simpl in Hk. apply not_elem_of_cons in Hk as [Hne Hk].
  rewrite eqb_false by done. by rewrite IH.
Qed.

Lemma dict_get_Some {V} (k : string) (d : list (string * V)) :
  k ∈ keys d -> exists v, dict_get k d = Some v.
Proof.
  induction d as [|[k0 v0] d IH]; intros Hk; simpl.
  - by apply elem_of_nil in Hk.
  - destruct (String.eqb k0 k) eqn:E; [by eexists|].
    unfold keys in Hk. simpl in Hk. apply elem_of_cons in Hk as [->|Hk].
    + by rewrite String.eqb_refl in E.
    + by apply IH.
Qed.

(** The entry of a member, before the assignments are counted. *)
Definition info_of (m : member) : load_info :=
  {| li_current_load := current_load m;
     li_max_capacity := max_capacity m;
     load_percentage := current_load m / max_capacity m * 100;
     assigned_stories := 0 |}.

Lemma load_members_none team : forall loads,
  load_members team loads = None <-> Exists (fun m => max_capacity m == 0) team.
Proof.
  induction team as [|m team IH]; intros loads; simpl.
  - split; [done|]. intros H. by apply Exists_nil in H.
  - destruct (Qeq_bool (max_capacity m) 0) eqn:E.
    + apply Qeq_bool_iff in E. split; [|done]. intros _. by constructor.
    + rewrite IH. split; [by apply Exists_cons_tl|].
      intros H. apply Exists_cons in H as [H|H]; [|done].
      apply Qeq_bool_iff in H. congruence.
Qed.

Lemma load_members_fresh team : forall loads,
  load_members team loads <> None ->
  NoDup (map name team) ->
  (forall m, m ∈ team -> name m ∉ keys loads) ->
  load_members team loads
  = Some (loads ++ map (fun m => (name m, info_of m)) team).
Proof.
  induction team as [|m team IH]; intros loads Hsome Hdup Hfresh; simpl in *.
  - by rewrite app_nil_r.
  - destruct (Qeq_bool (max_capacity m) 0); [done|].
    apply NoDup_cons in Hdup as [Hm Hdup].
    rewrite dict_set_fresh in Hsome |- * by (apply Hfresh; by left).
    rewrite IH; [by rewrite <- app_assoc|done|done|].
    intros m' Hm'. unfold keys. rewrite map_app. simpl.
    rewrite elem_of_app, list_elem_of_singleton. intros [H|H].
    + by apply (Hfresh m'); [right|].
    + apply Hm. rewrite <- H. change (name m' ∈ name <$> team).
      by apply list_elem_of_fmap_2.
Qed.

(** The name, load and capacity of every entry. *)
Definition figures (d : member_loads) : list (string * (Q * Q)) :=
  map (fun kv => (kv.1, (li_current_load kv.2, li_max_capacity kv.2))) d.

(** The assignments counted in the dictionary. *)
Definition stories_counted (d : member_loads) : nat :=
  foldr (fun kv n => (assigned_stories kv.2 + n)%nat) 0%nat d.

Lemma stories_counted_fresh (l : list member) :
  stories_counted (map (fun m => (name m, info_of m)) l) = 0%nat.
Proof. induction l as [|m l IH]; simpl; [done|exact IH]. Qed.

Lemma dict_set_counted k v (d : member_loads) :
  dict_get k d = Some v ->
  let v' := {| li_current_load := li_current_load v;
               li_max_capacity := li_max_capacity v;
               load_percentage := load_percentage v;
               assigned_stories := S (assigned_stories v) |} in
  figures (dict_set k v' d) = figures d
  /\ stories_counted (dict_set k v' d) = S (stories_counted d).
Proof.
  cbv zeta. induction d as [|[k0 v0] d IH]; simpl; [done|].
  destruct (String.eqb k0 k) eqn:E.
  - intros [= ->]. by simpl.
  - intros H. destruct (IH H) as [IH1 IH2]. simpl. rewrite IH1, IH2.
    split; [done|lia].
Qed.

Lemma count_assignment_figures d a :
  figures (count_assignment d a) = figures d.
Proof.
  unfold count_assignment. destruct (assignee a) as [n|]; [|done].
  destruct (negb (String.eqb n "")); [|done].
  destruct (dict_get n d) as [v|] eqn:E; [|done].
  by apply dict_set_counted.
Qed.

Lemma keys_figures (d : member_loads) : keys d = map fst (figures d).
Proof.
  unfold keys, figures. rewrite map_map. reflexivity.
Qed.

Lemma count_assignment_counted d a n :
  assignee a = Some n -> n <> "" -> n ∈ keys d ->
  stories_counted (count_assignment d a) = S (stories_counted d).
Proof.
  intros Ha Hn Hk. unfold count_assignment. rewrite Ha.
  rewrite eqb_false by done. simpl.
  destruct (dict_get_Some n d Hk) as [v Hv]. rewrite Hv.
  by apply dict_set_counted.
Qed.

Lemma foldl_count_figures assignments : forall d,
  figures (foldl count_assignment d assignments) = figures d.
Proof.
  induction assignments as [|a rest IH]; intros d; simpl; [done|].
  by rewrite IH, count_assignment_figures.
Qed.

Lemma foldl_count_counted assignments : forall d,
  Forall (fun a => exists n, assignee a = Some n /\ n <> "" /\ n ∈ keys d)
         assignments ->
  stories_counted (foldl count_assignment d assignments)
  = (stories_counted d + length assignments)%nat.
Proof.
  induction assignments as [|a rest IH]; intros d Hall; simpl; [lia|].
  apply Forall_cons in Hall as [(n & Ha & Hn & Hk) Hall].
  rewrite IH.
  - rewrite (count_assignment_counted d a n) by done. lia.
  - eapply Forall_impl; [exact Hall|]. intros a' (n' & Ha' & Hn' & Hk').
    exists n'. split; [done|]. split; [done|].
    by rewrite keys_figures, count_assignment_figures, <- keys_figures.
Qed.

(** *** The team in its own order *)

Lemma sorted_order_length (team : list member) :
  length (sorted_order team) = length team.
Proof.
  unfold sorted_order. rewrite length_map.
  rewrite <- (Permutation_length
                (sorted_perm (fun im : nat * member => effective_capacity im.2) true
                   (imap (fun i m => (i, m)) team))).
  apply length_imap.
Qed.

Lemma in_own_order_perm (order : list nat) (l : list member) :
  length order = length l -> Permutation (in_own_order order l) l.
Proof.
  intros Hlen. unfold in_own_order.
  rewrite <- (sorted_perm (fun im : nat * member => of_nat im.1) false (zip order l)).
  change (map snd (zip order l)) with ((zip order l).*2).
  rewrite snd_zip by lia. done.
Qed.

(** The team that [execute] hands to [_calculate_team_load]. *)
Definition team_after (stories : list story) (team : list member) : list member :=
  let team_with_capacity := _calculate_effective_capacity team in
  in_own_order (sorted_order team_with_capacity)
    (_assign_stories (_prioritize_stories stories) team_with_capacity).2.

Lemma calculate_keeps {A} (f : member -> A) (team : list member) :
  (forall m eff ratio, f (set_capacity m eff ratio) = f m) ->
  map f (_calculate_effective_capacity team) = map f team.
Proof.
  intros Hf. unfold _calculate_effective_capacity. rewrite map_map.
  apply map_ext. intros m. apply Hf.
Qed.

Lemma team_after_perm stories team :
  Permutation (team_after stories team)
    (_assign_stories (_prioritize_stories stories)
       (_calculate_effective_capacity team)).2.
Proof.
  unfold team_after. cbv zeta. apply in_own_order_perm.
  rewrite sorted_order_length. unfold _assign_stories.
  rewrite assign_from_length.
  by rewrite <- (Permutation_length (sorted_perm effective_capacity true _)).
Qed.

(** A field that assignment leaves alone has, over the team after the
    run, the values it had over the team before, in some order. *)
Lemma team_after_keeps {A} (f : member -> A) stories team :
  (forall m eff ratio, f (set_capacity m eff ratio) = f m) ->
  (forall m m', same_person m m' -> f m' = f m) ->
  Permutation (map f (team_after stories team)) (map f team).
Proof.
  intros Hc Hp.
  rewrite (Permutation_map f (team_after_perm stories team)).
  unfold _assign_stories. rewrite assign_from_keeps by done.
  rewrite <- (Permutation_map f (sorted_perm effective_capacity true _)).
  by rewrite calculate_keeps.
Qed.

Lemma team_after_length stories team :
  length (team_after stories team) = length team.
Proof.
  rewrite <- (length_map (fun _ => tt) (team_after stories team)).
  rewrite (Permutation_length
             (team_after_keeps (fun _ => tt) stories team
                ltac:(done) ltac:(done))).
  apply length_map.
Qed.

Lemma team_after_loads stories team :
  team <> [] ->
  qsum (map current_load (team_after stories team))
  == qsum (map current_load team) + qsum (map story_points stories).
Proof.
  intros Hne.
  rewrite (qsum_perm _ _ (Permutation_map current_load (team_after_perm stories team))).
  unfold _assign_stories.
  assert (Hne' : _calculate_effective_capacity team <> []).
  { intros H. apply (f_equal length) in H.
    unfold _calculate_effective_capacity in H. rewrite length_map in H.
    destruct team; [done|discriminate]. }
  rewrite assign_from_loads
    by (eapply nonempty_perm; [apply sorted_perm|exact Hne']).
  rewrite <- (qsum_perm _ _ (Permutation_map current_load
                               (sorted_perm effective_capacity true _))).
  rewrite (calculate_keeps current_load) by done.
  unfold _prioritize_stories.
  rewrite <- (qsum_perm _ _ (Permutation_map story_points
                               (sorted_perm priority_score false stories))).
  reflexivity.
Qed.

(** [execute], by its parts. *)
Lemma execute_parts stories team sprint_capacity :
  TeamLoad.execute stories team sprint_capacity
  = match _calculate_team_load (Assignment.execute stories team)
            (team_after stories team) with
    | None => None
    | Some load =>
      Some {| assignments := Assignment.execute stories team;
              unassigned_stories := unassigned stories (Assignment.execute stories team);
              load := load;
              warnings := _generate_warnings load sprint_capacity
                            (Assignment.execute stories team) |}
    end.
Proof.
  unfold TeamLoad.execute, Assignment.execute, team_after. cbv zeta.
  by destruct (_assign_stories (_prioritize_stories stories)
                 (_calculate_effective_capacity team)) as [asg sorted_team].
Qed.

(** X17.  [execute] fails, with the ZeroDivisionError of
    [_calculate_team_load], exactly when some member of the team has a
    max_capacity of 0, although [_calculate_effective_capacity] has a
    guard for that case; the stories and the sprint capacity play no
    part in it.  With no such member, [execute] returns its report. *)
Theorem zero_capacity_fails_the_report (stories : list story) (team : list member)
    (sprint_capacity : option Q) :
  TeamLoad.execute stories team sprint_capacity = None
  <-> Exists (fun m => max_capacity m == 0) team.
Proof.
  rewrite execute_parts. unfold _calculate_team_load.
  pose proof (load_members_none (team_after stories team) []) as Hnone.
  pose proof (team_after_keeps max_capacity stories team
                ltac:(done) ltac:(by intros m m' (_ & _ & _ & _ & _ & _ & ?)))
    as Hperm.
  assert (Hex : Exists (fun m => max_capacity m == 0) (team_after stories team)
                <-> Exists (fun m => max_capacity m == 0) team).
  { rewrite !Exists_exists. split.
    - intros (m & Hm & Hz).
      assert (Hin : max_capacity m ∈ map max_capacity team).
      { rewrite <- Hperm. change (max_capacity m ∈ max_capacity <$> team_after stories team).
        by apply list_elem_of_fmap_2. }
      change (max_capacity m ∈ max_capacity <$> team) in Hin.
      apply list_elem_of_fmap in Hin as (m' & Heq & Hm'). exists m'.
      split; [done|]. by rewrite <- Heq.
    - intros (m & Hm & Hz).
      assert (Hin : max_capacity m ∈ map max_capacity (team_after stories team)).
      { rewrite Hperm. change (max_capacity m ∈ max_capacity <$> team).
        by apply list_elem_of_fmap_2. }
      change (max_capacity m ∈ max_capacity <$> team_after stories team) in Hin.
      apply list_elem_of_fmap in Hin as (m' & Heq & Hm'). exists m'.
      split; [done|]. by rewrite <- Heq. }
  rewrite <- Hex, <- Hnone.
  destruct (load_members (team_after stories team) []); split; done.
Qed.

(** *** The assignments of a run *)

Lemma assign_one_story_id idx s team :
  story_id (assign_one idx s team).1 = story_identifier idx s.
Proof.
  unfold assign_one, story_identifier.
  destruct (_find_best_assignee _ _ _) as [[i c]|].
  - by destruct (team !! i).
  - destruct (least_loaded team) as [i|]; [|done]. by destruct (team !! i).
Qed.

Lemma assign_from_ids stories : forall idx team,
  map story_id (assign_from idx stories team).1
  = imap (fun k s => story_identifier (idx + k) s) stories.
Proof.
  induction stories as [|s rest IH]; intros idx team; simpl; [done|].
  pose proof (assign_one_story_id idx s team) as Hid.
  destruct (assign_one idx s team) as [a team']. simpl in Hid.
  specialize (IH (S idx) team').
  destruct (assign_from (S idx) rest team') as [asg team'']. simpl in *.
  rewrite Hid, IH, Nat.add_0_r. f_equal.
  apply imap_ext. intros k s' _. simpl. f_equal. lia.
Qed.

Lemma assign_from_names stories : forall idx team,
  team <> [] ->
  Forall (fun a => exists n, assignee a = Some n /\ n ∈ map name team)
         (assign_from idx stories team).1.
Proof.
  induction stories as [|s rest IH]; intros idx team Hne; simpl; [constructor|].
  pose proof (assign_one_keeps name idx s team ltac:(by intros m m' (? & _))) as Hn.
  pose proof (assign_one_length idx s team) as Hlen.
  destruct (assign_one_given idx s team Hne)
    as (w & i & m & m' & [Hm _ _ _ Ha _ _]).
  destruct (assign_one idx s team) as [a team']. simpl in *.
  assert (Hne' : team' <> []).
  { intros ->. destruct team; [done|discriminate]. }
  specialize (IH (S idx) team' Hne'). rewrite Hn in IH.
  destruct (assign_from (S idx) rest team') as [asg team'']. simpl in *.
  constructor; [|done]. exists (name m). split; [done|].
  change (name m ∈ name <$> team). apply list_elem_of_fmap_2.
  by eapply list_elem_of_lookup_2.
Qed.

Lemma assign_from_nobody stories : forall idx,
  Forall (fun a => assignee a = None) (assign_from idx stories []).1.
Proof.
  induction stories as [|s rest IH]; intros idx; simpl; [constructor|].
  specialize (IH (S idx)).
  destruct (assign_from (S idx) rest []) as [asg team'']. simpl in *.
  by constructor.
Qed.

Lemma execute_length stories team :
  length (Assignment.execute stories team) = length stories.
Proof.
  unfold Assignment.execute, _assign_stories.
  rewrite <- (Forall2_length _ _ _ (assign_from_describes _ _ _)).
  unfold _prioritize_stories.
  by rewrite <- (Permutation_length (sorted_perm priority_score false stories)).
Qed.

Lemma sorted_capacity_names team :
  Permutation (map name (sorted effective_capacity true
                           (_calculate_effective_capacity team)))
              (map name team).
Proof.
  rewrite <- (Permutation_map name (sorted_perm effective_capacity true _)).
  by rewrite calculate_keeps.
Qed.

Lemma execute_names stories team :
  team <> [] ->
  Forall (fun a => exists n, assignee a = Some n /\ n ∈ map name team)
         (Assignment.execute stories team).
Proof.
  intros Hne. unfold Assignment.execute, _assign_stories.
  assert (Hne' : sorted effective_capacity true (_calculate_effective_capacity team)
                 <> []).
  { intros H. pose proof (sorted_capacity_names team) as Hp. rewrite H in Hp.
    simpl in Hp. symmetry in Hp. apply Permutation_nil_r in Hp.
    destruct team; [done|discriminate]. }
  eapply Forall_impl; [apply (assign_from_names _ 0%nat _ Hne')|].
  intros a (n & Ha & Hn). exists n. split; [done|].
  by rewrite <- (sorted_capacity_names team).
Qed.

(** X18.  The team load of the report adds up.  For a team of members
    with distinct names: the total load is the load the team came with
    plus the points of all stories, whoever got them; the total capacity
    is the sum of the maximal capacities; the team size is the number
    of members; the dictionary has one entry per member; and, when no
    name is empty, the stories counted in the entries are all the
    stories. *)
Theorem team_load_adds_up (stories : list story) (team : list member)
    (sprint_capacity : option Q) (r : report) :
  TeamLoad.execute stories team sprint_capacity = Some r ->
  NoDup (map name team) ->
  team <> [] ->
  total_load (load r)
  == qsum (map current_load team) + qsum (map story_points stories)
  /\ total_capacity (load r) == qsum (map max_capacity team)
  /\ team_size (load r) = length team
  /\ Permutation (keys (team_members (load r))) (map name team)
  /\ (Forall (fun m => name m <> "") team ->
      stories_counted (team_members (load r)) = length stories).
Proof.
  intros Hexec Hdup Hne. rewrite execute_parts in Hexec.
  unfold _calculate_team_load in Hexec.
  destruct (load_members (team_after stories team) []) as [loads|] eqn:Hl;
    [|discriminate Hexec].
  injection Hexec as <-. simpl.
  pose proof (team_after_keeps name stories team
                ltac:(done) ltac:(by intros m m' (? & _))) as Hnames.
  assert (Hloads : loads = map (fun m => (name m, info_of m)) (team_after stories team)).
  { assert (Hsome : load_members (team_after stories team) [] <> None)
      by (by rewrite Hl).
    rewrite load_members_fresh in Hl.
    - by injection Hl as <-.
    - exact Hsome.
    - by rewrite Hnames.
    - intros m _ Hin. by apply elem_of_nil in Hin. }
  set (d := foldl count_assignment loads (Assignment.execute stories team)).
  assert (Hfig : figures d
                 = map (fun m => (name m, (current_load m, max_capacity m)))
                       (team_after stories team)).
  { unfold d. rewrite foldl_count_figures, Hloads. unfold figures.
    rewrite map_map. reflexivity. }
  assert (Hl1 : map (fun kv => li_current_load kv.2) d
                = map current_load (team_after stories team)).
  { transitivity (map (fun x => x.2.1) (figures d)).
    - unfold figures. rewrite map_map. reflexivity.
    - rewrite Hfig, map_map. reflexivity. }
  assert (Hl2 : map (fun kv => li_max_capacity kv.2) d
                = map max_capacity (team_after stories team)).
  { transitivity (map (fun x => x.2.2) (figures d)).
    - unfold figures. rewrite map_map. reflexivity.
    - rewrite Hfig, map_map. reflexivity. }
  assert (Hkeys : keys d = map name (team_after stories team)).
  { rewrite keys_figures, Hfig, map_map. reflexivity. }
  split; [|split; [|split; [|split]]].
  - rewrite Hl1. by apply team_after_loads.
  - rewrite Hl2. apply qsum_perm.
    apply team_after_keeps; [done|]. by intros m m' (_ & _ & _ & _ & _ & _ & ?).
  - apply team_after_length.
  - by rewrite Hkeys.
  - intros Hnonempty. unfold d. rewrite foldl_count_counted.
    + rewrite execute_length.
      assert (H0 : stories_counted loads = 0%nat).
      { rewrite Hloads. apply stories_counted_fresh. }
      by rewrite H0.
    + eapply Forall_impl; [apply (execute_names stories team Hne)|].
      intros a (n & Ha & Hn). exists n. split; [done|]. split.
      * change (n ∈ name <$> team) in Hn.
        apply list_elem_of_fmap in Hn as (m & -> & Hm).
        rewrite Forall_forall in Hnonempty. by apply Hnonempty.
      * assert (Hk : keys loads = map name (team_after stories team)).
        { rewrite Hloads. unfold keys. by rewrite map_map. }
        by rewrite Hk, Hnames.
Qed.

(** *** Stories reported as unassigned *)

Lemma filter_none {A} (f : A -> bool) (l : list A) :
  Forall (fun x => f x = false) l -> List.filter f l = [].
Proof.
  induction 1 as [|x l Hx _ IH]; simpl; [done|]. by rewrite Hx.
Qed.

Lemma filter_all {A} (f : A -> bool) (l : list A) :
  Forall (fun x => f x = true) l -> List.filter f l = l.
Proof.
  induction 1 as [|x l Hx _ IH]; simpl; [done|]. by rewrite Hx, IH.
Qed.

Lemma no_unassigned_warning load sprint_capacity assignments n :
  Forall (fun a => truthy_str (assignee a) = true) assignments ->
  Unassigned n ∉ _generate_warnings load sprint_capacity assignments.
Proof.
  intros Hall. unfold _generate_warnings.
  rewrite filter_none.
  2:{ eapply Forall_impl; [exact Hall|]. intros a Ha. simpl. by rewrite Ha. }
  simpl. rewrite !elem_of_app, !list_elem_of_omap.
  intros [(kv & _ & H)|[(kv & _ & H)|H]].
  - unfold overload_warning in H.
    destruct (Qlt_bool 90 _); [discriminate H|].
    destruct (Qlt_bool 80 _); discriminate H.
  - unfold underload_warning in H. destruct (_ && _); discriminate H.
  - destruct sprint_capacity as [c|]; [|by apply elem_of_nil in H].
    destruct (Qeq_bool c 0); [by apply elem_of_nil in H|].
    destruct (Qlt_bool c _); [|by apply elem_of_nil in H].
    apply list_elem_of_singleton in H. discriminate H.
Qed.

Lemma snd_imap_pair {A} (f : nat -> nat) (l : list A) :
  map snd (imap (fun i x => (f i, x)) l) = l.
Proof.
  revert f. induction l as [|x l IH]; intros f; [done|].
  rewrite imap_cons. simpl. f_equal. apply (IH (f ∘ S)).
Qed.

(** The stories all come without id, or all with one. *)
Definition uniform_ids (stories : list story) : Prop :=
  Forall (fun s => id s = None) stories
  \/ Forall (fun s => is_Some (id s)) stories.

Lemma identifiers_covered stories :
  uniform_ids stories ->
  forall i s, stories !! i = Some s ->
    story_identifier i s
    ∈ imap (fun k s' => story_identifier (0 + k) s') (_prioritize_stories stories).
Proof.
  intros Hu i s Hs.
  pose proof (sorted_perm priority_score false stories) as Hperm.
  fold (_prioritize_stories stories) in Hperm.
  destruct Hu as [Hnone|Hsome].
  - assert (Hlt : (i < length (_prioritize_stories stories))%nat).
    { rewrite <- (Permutation_length Hperm). by eapply lookup_lt_Some. }
    destruct (lookup_lt_is_Some_2 _ _ Hlt) as [s' Hs'].
    assert (Hid : forall s0, s0 ∈ stories -> id s0 = None)
      by (by apply Forall_forall).
    assert (E : story_identifier i s = story_identifier (0 + i) s').
    { unfold story_identifier.
      rewrite (Hid s) by (by eapply list_elem_of_lookup_2).
      rewrite (Hid s'); [done|].
      rewrite Hperm. by eapply list_elem_of_lookup_2. }
    rewrite E.
    apply (elem_of_lookup_imap_2 (fun k s0 => story_identifier (0 + k) s0) _ _ _ Hs').
  - assert (Hin : s ∈ _prioritize_stories stories).
    { rewrite <- Hperm. by eapply list_elem_of_lookup_2. }
    apply list_elem_of_lookup_1 in Hin as [k Hk].
    assert (His : is_Some (id s)).
    { rewrite Forall_forall in Hsome. apply Hsome.
      by eapply list_elem_of_lookup_2. }
    destruct His as [z Hz].
    assert (E : story_identifier i s = story_identifier (0 + k) s).
    { unfold story_identifier. by rewrite Hz. }
    rewrite E.
    apply (elem_of_lookup_imap_2 (fun k s0 => story_identifier (0 + k) s0) _ _ _ Hk).
Qed.

(** X19.  Which stories the report lists as unassigned.  With no team
    member, every story is listed (and none has an assignee).  On a team
    that is not empty and whose members have names, the report carries no
    warning about unassigned stories, and when the stories come all
    without id or all with an id, the list of unassigned stories is
    empty. *)
Theorem unassigned_stories_of_report (stories : list story) (team : list member)
    (sprint_capacity : option Q) (r : report) :
  TeamLoad.execute stories team sprint_capacity = Some r ->
  (team = [] ->
   unassigned_stories r = stories
   /\ Forall (fun a => assignee a = None) (assignments r))
  /\ (team <> [] -> Forall (fun m => name m <> "") team ->
      (forall n, Unassigned n ∉ warnings r)
      /\ Forall (fun a => truthy_str (assignee a) = true) (assignments r)
      /\ (uniform_ids stories -> unassigned_stories r = [])).
Proof.
  intros Hexec. rewrite execute_parts in Hexec.
  destruct (_calculate_team_load _ _) as [l|]; [|discriminate Hexec].
  injection Hexec as <-. simpl. split.
  - intros ->.
    assert (Hnone : Forall (fun a => assignee a = None)
                           (Assignment.execute stories [])).
    { unfold Assignment.execute, _assign_stories. simpl. apply assign_from_nobody. }
    split; [|exact Hnone].
    unfold unassigned. rewrite (filter_none _ (Assignment.execute stories [])).
    2:{ eapply Forall_impl; [exact Hnone|]. intros a Ha. simpl. by rewrite Ha. }
    simpl. rewrite filter_all.
    + apply (snd_imap_pair (fun i => i)).
    + apply Forall_forall. intros [i s] _. reflexivity.
  - intros Hne Hnonempty.
    assert (Htruthy : Forall (fun a => truthy_str (assignee a) = true)
                             (Assignment.execute stories team)).
    { eapply Forall_impl; [apply (execute_names stories team Hne)|].
      intros a (n & Ha & Hn). rewrite Ha. simpl.
      change (n ∈ name <$> team) in Hn.
      apply list_elem_of_fmap in Hn as (m & -> & Hm).
      rewrite Forall_forall in Hnonempty.
      apply negb_true_iff, String.eqb_neq. by apply Hnonempty. }
    split; [|split; [exact Htruthy|]].
    + intros n. by apply no_unassigned_warning.
    + intros Hu. unfold unassigned. rewrite (filter_all _ _ Htruthy).
      rewrite filter_none; [done|].
      apply Forall_forall. intros [i s] Hin. simpl.
      apply elem_of_lookup_imap_1 in Hin as (i' & s' & [= -> ->] & Hs).
      apply negb_false_iff, bool_decide_eq_true.
      unfold Assignment.execute, _assign_stories. rewrite assign_from_ids.
      by apply identifiers_covered.
Qed.

(** *** The order of the team *)

(** [in_own_order] undoes the sort: on the team as the sort leaves it,
    it gives the team in the order it came in. *)

Lemma insert_by_map {A B} (g : B -> A) (before : A -> A -> bool) (x : B) (l : list B) :
  map g (insert_by (fun y x => before (g y) (g x)) x l)
  = insert_by before (g x) (map g l).
Proof.
  induction l as [|y l IH]; simpl; [done|].
  destruct (before (g y) (g x)); simpl; [by rewrite IH|done].
Qed.

Lemma sorted_map {A B} (g : B -> A) (key : A -> Q) (reverse : bool) (l : list B) :
  map g (sorted (fun b => key (g b)) reverse l) = sorted key reverse (map g l).
Proof.
  induction l as [|x l IH]; [done|].
  change (sorted (fun b => key (g b)) reverse (x :: l))
    with (insert_by (fun y x => if reverse then Qlt_bool (key (g x)) (key (g y))
                                else Qlt_bool (key (g y)) (key (g x)))
            x (sorted (fun b => key (g b)) reverse l)).
  rewrite (insert_by_map g (fun y x => if reverse then Qlt_bool (key x) (key y)
                                       else Qlt_bool (key y) (key x))).
  by rewrite IH.
Qed.

Lemma of_nat_lt (i j : nat) : of_nat i < of_nat j <-> (i < j)%nat.
Proof. unfold of_nat, Qlt. simpl. lia. Qed.

Lemma tagged_sorted {A} (l : list A) : forall n,
  StronglySorted (fun a b : nat * A => of_nat a.1 < of_nat b.1)
    (imap (fun i x => ((n + i)%nat, x)) l).
Proof.
  induction l as [|x l IH]; intros n; [constructor|].
  rewrite imap_cons.
  rewrite (imap_ext _ (fun i x => ((S n + i)%nat, x)))
    by (intros i y _; simpl; f_equal; lia).
  constructor; [apply IH|].
  apply Forall_forall. intros [j y] Hin.
  apply elem_of_lookup_imap_1 in Hin as (i & y' & [= -> ->] & _).
  simpl. apply of_nat_lt. lia.
Qed.

Lemma sorted_list_unique {A} (key : A -> Q) (l1 : list A) : forall l2,
  Permutation l1 l2 ->
  StronglySorted (fun a b => key a < key b) l1 ->
  StronglySorted (fun a b => key a <= key b) l2 ->
  l1 = l2.
Proof.
  induction l1 as [|x l1 IH]; intros l2 Hperm H1 H2.
  - by apply Permutation_nil_l in Hperm.
  - destruct l2 as [|y l2]; [by apply Permutation_nil_r in Hperm|].
    apply StronglySorted_inv in H1 as [H1 Hx].
    apply StronglySorted_inv in H2 as [H2 Hy].
    rewrite Forall_forall in Hx, Hy.
    assert (Heq : x = y).
    { assert (Hin : y ∈ x :: l1) by (rewrite Hperm; by left).
      apply elem_of_cons in Hin as [->|Hin]; [done|].
      assert (Hin' : x ∈ y :: l2) by (rewrite <- Hperm; by left).
      apply elem_of_cons in Hin' as [->|Hin']; [done|].
      specialize (Hx y Hin). specialize (Hy x Hin'). lra. }
    subst y. f_equal. apply IH; [|done|done].
    by apply Permutation_cons_inv in Hperm.
Qed.

Lemma in_own_order_restores (team : list member) :
  in_own_order (sorted_order team) (sorted effective_capacity true team) = team.
Proof.
  unfold in_own_order, sorted_order.
  set (tagged := sorted (fun im : nat * member => effective_capacity im.2) true
                   (imap (fun i m => (i, m)) team)).
  assert (Hsnd : map snd tagged = sorted effective_capacity true team).
  { unfold tagged.
    rewrite (sorted_map snd effective_capacity true).
    by rewrite (snd_imap_pair (fun i => i)). }
  rewrite <- Hsnd.
  change (zip (map fst tagged) (map snd tagged)) with (zip (tagged.*1) (tagged.*2)).
  rewrite zip_fst_snd.
  assert (Hsorted : sorted (fun im : nat * member => of_nat im.1) false tagged
                    = imap (fun i m => (i, m)) team).
  { symmetry.
    apply (sorted_list_unique (fun im : nat * member => of_nat im.1)).
    - rewrite <- (sorted_perm (fun im : nat * member => of_nat im.1) false tagged).
      unfold tagged. apply sorted_perm.
    - apply (tagged_sorted team 0).
    - apply (sorted_sorted (fun im : nat * member => of_nat im.1) false). }
  rewrite Hsorted. apply (snd_imap_pair (fun i => i)).
Qed.

(** *** A team of two and their stories *)

Definition pair_team : list member := [dev "x" 0; dev "y" 0].

Definition two_stories : list story := [plain "a" 2 "high"; plain "b" 3 "low"].

Lemma best_match_stays_within_limits_witness :
  exists i m m',
    pair_team !! i = Some m
    /\ (assign_one 0 (plain "a" 2 "high") pair_team).2 = <[i := m']> pair_team
    /\ current_load m' <= MAX_STORY_POINTS_PER_PERSON
    /\ 0 <= effective_capacity m'.
Proof.
  destruct (_find_best_assignee pair_team
              (_extract_required_skills (title (plain "a" 2 "high"))
                 (description (plain "a" 2 "high")))
              (story_points (plain "a" 2 "high"))) as [[i c]|] eqn:Hb;
    [|vm_compute in Hb; discriminate Hb].
  destruct (best_match_stays_within_limits 0 (plain "a" 2 "high") pair_team i c Hb)
    as (m & m' & Hm & Ht & _ & _ & _ & Hl & _ & He).
  exists i, m, m'. split; [exact Hm|]. split; [exact Ht|].
  split; [exact Hl|exact He].
Defined.

Lemma oversized_story_falls_back_witness :
  exists i m m',
    least_loaded [dev "x" 1] = Some i
    /\ [dev "x" 1] !! i = Some m
    /\ confidence (assign_one 0 (plain "big" 8 "high") [dev "x" 1]).1 = 3 # 10
    /\ current_load m' = current_load m + 8
    /\ MAX_STORY_POINTS_PER_PERSON < current_load m'.
Proof.
  destruct (oversized_story_falls_back 0 (plain "big" 8 "high") [dev "x" 1])
    as (i & m & m' & Hl & Hm & _ & _ & _ & Hc & Hload & Hover).
  - discriminate.
  - constructor; [|constructor]. simpl. lra.
  - simpl. lra.
  - exists i, m, m'. split; [exact Hl|]. split; [exact Hm|].
    split; [exact Hc|]. split; [exact Hload|exact Hover].
Defined.

Lemma team_load_adds_up_witness :
  exists r,
    TeamLoad.execute two_stories pair_team None = Some r
    /\ total_load (load r) == 5
    /\ team_size (load r) = 2%nat.
Proof.
  destruct (TeamLoad.execute two_stories pair_team None) as [r|] eqn:He;
    [|vm_compute in He; discriminate He].
  exists r. split; [reflexivity|].
  destruct (team_load_adds_up two_stories pair_team None r He)
    as (Hload & _ & Hsize & _).
  - by apply (bool_decide_unpack _).
  - discriminate.
  - split; [|exact Hsize]. rewrite Hload. vm_compute. reflexivity.
Defined.

Lemma unassigned_stories_of_report_witness :
  exists r,
    TeamLoad.execute two_stories pair_team None = Some r
    /\ unassigned_stories r = [].
Proof.
  destruct (TeamLoad.execute two_stories pair_team None) as [r|] eqn:He;
    [|vm_compute in He; discriminate He].
  exists r. split; [reflexivity|].
  destruct (unassigned_stories_of_report two_stories pair_team None r He)
    as [_ H].
  destruct H as (_ & _ & H).
  - discriminate.
  - repeat constructor; discriminate.
  - apply H. left. repeat constructor.
Defined.

(** When some stories have an id and others have none, a story can be
    listed as unassigned although it has an assignee: the story without
    id is looked up by its position in the input, and was recorded by
    its position in the prioritized list. *)
Example mixed_ids_list_an_assigned_story :
  let with_id :=
    {| id := Some 5%Z; title := "a"; description := ""; story_points := 2;
       priority := "low"; dependencies := [] |} in
  match TeamLoad.execute [with_id; plain "b" 2 "high"] [dev "x" 0] None with
  | Some r =>
    map story_title (assignments r) = ["b"; "a"]
    /\ map assignee (assignments r) = [Some "x"; Some "x"]
    /\ map story_id (assignments r) = [0%Z; 5%Z]
    /\ map title (unassigned_stories r) = ["b"]
  | None => False
  end.
Proof. vm_compute. by repeat split. Qed.

End TeamLoadProps.

(* ===================================================================== *)
(** ** The timeline and the dispatch of the TranscriptTriageEngine *)
(* ===================================================================== *)

Module DispatchProps.
Import Py PyProps Triage TranscriptRoute.
#[local] Open Scope Q_scope.

(** *** The timeline *)

(** The utterance [e] belongs under the key [key]: it is the speaker's,
    and it mentions the ticket of the key, or no ticket at all when the
    key has none. *)
Definition filed_under (key : timeline_key) (e : event) : Prop :=
  e_email e = key.1
  /\ match key.2 with
     | Some jid => jid ∈ jiras e
     | None => jiras e = []
     end.

Definition well_formed (tl : timeline) : Prop :=
  NoDup (map fst tl)
  /\ Forall (fun entry : timeline_key * list event =>
               entry.2 <> [] /\ Forall (filed_under entry.1) entry.2) tl.

Lemma setdefault_append_keys key e (tl : timeline) :
  map fst (setdefault_append key e tl)
  = if bool_decide (key ∈ map fst tl) then map fst tl else map fst tl ++ [key].
Proof.
  induction tl as [|[k events] tl IH]; simpl; [done|].
  destruct (decide (k = key)) as [->|Hne]; simpl.
  - rewrite bool_decide_eq_true_2 by (by left). done.
  - rewrite IH. destruct (bool_decide (key ∈ map fst tl)) eqn:E.
    + apply bool_decide_eq_true in E.
      rewrite bool_decide_eq_true_2 by (by right). done.
    + apply bool_decide_eq_false in E.
      rewrite bool_decide_eq_false_2; [done|].
      intros H. apply elem_of_cons in H as [H|H]; [by subst|done].
Qed.

Lemma setdefault_append_well_formed key e tl :
  well_formed tl -> filed_under key e -> well_formed (setdefault_append key e tl).
Proof.
  intros [Hdup Hall] He. split.
  - rewrite setdefault_append_keys.
    destruct (bool_decide (key ∈ map fst tl)) eqn:E; [done|].
    apply bool_decide_eq_false in E.
    apply NoDup_app. split; [done|]. split; [|apply NoDup_singleton].
    intros k Hk Hk'. apply list_elem_of_singleton in Hk'. by subst.
  - clear Hdup. induction Hall as [|[k events] tl [Hne Hev] Hall IH]; simpl.
    + constructor; [|constructor]. simpl. split; [done|]. by constructor.
    + destruct (decide (k = key)) as [->|Hk].
      * constructor; [|done]. simpl in *. split.
        -- intros H. by apply app_eq_nil in H as [_ ?].
        -- apply Forall_app. split; [done|]. by constructor.
      * constructor; [by split|done].
Qed.

Section Timeline.
Variable extract_jira_ids : string -> list string.

Lemma add_texts_well_formed d p texts : forall tl,
  well_formed tl -> well_formed (add_texts extract_jira_ids d p texts tl).
Proof.
  induction texts as [|txt rest IH]; intros tl Hwf; simpl; [done|].
  apply IH.
  set (e := {| e_date := date d; e_name := p_name p;
               e_email := or_str (p_email p) (p_name p); text := txt;
               jiras := extract_jira_ids txt;
               access := contains_any txt ACCESS_KEYWORDS;
               help := contains_any txt HELP_KEYWORDS;
               pace := contains_any txt PACE_KEYWORDS |}).
  destruct (extract_jira_ids txt) as [|j js] eqn:Hj.
  - apply setdefault_append_well_formed; [done|]. by split.
  - assert (Hgen : forall (l : list string) tl0,
               (forall jid, jid ∈ l -> jid ∈ jiras e) ->
               well_formed tl0 ->
               well_formed
                 (foldl (fun tl1 jid =>
                           setdefault_append (or_str (p_email p) (p_name p), Some jid)
                             e tl1) tl0 l)).
    { induction l as [|jid l IHl]; intros tl0 Hin Hwf0; simpl; [done|].
      apply IHl; [intros jid' H; apply Hin; by right|].
      apply setdefault_append_well_formed; [done|]. split; [done|].
      simpl. apply Hin. by left. }
    apply Hgen; [|done]. intros jid Hin. exact Hin.
Qed.

(** X20.  The timeline that [_merge_person_texts] builds has one entry
    per key (speaker, ticket), no entry is empty (so the last utterance
    that [process] reads always exists), and every utterance of an entry
    is the speaker's and mentions the ticket of the key; the utterances
    under a key without ticket mention no ticket. *)
Theorem timeline_is_well_formed (transcripts : list day) :
  NoDup (map fst (_merge_person_texts extract_jira_ids transcripts))
  /\ Forall (fun entry : timeline_key * list event =>
               entry.2 <> []
               /\ is_Some (last entry.2)
               /\ Forall (filed_under entry.1) entry.2)
            (_merge_person_texts extract_jira_ids transcripts).
Proof.
  assert (Hwf : well_formed (_merge_person_texts extract_jira_ids transcripts)).
  { unfold _merge_person_texts.
    assert (Hgen : forall days tl, well_formed tl ->
               well_formed
                 (foldl (fun tl d =>
                           foldl (fun tl p =>
                                    add_texts extract_jira_ids d p (spoken_text p) tl)
                                 tl (participants d)) tl days)).
    { induction days as [|d days IH]; intros tl Hwf; simpl; [done|].
      apply IH. generalize (participants d). intros ps. revert tl Hwf.
      induction ps as [|p ps IHp]; intros tl Hwf; simpl; [done|].
      apply IHp. by apply add_texts_well_formed. }
    apply Hgen. split; constructor. }
  destruct Hwf as [Hdup Hall]. split; [done|].
  eapply Forall_impl; [exact Hall|]. intros [key events] [Hne Hev]. simpl in *.
  split; [done|]. split; [|done].
  destruct events as [|e events] using rev_ind; [done|].
  rewrite last_snoc. by eexists.
Qed.

End Timeline.

(** *** The dispatch *)

Lemma or_none_Some (o : option string) (s : string) :
  or_none o = Some s -> o = Some s /\ s <> "".
Proof.
  unfold or_none, or_str. destruct (truthy_str o) eqn:E; [|discriminate].
  intros ->. split; [done|]. simpl in E. apply negb_true_iff in E.
  by apply String.eqb_neq.
Qed.

Lemma not_blank_not_empty (s : string) : is_blank s = false -> s <> "".
Proof. by intros H ->. Qed.

(** The results of the two dispatchers. *)
Definition incident_result (r : dispatch_result) : Prop :=
  match r with
  | MockIncident _ | Response _ | Failed _ => True
  | _ => False
  end.

Definition story_result (r : dispatch_result) : Prop :=
  match r with
  | MockStory _ | CreatedAndAssigned _ _ | CreatedUnassigned _ | Failed _ => True
  | _ => False
  end.

(** A ticket that is assigned goes to somebody else than [person]. *)
Definition assigned_to_another (person : option string) (r : dispatch_result) : Prop :=
  match r with
  | CreatedAndAssigned buddy _ => truthy buddy = true /\ buddy <> json_opt person
  | _ => True
  end.

Lemma find_buddy_other person team buddy :
  find_buddy person team = Some buddy ->
  truthy buddy = true /\ buddy <> json_opt person.
Proof.
  induction team as [|j team IH]; simpl; [discriminate|].
  destruct j as [| | | | |m]; try discriminate.
  set (email := or_json (get m "email" JNull) (get m "name" JNull)).
  destruct (truthy email) eqn:Ht; simpl; [|exact IH].
  destruct (truthy (or_json (get m "available_capacity" (JNum 0)) (JNum 0)));
    simpl; [|exact IH].
  destruct (match email with
            | JStr e => match person with Some p => String.eqb e p | None => false end
            | _ => false
            end) eqn:Hp; simpl; [exact IH|].
  intros [= <-]. split; [exact Ht|].
  intros Heq. rewrite Heq in Hp, Ht. destruct person as [p|]; simpl in *.
  - by rewrite String.eqb_refl in Hp.
  - discriminate Ht.
Qed.

Lemma buddy_of_other person cap_resp buddy :
  buddy_of person cap_resp = Some buddy ->
  truthy buddy = true /\ buddy <> json_opt person.
Proof.
  unfold buddy_of. destruct (capacity_team cap_resp); try discriminate.
  apply find_buddy_other.
Qed.

Lemma appended_twice {A} (l k1 k2 : list A) : (l ++ k1) ++ k2 = l ++ (k1 ++ k2).
Proof. by rewrite <- app_assoc. Qed.

Lemma appended_thrice {A} (l k1 k2 k3 : list A) :
  ((l ++ k1) ++ k2) ++ k3 = l ++ (k1 ++ k2 ++ k3).
Proof. by rewrite <- !app_assoc. Qed.

Ltac appended :=
  first [ reflexivity | apply appended_twice | apply appended_thrice ].

Section Dispatch.
Variable hash : string -> Z.
Variable extract_jira_ids : string -> list string.
Variable project_key : string.
Variable tools : tool_funcs.

(** What a call to the ticket services carries: a story always has a
    project key and a subject, the capacity is asked of board 1, and an
    incident has a subject whenever the agent has a project key. *)
Definition call_ok (c : external_call) : Prop :=
  match c with
  | CreateStory p => sp_project_key p <> "" /\ sp_subject p <> ""
  | GetTeamCapacity board_id => board_id = 1%Z
  | CreateIncident p => project_key <> "" -> ip_subject p <> ""
  end.

Lemma incident_calls st person story excerpt confidence :
  let r := _create_servicenow_incident project_key tools st person story
             excerpt confidence in
  incident_result r.1
  /\ actions r.2 = actions st
  /\ exists added,
       calls r.2 = calls st ++ added
       /\ (length added <= 1)%nat
       /\ Forall call_ok added
       /\ (servicenow_create_incident_impl tools = None -> added = []).
Proof.
  cbv zeta. unfold _create_servicenow_incident.
  destruct (servicenow_create_incident_impl tools) as [func|]; simpl.
  - assert (Hok : call_ok
                    (CreateIncident
                       {| ip_caller_id := person;
                          ip_subject := match or_none story with
                                        | Some s => s | None => project_key end;
                          ip_excerpt := excerpt; ip_confidence := confidence |})).
    { simpl. intros Hpk. destruct (or_none story) as [s|] eqn:E; [|done].
      by apply or_none_Some in E as [_ ?]. }
    destruct (func _ _); simpl; (split; [done|]); (split; [done|]);
      eexists; (split; [reflexivity|]); (split; [simpl; lia|]);
      (split; [by constructor|done]).
  - split; [done|]. split; [done|]. exists []. rewrite app_nil_r.
    split; [done|]. split; [simpl; lia|]. by split.
Qed.

Lemma helper_calls st person story excerpt confidence :
  let r := _create_or_assign_jira_helper extract_jira_ids project_key tools st
             person story excerpt confidence in
  story_result r.1
  /\ assigned_to_another person r.1
  /\ actions r.2 = actions st
  /\ exists added,
       calls r.2 = calls st ++ added
       /\ (length added <= 3)%nat
       /\ Forall call_ok added
       /\ (jira_create_story_impl tools = None ->
           jira_get_team_capacity_impl tools = None -> added = []).
Proof.
  cbv zeta. unfold _create_or_assign_jira_helper.
  set (pk1 := match or_none story with
              | Some s =>
                match extract_jira_ids s with
                | story_key :: _ =>
                  if contains "-" story_key then before_dash story_key
                  else project_key
                | [] => project_key
                end
              | None => project_key
              end).
  set (pk := if is_blank pk1
             then (if String.eqb project_key "" then "PROJ" else project_key)
             else pk1).
  assert (Hpk : pk <> "").
  { unfold pk. destruct (is_blank pk1) eqn:Hb.
    - destruct (String.eqb project_key "") eqn:E; [done|].
      by apply String.eqb_neq.
    - by apply not_blank_not_empty. }
  set (subject := match or_none story with Some s => s | None => "unknown task" end).
  assert (Hsub : subject <> "").
  { unfold subject. destruct (or_none story) as [s|] eqn:E; [|done].
    by apply or_none_Some in E as [_ ?]. }
  assert (Hstory : forall assignee,
             call_ok (CreateStory
                        {| sp_project_key := pk; sp_person := person;
                           sp_subject := subject; sp_excerpt := excerpt;
                           sp_confidence := confidence; sp_assignee := assignee |}))
    by (by intros assignee).
  assert (Hcap : call_ok (GetTeamCapacity 1)) by done.
  assert (Hnone : forall l : list external_call, l = l ++ []) by
    (intros l; by rewrite app_nil_r).
  destruct (jira_get_team_capacity_impl tools) as [get_capacity|];
    [destruct (get_capacity (calls st) 1%Z) as [cap_resp|e]|];
    (destruct (jira_create_story_impl tools) as [create_story|];
     [|simpl; (split; [done|]); (split; [done|]); (split; [done|]);
       eexists; (split; [first [appended | apply Hnone]|]);
       (split; [simpl; lia|]);
       (split; [repeat first [exact Hcap | constructor]|done])]);
    try (destruct (buddy_of person cap_resp) as [buddy|] eqn:Hbuddy;
         [apply buddy_of_other in Hbuddy|]);
    simpl;
    repeat match goal with
           | |- context [match create_story ?c ?p with _ => _ end] =>
             destruct (create_story c p); simpl
           end;
    (split; [done|]); (split; [done|]); (split; [done|]);
    eexists; (split; [appended|]); (split; [simpl; lia|]);
    (split; [|done]);
    repeat first [ exact Hcap | apply Hstory | constructor ].
Qed.

(** The row that [persist_action] adds for a decision. *)
Definition dispatched_row (d : decision) : action_record :=
  {| action_key := d_action_key d;
     person := or_none (d_person d);
     story := or_none (d_story d);
     diagnosis := d_diagnosis d;
     confidence := d_confidence d;
     payload := {| ap_person := d_person d; ap_story := d_story d;
                   ap_excerpt := d_excerpt d; ap_confidence := d_confidence d |};
     response := d_result d |}.

(** A decision went to the dispatcher of its diagnosis. *)
Definition routed (d : decision) : Prop :=
  d_diagnosis d ∈ ["access"; "needs_help"; "pace"; "verify"]
  /\ if String.eqb (d_diagnosis d) "access" then incident_result (d_result d)
     else story_result (d_result d)
          /\ assigned_to_another (d_person d) (d_result d).

Lemma entry_diagnosis_values story events :
  entry_diagnosis story events ∈ ["access"; "needs_help"; "pace"; "verify"].
Proof.
  unfold entry_diagnosis.
  repeat match goal with |- context [if ?c then _ else _] => destruct c end;
    rewrite !elem_of_cons; auto 6.
Qed.

Lemma process_entry_cases st entry :
  let r := process_entry hash extract_jira_ids project_key tools st entry in
  match r.2 with
  | None => r.1 = st
  | Some d =>
    actions st !! d_action_key d = None
    /\ actions r.1 = <[d_action_key d := dispatched_row d]> (actions st)
    /\ routed d
    /\ exists added,
         calls r.1 = calls st ++ added
         /\ (length added <= 3)%nat
         /\ Forall call_ok added
  end.
Proof.
  destruct entry as [[person story] events]. cbv zeta. unfold process_entry.
  set (key := make_action_key hash _ story _ _).
  destruct (action_exists st key) eqn:He; [done|].
  assert (Hnew : actions st !! key = None).
  { unfold action_exists in He. by destruct (actions st !! key). }
  pose proof (entry_diagnosis_values story events) as Hvalues.
  destruct (String.eqb (entry_diagnosis story events) "access") eqn:Hd.
  - pose proof (incident_calls st person story (entry_excerpt events)
                  (entry_confidence story events)) as Hc.
    cbv zeta in Hc.
    destruct (_create_servicenow_incident project_key tools st person story
                (entry_excerpt events) (entry_confidence story events))
      as [result st1].
    simpl in Hc. destruct Hc as (Hres & Ha & added & Hcalls & Hlen & Hok & _).
    simpl. split; [exact Hnew|]. unfold persist_action. rewrite Ha, Hnew.
    simpl. split; [done|]. split.
    + unfold routed. simpl. by rewrite Hd.
    + exists added. split; [exact Hcalls|]. split; [lia|exact Hok].
  - pose proof (helper_calls st person story (entry_excerpt events)
                  (entry_confidence story events)) as Hc.
    cbv zeta in Hc.
    destruct (_create_or_assign_jira_helper extract_jira_ids project_key tools st
                person story (entry_excerpt events) (entry_confidence story events))
      as [result st1].
    simpl in Hc.
    destruct Hc as (Hres & Hother & Ha & added & Hcalls & Hlen & Hok & _).
    simpl. split; [exact Hnew|]. unfold persist_action. rewrite Ha, Hnew.
    simpl. split; [done|]. split.
    + unfold routed. simpl. by rewrite Hd.
    + exists added. split; [exact Hcalls|]. split; [lia|exact Hok].
Qed.

(** What a run over a timeline leaves behind. *)
Definition recorded (before after : state) (d : decision) : Prop :=
  actions before !! d_action_key d = None
  /\ actions after !! d_action_key d = Some (dispatched_row d).

Lemma process_entries_cases tl : forall st,
  let r := process_entries hash extract_jira_ids project_key tools st tl in
  NoDup (d_action_key <$> r.2)
  /\ Forall (recorded st r.1) r.2
  /\ actions st ⊆ actions r.1
  /\ size (actions r.1) = (size (actions st) + length r.2)%nat
  /\ Forall routed r.2
  /\ exists added,
       calls r.1 = calls st ++ added
       /\ (length added <= 3 * length r.2)%nat
       /\ Forall call_ok added.
Proof.
  induction tl as [|entry rest IH]; intros st; cbn [process_entries]; cbv zeta.
  - simpl. split; [constructor|]. split; [constructor|]. split; [done|].
    split; [lia|]. split; [constructor|]. exists []. rewrite app_nil_r.
    split; [done|]. split; [simpl; lia|constructor].
  - pose proof (process_entry_cases st entry) as H1. cbv zeta in H1.
    destruct (process_entry hash extract_jira_ids project_key tools st entry)
      as [st1 od]. simpl in H1.
    specialize (IH st1). cbv zeta in IH.
    destruct (process_entries hash extract_jira_ids project_key tools st1 rest)
      as [st2 ds]. simpl in IH. simpl.
    destruct IH as (Hdup & Hrec & Hsub & Hsize & Hrouted & added2 & Hcalls2 & Hlen2 & Hok2).
    destruct od as [d|].
    + destruct H1 as (Hnew & Hact & Hroute & added1 & Hcalls1 & Hlen1 & Hok1).
      assert (Hd1 : actions st1 !! d_action_key d = Some (dispatched_row d))
        by (by rewrite Hact, lookup_insert_eq).
      assert (Hsub1 : actions st ⊆ actions st1)
        by (rewrite Hact; by apply insert_subseteq).
      split; [|split; [|split; [|split; [|split]]]].
      * simpl. constructor; [|exact Hdup].
        intros Hin. apply list_elem_of_fmap in Hin as (d' & Hkey & Hin).
        rewrite Forall_forall in Hrec. destruct (Hrec d' Hin) as [Hnone _].
        rewrite <- Hkey, Hd1 in Hnone. discriminate Hnone.
      * constructor.
        -- split; [exact Hnew|]. by apply (lookup_weaken _ _ _ _ Hd1).
        -- rewrite Forall_forall in Hrec |- *. intros d' Hin.
           destruct (Hrec d' Hin) as [Hnone Hsome]. split; [|exact Hsome].
           destruct (actions st !! d_action_key d') as [row|] eqn:E; [|done].
           apply (lookup_weaken _ _ _ _ E) in Hsub1. rewrite Hsub1 in Hnone.
           discriminate Hnone.
      * by transitivity (actions st1).
      * rewrite Hsize, Hact, map_size_insert_None by exact Hnew. simpl. lia.
      * by constructor.
      * exists (added1 ++ added2). rewrite Hcalls2, Hcalls1, app_assoc.
        split; [done|]. split; [rewrite length_app; simpl; lia|].
        by apply Forall_app.
    + subst st1. split; [exact Hdup|]. split; [exact Hrec|]. split; [exact Hsub|].
      split; [exact Hsize|]. split; [exact Hrouted|]. by exists added2.
Qed.

(** X21.  The calls of one run of [process].  The calls made before stay
    as they were and the run appends its own: at most three for each
    decision it reports (the capacity of board 1 and up to two attempts
    to create the story), hence none when every entry is skipped; every
    story it asks for has a project key and a subject. *)
Theorem process_calls_per_decision (st : state) (transcripts : list day) :
  let r := process hash extract_jira_ids project_key tools st transcripts in
  exists added,
    calls r.1 = calls st ++ added
    /\ (length added <= 3 * length r.2)%nat
    /\ Forall call_ok added.
Proof.
  cbv zeta. unfold process.
  apply (process_entries_cases (_merge_person_texts extract_jira_ids transcripts) st).
Qed.

(** X22.  The action table after one run of [process].  Every decision
    of the run has a key that was not in the table, the keys of the
    decisions differ from each other, and the table holds under that key
    the row of the decision with its result; the rows that were there
    stay as they were, and the table has grown by one row for each
    decision. *)
Theorem process_records_each_decision (st : state) (transcripts : list day) :
  let r := process hash extract_jira_ids project_key tools st transcripts in
  NoDup (d_action_key <$> r.2)
  /\ Forall (recorded st r.1) r.2
  /\ actions st ⊆ actions r.1
  /\ size (actions r.1) = (size (actions st) + length r.2)%nat.
Proof.
  cbv zeta. unfold process.
  pose proof (process_entries_cases
                (_merge_person_texts extract_jira_ids transcripts) st) as H.
  cbv zeta in H. tauto.
Qed.

(** X23.  Where a decision goes.  The diagnosis of a decision is one of
    access, needs_help, pace and verify.  An access decision carries the
    result of the incident dispatcher; every other one carries the result
    of the story dispatcher, and a story that was created and assigned
    went to a colleague with a truthy address other than the person of
    the decision. *)
Theorem process_routes_by_diagnosis (st : state) (transcripts : list day) :
  let r := process hash extract_jira_ids project_key tools st transcripts in
  Forall routed r.2.
Proof.
  cbv zeta. unfold process.
  pose proof (process_entries_cases
                (_merge_person_texts extract_jira_ids transcripts) st) as H.
  cbv zeta in H. tauto.
Qed.

End Dispatch.

(** *** Without ticket services *)

(** The result of a dispatcher that found no function to call. *)
Definition mock (r : dispatch_result) : Prop :=
  match r with
  | MockIncident _ | MockStory _ => True
  | _ => False
  end.

Lemma process_entry_unresolved hash extract_jira_ids project_key st entry :
  let r := process_entry hash extract_jira_ids project_key TriageProps.no_tools
             st entry in
  calls r.1 = calls st
  /\ match r.2 with Some d => mock (d_result d) | None => True end.
Proof.
  destruct entry as [[person story] events]. cbv zeta. unfold process_entry.
  destruct (action_exists st _); [done|].
  by destruct (String.eqb (entry_diagnosis story events) "access").
Qed.

Lemma process_entries_unresolved hash extract_jira_ids project_key tl : forall st,
  let r := process_entries hash extract_jira_ids project_key TriageProps.no_tools
             st tl in
  calls r.1 = calls st /\ Forall (fun d => mock (d_result d)) r.2.
Proof.
  induction tl as [|entry rest IH]; intros st; cbn [process_entries]; cbv zeta.
  - by split.
  - pose proof (process_entry_unresolved hash extract_jira_ids project_key st entry)
      as H1. cbv zeta in H1.
    destruct (process_entry hash extract_jira_ids project_key TriageProps.no_tools
                st entry) as [st1 od]. simpl in H1. destruct H1 as [Hc1 Hm1].
    specialize (IH st1). cbv zeta in IH.
    destruct (process_entries hash extract_jira_ids project_key
                TriageProps.no_tools st1 rest) as [st2 ds].
    simpl in IH. destruct IH as [Hc2 Hm2]. simpl.
    split; [by rewrite Hc2|]. destruct od as [d|]; [by constructor|exact Hm2].
Qed.

(** X24.  When none of the three ticket functions was resolved, a run of
    [process] makes no call at all, and every decision it reports holds
    the mock of the ticket it would have asked for.  (The decisions are
    recorded in the action table all the same.) *)
Theorem unresolved_tools_give_mocks hash extract_jira_ids project_key
    (st : state) (transcripts : list day) :
  let r := process hash extract_jira_ids project_key TriageProps.no_tools
             st transcripts in
  calls r.1 = calls st /\ Forall (fun d => mock (d_result d)) r.2.
Proof.
  cbv zeta. unfold process. apply process_entries_unresolved.
Qed.

(** *** The route *)

(** What every ticket asked for through the route has. *)
Definition complete_call (c : external_call) : Prop :=
  match c with
  | CreateStory p => sp_project_key p <> "" /\ sp_subject p <> ""
  | GetTeamCapacity board_id => board_id = 1%Z
  | CreateIncident p => ip_subject p <> ""
  end.

Lemma route_project_key (payload_project_key payload_project : option string) :
  match or_str (or_str payload_project_key payload_project) (Some "PROJ") with
  | Some key => key
  | None => "PROJ"
  end <> "".
Proof.
  unfold or_str.
  destruct (truthy_str (if truthy_str payload_project_key
                        then payload_project_key else payload_project)) eqn:E;
    [|done].
  destruct (if truthy_str payload_project_key
            then payload_project_key else payload_project) as [key|];
    [|discriminate E].
  simpl in E. apply negb_true_iff in E. by apply String.eqb_neq.
Qed.

(** X25.  Through [analyze_transcript_json] the agent always has a
    project key (the payload's, else its project, else PROJ), so every
    ticket it asks for is complete: an incident has a subject, a story
    a project key and a subject, and the capacity is asked of board 1. *)
Theorem analyze_transcript_json_tickets_complete hash extract_jira_ids tools
    (st : state) (payload_project_key payload_project : option string)
    (transcripts : list day) :
  let r := analyze_transcript_json hash extract_jira_ids tools st
             payload_project_key payload_project transcripts in
  exists added, calls r.1 = calls st ++ added /\ Forall complete_call added.
Proof.
  cbv zeta. unfold analyze_transcript_json, process.
  pose proof (route_project_key payload_project_key payload_project) as Hpk.
  set (pk := match or_str _ _ with Some key => key | None => "PROJ" end) in *.
  pose proof (process_entries_cases hash extract_jira_ids pk tools
                (_merge_person_texts extract_jira_ids transcripts) st) as H.
  cbv zeta in H. destruct H as (_ & _ & _ & _ & _ & added & Hcalls & _ & Hok).
  exists added. split; [exact Hcalls|].
  eapply Forall_impl; [exact Hok|].
  intros [p| |p]; simpl; auto.
Qed.

(** *** The heuristic in binary64 *)

Definition one_mention : list event :=
  [ {| e_date := Some "2024-05-06"; e_name := Some "Ana";
       e_email := Some "ana@example.org";
       text := "I have no access to the repo for PROJ-1";
       jiras := ["PROJ-1"]; access := true; help := false; pace := false |} ].

Lemma float_diagnosis_agrees_witness :
  (1 <= length one_mention <= 60)%nat
  /\ TriageProps.float_diagnosis (truthy_str (Some "PROJ-1"))
       (existsb access one_mention) (existsb help one_mention)
       (existsb pace one_mention) (length one_mention)
     = entry_diagnosis (Some "PROJ-1") one_mention.
Proof.
  assert (Hlen : (1 <= length one_mention <= 60)%nat) by (simpl; lia).
  split; [exact Hlen|].
  exact (TriageProps.float_diagnosis_agrees (Some "PROJ-1") one_mention Hlen).
Defined.

End DispatchProps.

(* ===================================================================== *)
(** ** The complexity estimate of the StoryCreatorAgent *)
(* ===================================================================== *)

Module StoryChecksProps.
Import Py PyProps StoryChecks.
#[local] Open Scope Z_scope.

(** The estimate, from the number of criteria and the length of the
    description. *)
Definition points_for (criteria_count description_length : Z) : Z :=
  if (criteria_count <=? 2) && (description_length <? 200) then 2
  else if (criteria_count <=? 4) && (description_length <? 500) then 5
  else if (criteria_count <=? 6) then 8
  else 13.

Lemma estimate_complexity_reads (story : dict) (c d : Z) :
  len (get story "acceptance_criteria" (JArr [])) = Ok c ->
  len (get story "description" (JStr "")) = Ok d ->
  estimate_complexity story = Ok (points_for c d).
Proof. unfold estimate_complexity. by intros -> ->. Qed.

Lemma points_for_monotone (c1 d1 c2 d2 : Z) :
  c1 <= c2 -> d1 <= d2 -> points_for c1 d1 <= points_for c2 d2.
Proof.
  intros Hc Hd. unfold points_for.
  destruct (Z.leb_spec c1 2), (Z.ltb_spec d1 200), (Z.leb_spec c1 4),
    (Z.ltb_spec d1 500), (Z.leb_spec c1 6),
    (Z.leb_spec c2 2), (Z.ltb_spec d2 200), (Z.leb_spec c2 4),
    (Z.ltb_spec d2 500), (Z.leb_spec c2 6); simpl; lia.
Qed.

Lemma points_for_values (c d : Z) : points_for c d ∈ [2; 5; 8; 13].
Proof.
  unfold points_for.
  repeat match goal with |- context [if ?b then _ else _] => destruct b end;
    rewrite !elem_of_cons; auto 6.
Qed.

(** X26.  The complexity estimate never goes down when a story gets
    more acceptance criteria and a longer description: for two stories
    whose criteria and description have a length, the one with at least
    as many criteria and at least as long a description is estimated at
    least as high, and both estimates are among 2, 5, 8 and 13. *)
Theorem estimate_complexity_monotone (s1 s2 : dict) (c1 d1 c2 d2 : Z) :
  len (get s1 "acceptance_criteria" (JArr [])) = Ok c1 ->
  len (get s1 "description" (JStr "")) = Ok d1 ->
  len (get s2 "acceptance_criteria" (JArr [])) = Ok c2 ->
  len (get s2 "description" (JStr "")) = Ok d2 ->
  c1 <= c2 -> d1 <= d2 ->
  exists p1 p2,
    estimate_complexity s1 = Ok p1 /\ estimate_complexity s2 = Ok p2
    /\ p1 <= p2 /\ p1 ∈ [2; 5; 8; 13] /\ p2 ∈ [2; 5; 8; 13].
Proof.
  intros H1 H2 H3 H4 Hc Hd. exists (points_for c1 d1), (points_for c2 d2).
  split; [by apply estimate_complexity_reads|].
  split; [by apply estimate_complexity_reads|].
  split; [by apply points_for_monotone|].
  split; apply points_for_values.
Qed.

Definition short_story : dict :=
  {[ "title" := JStr "Login"; "description" := JStr "Users can log in";
     "acceptance_criteria" := JArr [JStr "a form"; JStr "an error message"] ]}.

Definition long_story : dict :=
  {[ "title" := JStr "Login"; "description" := JStr "Users can log in with a code";
     "acceptance_criteria" :=
       JArr [JStr "a form"; JStr "an error message"; JStr "a code by mail";
             JStr "a lock after five attempts"; JStr "a log entry"] ]}.

Lemma short_story_lengths :
  len (get short_story "acceptance_criteria" (JArr [])) = Ok 2
  /\ len (get short_story "description" (JStr "")) = Ok 16.
Proof. vm_compute. by split. Qed.

Lemma long_story_lengths :
  len (get long_story "acceptance_criteria" (JArr [])) = Ok 5
  /\ len (get long_story "description" (JStr "")) = Ok 28.
Proof. vm_compute. by split. Qed.

Lemma estimate_complexity_monotone_witness :
  exists p1 p2,
    estimate_complexity short_story = Ok p1 /\ estimate_complexity long_story = Ok p2
    /\ p1 <= p2 /\ p1 ∈ [2; 5; 8; 13] /\ p2 ∈ [2; 5; 8; 13].
Proof.
  apply (estimate_complexity_monotone short_story long_story 2 16 5 28).
  - exact (proj1 short_story_lengths).
  - exact (proj2 short_story_lengths).
  - exact (proj1 long_story_lengths).
  - exact (proj2 long_story_lengths).
  - lia.
  - lia.
Defined.

End StoryChecksProps.
